(** * GraphKB query compilation and versioned mutations

    A shallow embedding of the query-parameter parser (the first module of
    [src/app/routes/query.js]: [parseValue]) and of the repository module
    that follows it in the same source file (the module [repo/base.js] with
    the classes [Follow], [Clause], [Comparison] and [SelectionQuery], the
    gate [checkAccess] and the mutations [select], [remove] and [update]),
    together with the helpers of [repo/util.js] that it calls.

    Conventions of the embedding:
    - a JavaScript string is the list of its UTF-16 code units ([jsstring]);
      [js "text"] is the string with the code units of an ASCII literal;
    - a JavaScript exception is a value of [error]; a function that can throw
      returns a [result];
    - an object whose key order is observed ([Object.entries], [Object.keys])
      is an association list in insertion order; the bound-parameter object
      and the record store are finite maps;
    - the storage engine and the class models of the schema are consumed
      through the interfaces [engine] and [ClassModel.t]. *)

From Stdlib Require Import ZArith NArith String Ascii Decimal DecimalString DecimalNat.
From stdpp Require Import base option list gmap sorting.

Set Warnings "-register-all".
Local Open Scope N_scope.

(** ** JavaScript strings *)

Abbreviation jsstring := (list N).

Definition js (s : string) : jsstring :=
  N_of_ascii <$> list_ascii_of_string s.
Arguments js s%_string : simpl never.

Definition jsstring_eqb (a b : jsstring) : bool := bool_decide (a = b).

(** [s.startsWith(c)] for a one-character [c]. *)
Definition startsWith (c : N) (s : jsstring) : bool :=
  match s with
  | x :: _ => N.eqb x c
  | [] => false
  end.

(** [s.slice(1)]. *)
Definition slice1 (s : jsstring) : jsstring := drop 1 s.

(** [s.split(sep)] for a one-character separator. *)
Fixpoint split_on (sep : N) (s : jsstring) : list jsstring :=
  match s with
  | [] => [[]]
  | c :: s' =>
      if N.eqb c sep then [] :: split_on sep s'
      else match split_on sep s' with
           | w :: ws => (c :: w) :: ws
           | [] => [[c]]
           end
  end.

(** The code units matched by the regular expression class [\s]. *)
Definition is_whitespace (c : N) : bool :=
  (9 <=? c) && (c <=? 13)
  || (c =? 32) || (c =? 160) || (c =? 5760)
  || (8192 <=? c) && (c <=? 8202)
  || (c =? 8232) || (c =? 8233) || (c =? 8239) || (c =? 8287)
  || (c =? 12288) || (c =? 65279).

(** [s.split(/\s+/)]: the pieces between the maximal runs of whitespace;
    [after_ws] is set while a run is being skipped. *)
Fixpoint split_ws_from (after_ws : bool) (s : jsstring) : list jsstring :=
  match s with
  | [] => [[]]
  | c :: s' =>
      if is_whitespace c then
        if after_ws then split_ws_from true s'
        else [] :: split_ws_from true s'
      else match split_ws_from false s' with
           | w :: ws => (c :: w) :: ws
           | [] => [[c]]
           end
  end.

Definition split_ws (s : jsstring) : list jsstring := split_ws_from false s.

(** [`${n}`] for a natural number and for an integer. *)
Definition decimal (n : nat) : jsstring :=
  js (NilEmpty.string_of_uint (Nat.to_uint n)).

Definition decimal_Z (z : Z) : jsstring :=
  if (z <? 0)%Z then js "-" ++ decimal (Z.to_nat (- z)) else decimal (Z.to_nat z).

(** The order of the default [Array.prototype.sort]: strings compared by
    code units. *)
Fixpoint jsstring_leb (a b : jsstring) : bool :=
  match a, b with
  | [], _ => true
  | _ :: _, [] => false
  | x :: a', y :: b' =>
      if x <? y then true else if y <? x then false else jsstring_leb a' b'
  end.

Definition jsstring_le (a b : jsstring) : Prop := jsstring_leb a b = true.

#[global] Instance jsstring_le_dec a b : Decision (jsstring_le a b).
Proof. unfold jsstring_le. apply _. Defined.

(** [names.sort()]. *)
Definition sort (names : list jsstring) : list jsstring :=
  merge_sort jsstring_le names.

(** [items.join(sep)]. *)
Fixpoint join (sep : jsstring) (items : list jsstring) : jsstring :=
  match items with
  | [] => []
  | [x] => x
  | x :: rest => x ++ sep ++ join sep rest
  end.

(** ** Exceptions *)

(** The messages of the [AttributeError]s raised by the modelled code. *)
Inductive attribute_message :=
  | SpecifiedMoreThanOnce
  | WordTooShortAfterSplit
  | WordTooShort
  | NoValues
  | BadFollowType
  | InvalidOperator
  | InvalidReturnProperty (propName : jsstring)
  | UnexpectedAttribute (prefix : jsstring)
  | PropertyNotDefined (name : jsstring)
  | ExpectsRID (name : jsstring).

Inductive error :=
  | AttributeError (msg : attribute_message)
  | URIError
  | TypeError
  | PlainError
  | NoRecordFoundError
  | MultipleRecordsFoundError
  | RecordExistsError
  | StoreError (type : jsstring).

Inductive result (A : Type) :=
  | Ok (a : A)
  | Throw (e : error).
Arguments Ok {A} a.
Arguments Throw {A} e.

#[global] Instance result_ret : MRet result := fun A a => Ok a.
#[global] Instance result_bind : MBind result := fun A B k r =>
  match r with
  | Ok a => k a
  | Throw e => Throw e
  end.

(** ** [decodeURIComponent]

    The built-in of ECMAScript (the abstract operation Decode with an empty
    reserved set): every [%XX] escape is read as an octet, an octet below
    0x80 is a code unit, and a longer sequence has to be the UTF-8 encoding
    of a code point, which is appended in UTF-16. A malformed escape or
    sequence raises a [URIError]. *)

Definition hex_digit (c : N) : option N :=
  if (48 <=? c) && (c <=? 57) then Some (c - 48)
  else if (65 <=? c) && (c <=? 70) then Some (c - 55)
  else if (97 <=? c) && (c <=? 102) then Some (c - 87)
  else None.

Inductive uri_item :=
  | Literal (c : N)
  | Octet (b : N).

Fixpoint uri_items (s : jsstring) : option (list uri_item) :=
  match s with
  | [] => Some []
  | 37 :: rest =>
      match rest with
      | h :: l :: rest' =>
          match hex_digit h, hex_digit l, uri_items rest' with
          | Some a, Some b, Some items => Some (Octet (16 * a + b) :: items)
          | _, _, _ => None
          end
      | _ => None
      end
  | c :: rest =>
      match uri_items rest with
      | Some items => Some (Literal c :: items)
      | None => None
      end
  end.

Definition continuation (b : N) : option N :=
  if (128 <=? b) && (b <=? 191) then Some (b - 128) else None.

Definition utf16_encode (v : N) : jsstring :=
  if v <? 65536 then [v]
  else [55296 + (v - 65536) / 1024; 56320 + (v - 65536) mod 1024].

Definition code_point (low high v : N) : option jsstring :=
  if (low <=? v) && (v <=? high) && negb ((55296 <=? v) && (v <=? 57343))
  then Some (utf16_encode v) else None.

Fixpoint utf8_items (items : list uri_item) : option jsstring :=
  match items with
  | [] => Some []
  | Literal c :: rest => cons c <$> utf8_items rest
  | Octet b :: rest =>
      if b <? 128 then cons b <$> utf8_items rest
      else if (192 <=? b) && (b <=? 223) then
        match rest with
        | Octet b1 :: rest' =>
            match continuation b1 with
            | Some c1 =>
                match code_point 128 2047 ((b - 192) * 64 + c1), utf8_items rest' with
                | Some u, Some r => Some (u ++ r)
                | _, _ => None
                end
            | None => None
            end
        | _ => None
        end
      else if (224 <=? b) && (b <=? 239) then
        match rest with
        | Octet b1 :: Octet b2 :: rest' =>
            match continuation b1, continuation b2 with
            | Some c1, Some c2 =>
                match code_point 2048 65535 ((b - 224) * 4096 + c1 * 64 + c2),
                      utf8_items rest' with
                | Some u, Some r => Some (u ++ r)
                | _, _ => None
                end
            | _, _ => None
            end
        | _ => None
        end
      else if (240 <=? b) && (b <=? 247) then
        match rest with
        | Octet b1 :: Octet b2 :: Octet b3 :: rest' =>
            match continuation b1, continuation b2, continuation b3 with
            | Some c1, Some c2, Some c3 =>
                match code_point 65536 1114111
                        ((b - 240) * 262144 + c1 * 4096 + c2 * 64 + c3),
                      utf8_items rest' with
                | Some u, Some r => Some (u ++ r)
                | _, _ => None
                end
            | _, _, _ => None
            end
        | _ => None
        end
      else None
  end.

Definition decodeURIComponent (s : jsstring) : result jsstring :=
  match uri_items s with
  | Some items =>
      match utf8_items items with
      | Some r => Ok r
      | None => Throw URIError
      end
  | None => Throw URIError
  end.

(** ** The query-parameter value parser: [parseValue] *)

Definition MIN_WORD_SIZE : nat := 4.

(** The constants of [OPERATORS] that the parser uses, and the literal
    ['OR']. *)
Inductive clause_operator := OR | AND.
Inductive comparison_operator := CONTAINSTEXT.

(** A raw value of the parsed query string: a string, or an array when the
    key was given more than once. *)
Inductive query_value :=
  | QString (s : jsstring)
  | QArray (items : list jsstring).

Section ParseValue.
(** The attribute (a name or a traversal object) is carried along. *)
Context {Attr : Type}.

(** The objects [parseValue] builds: [{value, attr, negate}] with an
    optional [operator], and [{operator, comparisons}]. A [value] of
    [None] is [null]. *)
Inductive parsed :=
  | ParsedComparison (attr : Attr) (value : option jsstring)
      (operator : option comparison_operator) (negate : bool)
  | ParsedClause (operator : clause_operator) (comparisons : list parsed).

(** One iteration of the loop over the sub-values: the item pushed to
    [clause.comparisons]. *)
Definition parseSubValue (attr : Attr) (subValue : jsstring) : result parsed :=
  subValue ← decodeURIComponent subValue;
  let negate := startsWith 33 subValue in
  let subValue := if negate then slice1 subValue else subValue in
  if startsWith 126 subValue then
    let operator := CONTAINSTEXT in
    let subValue := slice1 subValue in
    let wordList := split_ws subValue in
    if bool_decide (1 < length wordList)%nat then
      let comparisons :=
        (fun word => ParsedComparison attr (Some word) (Some operator) negate)
          <$> wordList in
      if existsb (fun word => bool_decide (length word < MIN_WORD_SIZE)%nat) wordList
      then Throw (AttributeError WordTooShortAfterSplit)
      else Ok (ParsedClause AND comparisons)
    else if bool_decide (length subValue < MIN_WORD_SIZE)%nat then
      Throw (AttributeError WordTooShort)
    else
      let value := if jsstring_eqb subValue (js "null") then None else Some subValue in
      Ok (ParsedComparison attr value (Some operator) negate)
  else
    let value := if jsstring_eqb subValue (js "null") then None else Some subValue in
    Ok (ParsedComparison attr value None negate).

(** The loop [for (let subValue of value.split('|'))]; [comparisons] is
    [clause.comparisons] so far. *)
Fixpoint parseSubValues (attr : Attr) (subValues : list jsstring)
    (comparisons : list parsed) : result (list parsed) :=
  match subValues with
  | [] => Ok comparisons
  | subValue :: rest =>
      comp ← parseSubValue attr subValue;
      parseSubValues attr rest (comparisons ++ [comp])
  end.

Definition parseValue (attr : Attr) (value : query_value) : result parsed :=
  match value with
  | QArray _ => Throw (AttributeError SpecifiedMoreThanOnce)
  | QString value =>
      comparisons ← parseSubValues attr (split_on 124 value) [];
      match comparisons with
      | [] => Throw (AttributeError NoValues)
      | [comp] => Ok comp
      | _ => Ok (ParsedClause OR comparisons)
      end
  end.
End ParseValue.
Arguments parsed Attr : clear implicits.

(** ** Values and records *)

(** The JavaScript values that occur as comparison values and record
    fields. [VRID] is an [orientjs] record identifier object, [VNumber] an
    integral number. *)
Inductive value :=
  | VUndefined
  | VNull
  | VBoolean (b : bool)
  | VNumber (z : Z)
  | VString (s : jsstring)
  | VRID (s : jsstring)
  | VArray (items : list value)
  | VObject (fields : list (jsstring * value)).

(** An object in insertion order. *)
Abbreviation object := (list (jsstring * value)).

Definition is_null (v : value) : bool :=
  match v with VNull => true | _ => false end.

Definition is_undefined (v : value) : bool :=
  match v with VUndefined => true | _ => false end.

(** The truthiness of a value. *)
Definition truthy (v : value) : bool :=
  match v with
  | VUndefined | VNull => false
  | VBoolean b => b
  | VNumber z => negb (z =? 0)%Z
  | VString s => negb (bool_decide (s = []))
  | VRID _ | VArray _ | VObject _ => true
  end.

Section Objects.
Context {V : Type}.

(** [obj[key]]; [None] is [undefined]. *)
Fixpoint obj_get (key : jsstring) (obj : list (jsstring * V)) : option V :=
  match obj with
  | [] => None
  | (k, v) :: rest => if bool_decide (k = key) then Some v else obj_get key rest
  end.

(** [obj[key] = v]: an existing key keeps its place. *)
Fixpoint obj_set (key : jsstring) (v : V) (obj : list (jsstring * V))
    : list (jsstring * V) :=
  match obj with
  | [] => [(key, v)]
  | (k, w) :: rest =>
      if bool_decide (k = key) then (k, v) :: rest
      else (k, w) :: obj_set key v rest
  end.

(** [delete obj[key]]. *)
Definition obj_delete (key : jsstring) (obj : list (jsstring * V))
    : list (jsstring * V) :=
  filter (fun kv => kv.1 <> key) obj.

(** [Object.assign(target, source)]. *)
Definition obj_assign (target source : list (jsstring * V)) : list (jsstring * V) :=
  foldl (fun acc kv => obj_set kv.1 kv.2 acc) target source.

(** [Object.keys(obj)]. *)
Definition obj_keys (obj : list (jsstring * V)) : list jsstring := obj.*1.
End Objects.

(** [array.includes(name)] for an array of strings. *)
Definition includes (names : list jsstring) (name : jsstring) : bool :=
  bool_decide (name ∈ names).

(** ** Comparisons and clauses: the classes [Comparison] and [Clause] *)

(** The result of a [toString]: the statement text and the bound
    parameters. In the loops below [bound] is the local object [params]. *)
Record statement := mkStatement {
  query : jsstring;
  params : gmap jsstring value
}.

Inductive cond :=
  | Comparison (value : value) (operator : jsstring) (negate : bool)
  | Clause (type : jsstring) (comparisons : list cond).

(** [new Comparison(value, operator, negate)]. *)
Definition new_Comparison (value : value) (operator : jsstring) (negate : bool)
    : result cond :=
  if negb (jsstring_eqb operator (js "=")) && negb (jsstring_eqb operator (js "~"))
  then Throw (AttributeError InvalidOperator)
  else Ok (Comparison value operator negate).

(** The getter [length] of a clause; a comparison has none. *)
Definition cond_length (c : cond) : option nat :=
  match c with
  | Clause _ comparisons => Some (length comparisons)
  | Comparison _ _ _ => None
  end.

(** [comp instanceof Clause && comp.length > 1]. *)
Definition is_Clause_longer_than_1 (c : cond) : bool :=
  match c with
  | Clause _ comparisons => bool_decide (1 < length comparisons)%nat
  | Comparison _ _ _ => false
  end.

Definition parenthesize (q : jsstring) : jsstring := js "(" ++ q ++ js ")".

Definition param_name (paramIndex : nat) : jsstring :=
  js "param" ++ decimal paramIndex.

(** [Comparison.prototype.toString]. *)
Definition Comparison_toString (value : value) (operator : jsstring) (negate : bool)
    (name : jsstring) (paramIndex : nat) (listableType : bool) : statement :=
  let pname := param_name paramIndex in
  let '(query, params) :=
    if listableType then
      if is_null value then (name ++ js " CONTAINS NULL", ∅)
      else (name ++ js " CONTAINS :" ++ pname, {[pname := value]})
    else if negb (is_null value) then
      (name ++ js " "
         ++ (if jsstring_eqb operator (js "~") then js "CONTAINSTEXT" else js "=")
         ++ js " :" ++ pname,
       {[pname := value]})
    else (name ++ js " IS NULL", ∅) in
  let query := if negate then js "NOT (" ++ query ++ js ")" else query in
  mkStatement query params.

(** [Clause.prototype.toString] and [Comparison.prototype.toString]; the
    inner loop carries [params] and [components]. *)
Fixpoint toString (c : cond) (name : jsstring) (paramIndex : nat)
    (listableType : bool) : statement :=
  match c with
  | Comparison value operator negate =>
      Comparison_toString value operator negate name paramIndex listableType
  | Clause type comparisons =>
      let fix loop (comps : list cond) (bound : gmap jsstring value)
          (components : list jsstring) : statement :=
        match comps with
        | [] => mkStatement (join (js " " ++ type ++ js " ") components) bound
        | comp :: rest =>
            let result := toString comp name (paramIndex + size bound) listableType in
            let text :=
              if is_Clause_longer_than_1 comp then parenthesize (query result)
              else query result in
            loop rest (params result ∪ bound) (components ++ [text])
        end in
      loop comparisons ∅ []
  end.

(** [Comparison.prototype.applyCast] and [Clause.prototype.applyCast]; a
    cast may throw. *)
Fixpoint applyCast (cast : value -> result value) (c : cond) : result cond :=
  match c with
  | Comparison value operator negate =>
      value ← cast value; Ok (Comparison value operator negate)
  | Clause type comparisons =>
      comparisons ← (fix each (items : list cond) : result (list cond) :=
                       match items with
                       | [] => Ok []
                       | item :: rest =>
                           item ← applyCast cast item;
                           rest ← each rest;
                           Ok (item :: rest)
                       end) comparisons;
      Ok (Clause type comparisons)
  end.

(** ** Traversal directives: the class [Follow] *)

Definition RELATED_NODE_DEPTH : Z := 3.
Definition QUERY_LIMIT : Z := 1000.
Definition FUZZY_CLASSES : list jsstring := [js "AliasOf"; js "DeprecatedBy"].
Definition SPECIAL_QUERY_ARGS : list jsstring :=
  [js "fuzzyMatch"; js "ancestors"; js "descendants"; js "returnProperties";
   js "limit"; js "skip"; js "neighbors"; js "includeHistory"].

(** [quoteWrap] of [util.js]. *)
Definition quoteWrap (s : jsstring) : jsstring := js "'" ++ s ++ js "'".

Module Follow.

(** A [depth] of [None] is [null]. *)
Record t := mk {
  classnames : list jsstring;
  type : jsstring;
  depth : option Z;
  activeOnly : bool
}.

(** The constructor. *)
Definition new (classnames : list jsstring) (type : jsstring) (depth : option Z)
    (activeOnly : bool) : result t :=
  if negb (includes [js "both"; js "in"; js "out"] type) then
    Throw (AttributeError BadFollowType)
  else if jsstring_eqb type (js "both") && bool_decide (depth = None) then
    Throw PlainError
  else Ok (mk classnames type depth activeOnly).

Definition toString (f : t) : jsstring :=
  let classesString := join (js ", ") (quoteWrap <$> classnames f) in
  let hop := js "." ++ type f ++ js "(" ++ classesString ++ js ")" in
  match depth f with
  | None =>
      if activeOnly f then
        hop ++ js "{while: ($matched." ++ type f ++ js "(" ++ classesString
          ++ js ").size() > 0 AND $matched.deletedAt IS NULL)}"
      else
        hop ++ js "{while: ($matched." ++ type f ++ js "(" ++ classesString
          ++ js ").size() > 0)}"
  | Some depth =>
      if activeOnly f then
        hop ++ js "{while: ($depth < " ++ decimal_Z depth
          ++ js " AND $matched.deletedAt IS NULL)}"
      else hop ++ js "{while: ($depth < " ++ decimal_Z depth ++ js ")}"
  end.

(** The argument of [Follow.parse] at its documented types; [None] is
    [undefined]. *)
Record directives := mkDirectives {
  ancestors : option (list jsstring);
  descendants : option (list jsstring);
  fuzzyMatch : option Z;
  query_activeOnly : option bool
}.

(** [Follow.parse]. An array is truthy, also when it is empty; the number
    [fuzzyMatch] is truthy unless it is zero. *)
Definition parse (query : directives) : result (list (list t)) :=
  let activeOnly := default true (query_activeOnly query) in
  let follow := [] in
  follow ← match ancestors query with
           | Some classes =>
               hop ← new classes (js "in") None activeOnly; Ok (follow ++ [[hop]])
           | None => Ok follow
           end;
  follow ← match descendants query with
           | Some classes =>
               hop ← new classes (js "out") None activeOnly; Ok (follow ++ [[hop]])
           | None => Ok follow
           end;
  match fuzzyMatch query with
  | Some depth =>
      if negb (depth =? 0)%Z then
        fuzzy ← new FUZZY_CLASSES (js "both") (Some depth) activeOnly;
        if bool_decide (length follow = 0%nat) then Ok (follow ++ [[fuzzy]])
        else Ok ((fun followArr => [fuzzy] ++ followArr ++ [fuzzy]) <$> follow)
      else Ok follow
  | None => Ok follow
  end.

End Follow.

(** ** Helpers of [repo/util.js] *)

(** [getParameterPrefix]: the expression [/^([^\.]+)\.([^\.]+)$/] matches a
    string with exactly one dot and a non-empty part on each side; without a
    match the [suffix] is [undefined]. *)
Definition getParameterPrefix (param : jsstring) : jsstring * option jsstring :=
  match split_on 46 param with
  | [prefix; suffix] =>
      if negb (bool_decide (prefix = [])) && negb (bool_decide (suffix = []))
      then (prefix, Some suffix) else (param, None)
  | _ => (param, None)
  end.

Fixpoint drop_whitespace (s : jsstring) : jsstring :=
  match s with
  | c :: s' => if is_whitespace c then drop_whitespace s' else s
  | [] => []
  end.

(** [s.trim()]. *)
Definition trim (s : jsstring) : jsstring :=
  reverse (drop_whitespace (reverse (drop_whitespace s))).

Definition is_digit (c : N) : bool := (48 <=? c) && (c <=? 57).

(** A match of [/^\d+:\d+$/]. *)
Definition digits_colon_digits (s : jsstring) : bool :=
  match split_on 58 s with
  | [cluster; position] =>
      negb (bool_decide (cluster = [])) && forallb is_digit cluster
      && negb (bool_decide (position = [])) && forallb is_digit position
  | _ => false
  end.

(** [s.replace(/^#/, '')]. *)
Definition strip_hash (s : jsstring) : jsstring :=
  if startsWith 35 s then slice1 s else s.

(** [looksLikeRID]: a value without a [trim] method makes the call throw
    inside the [try], and the answer is [false]. *)
Definition looksLikeRID (rid : value) (requireHash : bool) : bool :=
  match rid with
  | VString s =>
      let s := trim s in
      if requireHash then startsWith 35 s && digits_colon_digits (slice1 s)
      else digits_colon_digits (strip_hash s)
  | _ => false
  end.

(** ** The consumed class model *)

Module ClassModel.

(** The interface of a class model of the schema; a property definition may
    link to another model. [formatRecord content dropExtra addDefaults] is
    the record-formatting operation. *)
Inductive t := mk {
  name : jsstring;
  propertyNames : list jsstring;
  properties : list (jsstring * PropertyDefn);
  cast : list (jsstring * (value -> result value));
  inherits : list jsstring;
  isEdge : bool;
  formatRecord : object -> bool -> bool -> result object
}
with PropertyDefn := mkProperty {
  type : option jsstring;
  linkedModel : option t
}.

End ClassModel.

(** ** The selection-query compiler: the class [SelectionQuery] *)

(** [text.includes(needle)]. *)
Fixpoint includes_text (needle text : jsstring) : bool :=
  bool_decide (needle `prefix_of` text)
  || match text with
     | [] => false
     | _ :: text' => includes_text needle text'
     end.

(** A match of [/^(embedded|link)(list|set|map|bag)$/]. *)
Definition is_container_type (type : jsstring) : bool :=
  bool_decide (type ∈ [js "embeddedlist"; js "embeddedset"; js "embeddedmap";
                       js "embeddedbag"; js "linklist"; js "linkset";
                       js "linkmap"; js "linkbag"]).

(** [new RID(`#${text.replace(/^#/, '')}`)] on a bound value that is not
    [null]. *)
Definition to_RID (v : value) : value :=
  match v with
  | VString s => VRID (js "#" ++ strip_hash s)
  | _ => v
  end.

Module SelectionQuery.

(** A value of the input query: an instance of [Comparison] or [Clause], or
    any other value. *)
Inductive input :=
  | Cond (c : cond)
  | Raw (v : value).

Definition truthy_input (i : input) : bool :=
  match i with
  | Cond _ => true
  | Raw v => truthy v
  end.

(** The special arguments are read at their documented types: an array of
    names and an integral depth. *)
Definition names_of (i : input) : list jsstring :=
  match i with
  | Raw (VArray items) =>
      (fun item => match item with VString s => s | _ => [] end) <$> items
  | _ => []
  end.

Definition depth_of (i : input) : Z :=
  match i with
  | Raw (VNumber z) => z
  | _ => 0%Z
  end.

(** The options [opt] of the constructor; [None] is [undefined]. *)
Record options := mkOptions {
  opt_skip : option Z;
  opt_activeOnly : option bool
}.

(** The fields of a query, in the order [model], [conditions], [follow],
    [skip], [activeOnly], [properties], [returnProperties], [cast]; a
    condition is a [Comparison] or [Clause], a nested query, or a value that
    the constructor left unwrapped. *)
Inductive t :=
  | mk (model : ClassModel.t) (conditions : list (jsstring * condition))
      (follow : list (list Follow.t)) (skip : option Z) (activeOnly : bool)
      (properties : list (jsstring * option ClassModel.PropertyDefn))
      (returnProperties : option (list jsstring))
      (cast : list (jsstring * (value -> result value)))
with condition :=
  | Leaf (c : cond)
  | Subquery (q : t)
  | Unwrapped (v : value).

Definition model (q : t) : ClassModel.t :=
  match q with mk model _ _ _ _ _ _ _ => model end.
Definition conditions (q : t) : list (jsstring * condition) :=
  match q with mk _ conditions _ _ _ _ _ _ => conditions end.
Definition follow (q : t) : list (list Follow.t) :=
  match q with mk _ _ follow _ _ _ _ _ => follow end.
Definition skip (q : t) : option Z :=
  match q with mk _ _ _ skip _ _ _ _ => skip end.
Definition activeOnly (q : t) : bool :=
  match q with mk _ _ _ _ activeOnly _ _ _ => activeOnly end.
Definition properties (q : t) : list (jsstring * option ClassModel.PropertyDefn) :=
  match q with mk _ _ _ _ _ properties _ _ => properties end.
Definition returnProperties (q : t) : option (list jsstring) :=
  match q with mk _ _ _ _ _ _ returnProperties _ => returnProperties end.
Definition cast (q : t) : list (jsstring * (value -> result value)) :=
  match q with mk _ _ _ _ _ _ _ cast => cast end.

Definition odbArgs : list jsstring := [js "@rid"; js "@class"].

(** An entry of the local object [subqueries]; [sub_new] is the constructor
    call [new SelectionQuery(value.model, ...)] of the second loop. *)
Record subquery := mkSubquery {
  sub_where : list (jsstring * input);
  sub_model : ClassModel.t;
  sub_new : list (jsstring * input) -> options -> result t
}.

(** The loop that checks the return properties. *)
Fixpoint check_returnProperties (model_name : jsstring) (propertyNames : list jsstring)
    (names : list jsstring) : result unit :=
  match names with
  | [] => Ok tt
  | propName :: rest =>
      if negb (includes propertyNames propName) then
        Throw (AttributeError (InvalidReturnProperty propName))
      else check_returnProperties model_name propertyNames rest
  end.

(** The first loop of the constructor, over [Object.entries(inputQuery)]:
    it fills [this.conditions] and [subqueries]. [linked] gives for a
    property name of [this.properties] its linked model, if any, with the
    constructor for that model. *)
Fixpoint split_entries (propertyNames : list jsstring)
    (linked : list (jsstring * option (ClassModel.t
                      * (list (jsstring * input) -> options -> result t))))
    (entries : list (jsstring * input))
    (conditions : list (jsstring * condition))
    (subqueries : list (jsstring * subquery))
    : result (list (jsstring * condition) * list (jsstring * subquery)) :=
  match entries with
  | [] => Ok (conditions, subqueries)
  | (name, value) :: rest =>
      if includes SPECIAL_QUERY_ARGS name then
        split_entries propertyNames linked rest conditions subqueries
      else
        let '(prefix, suffix) := getParameterPrefix name in
        let special_suffix :=
          match suffix with
          | Some suffix => includes SPECIAL_QUERY_ARGS suffix
          | None => false
          end in
        let value :=
          match value with
          | Raw v => if negb special_suffix then Cond (Comparison v (js "=") false)
                     else Raw v
          | Cond c => Cond c
          end in
        let condition :=
          match value with
          | Cond c => Leaf c
          | Raw v => Unwrapped v
          end in
        if negb (includes propertyNames prefix) && negb (includes odbArgs prefix) then
          Throw (AttributeError (UnexpectedAttribute prefix))
        else
          match suffix with
          | Some suffix =>
              match obj_get prefix linked with
              | None => Throw TypeError
              | Some (Some (linkedModel, build)) =>
                  let sub :=
                    default (mkSubquery [] linkedModel build) (obj_get prefix subqueries) in
                  let sub :=
                    mkSubquery (obj_set suffix value (sub_where sub))
                      (sub_model sub) (sub_new sub) in
                  split_entries propertyNames linked rest conditions
                    (obj_set prefix sub subqueries)
              | Some None =>
                  split_entries propertyNames linked rest
                    (obj_set name condition conditions) subqueries
              end
          | None =>
              split_entries propertyNames linked rest
                (obj_set name condition conditions) subqueries
          end
  end.

(** The query handed to [Follow.parse]:
    [Object.assign({activeOnly: this.activeOnly}, inputQuery)]. *)
Definition directives_of (activeOnly : bool) (inputQuery : list (jsstring * input))
    : Follow.directives :=
  let read (key : jsstring) :=
    match obj_get key inputQuery with
    | Some i => if truthy_input i then Some i else None
    | None => None
    end in
  Follow.mkDirectives
    (names_of <$> read (js "ancestors"))
    (names_of <$> read (js "descendants"))
    (depth_of <$> read (js "fuzzyMatch"))
    (match obj_get (js "activeOnly") inputQuery with
     | None => Some activeOnly
     | Some (Raw VUndefined) => None
     | Some i => Some (truthy_input i)
     end).

(** The state of the constructor that the second loop updates:
    [this.conditions], [this.properties] and [this.cast]. *)
Definition building : Type :=
  list (jsstring * condition)
  * list (jsstring * option ClassModel.PropertyDefn)
  * list (jsstring * (value -> result value)).

(** The body of the second loop when the subquery needs no hops: its
    conditions are inlined under dotted names. *)
Definition inline_conditions (name : jsstring) (subquery : t) (state : building)
    : building :=
  foldl
    (fun '(conditions, properties, cast) subPropName =>
       let combinedName := name ++ js "." ++ subPropName in
       let conditions :=
         match obj_get subPropName (SelectionQuery.conditions subquery) with
         | Some condition => obj_set combinedName condition conditions
         | None => conditions
         end in
       let propDefn :=
         obj_get subPropName (ClassModel.properties (model subquery)) in
       let properties := obj_set combinedName propDefn properties in
       let cast :=
         match obj_get subPropName (ClassModel.cast (model subquery)) with
         | Some f => obj_set combinedName f cast
         | None => cast
         end in
       (conditions, properties, cast))
    state (obj_keys (SelectionQuery.conditions subquery)).

(** The second loop of the constructor, over [Object.entries(subqueries)]. *)
Fixpoint resolve_subqueries (activeOnly : bool) (entries : list (jsstring * subquery))
    (state : building) : result building :=
  match entries with
  | [] => Ok state
  | (name, value) :: rest =>
      subquery ← sub_new value (sub_where value) (mkOptions None (Some activeOnly));
      if bool_decide (length (follow subquery) = 0%nat) then
        resolve_subqueries activeOnly rest (inline_conditions name subquery state)
      else
        let '(conditions, properties, cast) := state in
        resolve_subqueries activeOnly rest
          (obj_set name (Subquery subquery) conditions, properties, cast)
  end.

(** The last loop of the constructor: the casts. A condition that is not
    a [Comparison] or [Clause] has no method [applyCast]. *)
Fixpoint cast_conditions (cast : list (jsstring * (value -> result value)))
    (entries : list (jsstring * condition)) : result (list (jsstring * condition)) :=
  match entries with
  | [] => Ok []
  | (name, condition) :: rest =>
      condition ← match condition, obj_get name cast with
                  | Leaf c, Some f => c ← applyCast f c; Ok (Leaf c)
                  | Unwrapped _, Some _ => Throw TypeError
                  | _, _ => Ok condition
                  end;
      rest ← cast_conditions cast rest;
      Ok ((name, condition) :: rest)
  end.

(** The constructor [new SelectionQuery(model, inputQuery, opt)]. The
    nested constructor calls are made for the linked models of the
    properties of [model]. *)
Fixpoint new (model : ClassModel.t) (inputQuery : list (jsstring * input))
    (opt : options) {struct model} : result t :=
  match model with
  | ClassModel.mk model_name propertyNames model_properties model_cast _ _ _ =>
      let linked :=
        (fix each (props : list (jsstring * ClassModel.PropertyDefn)) :=
           match props with
           | [] => []
           | (key, ClassModel.mkProperty _ (Some linkedModel)) :: rest =>
               (key, Some (linkedModel, new linkedModel)) :: each rest
           | (key, ClassModel.mkProperty _ None) :: rest => (key, None) :: each rest
           end) model_properties in
      let skip :=
        match opt_skip opt with
        | Some n => if (n =? 0)%Z then None else Some n
        | None => None
        end in
      let activeOnly := default true (opt_activeOnly opt) in
      let properties := (fun kv => (kv.1, Some kv.2)) <$> model_properties in
      let returnProperties :=
        match obj_get (js "returnProperties") inputQuery with
        | Some i => if truthy_input i then Some (names_of i) else None
        | None => None
        end in
      _ ← check_returnProperties model_name propertyNames (default [] returnProperties);
      let inputQuery :=
        if activeOnly && includes propertyNames (js "deletedAt")
        then obj_set (js "deletedAt") (Raw VNull) inputQuery
        else inputQuery in
      '(conditions, subqueries) ← split_entries propertyNames linked inputQuery [] [];
      follow ← Follow.parse (directives_of activeOnly inputQuery);
      '(conditions, properties, cast) ←
        resolve_subqueries activeOnly subqueries (conditions, properties, model_cast);
      conditions ← cast_conditions cast conditions;
      Ok (mk model conditions follow skip activeOnly properties returnProperties cast)
  end.

(** The input query after the constructor has run: the constructor assigns
    [inputQuery.deletedAt] in the caller's object. *)
Definition inputQuery_after (model : ClassModel.t) (inputQuery : list (jsstring * input))
    (opt : options) : list (jsstring * input) :=
  if default true (opt_activeOnly opt)
     && includes (ClassModel.propertyNames model) (js "deletedAt")
  then obj_set (js "deletedAt") (Raw VNull) inputQuery
  else inputQuery.

(** [conditionClause]. A bound value of a link property has to look like a
    record identifier and is replaced by one. *)
Definition property_type (q_properties : list (jsstring * option ClassModel.PropertyDefn))
    (name : jsstring) : result jsstring :=
  match obj_get name q_properties with
  | Some (Some (ClassModel.mkProperty (Some type) _)) =>
      if bool_decide (type = []) then Throw (AttributeError (PropertyNotDefined name))
      else Ok type
  | _ => Throw (AttributeError (PropertyNotDefined name))
  end.

Definition conditionClause (q_properties : list (jsstring * option ClassModel.PropertyDefn))
    (name : jsstring) (value : cond) (paramIndex : nat) : result statement :=
  type ← property_type q_properties name;
  let isList := is_container_type type in
  let '(mkStatement query params) := toString value name paramIndex isList in
  if includes_text (js "link") type then
    if bool_decide
         (map_Forall (fun _ v => is_null v = true \/ looksLikeRID v false = true) params)
    then Ok (mkStatement query (to_RID <$> params))
    else Throw (AttributeError (ExpectsRID name))
  else Ok (mkStatement query params).

(** The loop of [toString] over the sorted condition names; [clauses]
    gives for a condition name the statement of its condition from a
    parameter index, and whether it is a clause of more than one item. A
    value left unwrapped has no [toString] that gives a statement. *)
Fixpoint join_conditions (clauses : list (jsstring * ((nat -> result statement) * bool)))
    (conditionNames : list jsstring) (paramStartIndex : nat)
    (bound : gmap jsstring value) (conditions : list jsstring)
    : result (list jsstring * gmap jsstring value) :=
  match conditionNames with
  | [] => Ok (conditions, bound)
  | attr :: rest =>
      match obj_get attr clauses with
      | Some (clause_of, grouped) =>
          clause ← clause_of paramStartIndex;
          let paramStartIndex := (paramStartIndex + size (params clause))%nat in
          let bound := params clause ∪ bound in
          let text := if grouped then parenthesize (query clause) else query clause in
          join_conditions clauses rest paramStartIndex bound (conditions ++ [text])
      | None => Throw TypeError
      end
  end.

(** [SelectionQuery.prototype.toString]. *)
Fixpoint toString (q : t) (paramStartIndex : nat) {struct q} : result statement :=
  match q with
  | mk model conditions follow skip _ properties returnProperties _ =>
      let selectionElements :=
        match returnProperties with
        | Some names => join (js ", ") names
        | None => js "*"
        end in
      let clauses :=
        (fix each (entries : list (jsstring * condition)) :=
           match entries with
           | [] => []
           | (attr, Subquery sub) :: rest =>
               (attr,
                (fun index =>
                   clause ← toString sub index;
                   Ok (mkStatement
                         (attr ++ js " IN (SELECT @rid FROM (" ++ query clause ++ js "))")
                         (params clause)),
                 false)) :: each rest
           | (attr, Leaf c) :: rest =>
               (attr, (conditionClause properties attr c, is_Clause_longer_than_1 c))
                 :: each rest
           | (attr, Unwrapped _) :: rest =>
               (attr,
                (fun index => _ ← property_type properties attr; Throw TypeError,
                 false)) :: each rest
           end) conditions in
      let conditionNames := sort (obj_keys conditions) in
      '(conditions, params) ← join_conditions clauses conditionNames paramStartIndex ∅ [];
      let queryString :=
        if bool_decide (0 < length follow)%nat then
          let prefix :=
            if bool_decide (0 < length conditions)%nat then
              js "{class: " ++ ClassModel.name model ++ js ", where: ("
                ++ join (js " AND ") conditions ++ js ")}"
            else js "{class: " ++ ClassModel.name model ++ js "}" in
          let expressions :=
            (fun arr => prefix ++ join [] (Follow.toString <$> arr)) <$> follow in
          let queryString :=
            js "MATCH " ++ join (js ", ") expressions ++ js " RETURN $pathElements" in
          if negb (jsstring_eqb selectionElements (js "*")) then
            js "SELECT " ++ selectionElements ++ js " FROM (" ++ queryString ++ js ")"
          else queryString
        else
          let queryString :=
            js "SELECT " ++ selectionElements ++ js " FROM " ++ ClassModel.name model in
          if bool_decide (0 < length conditions)%nat then
            queryString ++ js " WHERE " ++ join (js " AND ") conditions
          else queryString in
      let queryString :=
        match skip with
        | Some n => queryString ++ js " skip " ++ decimal_Z n
        | None => queryString
        end in
      Ok (mkStatement queryString params)
  end.

End SelectionQuery.

(** ** The access gate *)

(** The operator [&]: both operands are converted to 32-bit integers. *)
Definition ToInt32 (z : Z) : Z := ((z + 2 ^ 31) mod 2 ^ 32 - 2 ^ 31)%Z.

Definition bitwise_and (a b : Z) : Z := Z.land (ToInt32 a) (ToInt32 b).

(** A user record: its identifier ['@rid'] and its permission table, which
    may be missing. *)
Record User := mkUser {
  user_rid : value;
  permissions : option (gmap jsstring Z)
}.

Definition checkAccess (user : User) (model : ClassModel.t) (permissionsRequired : Z)
    : bool :=
  match permissions user with
  | None => false
  | Some table =>
      if match table !! ClassModel.name model with
         | Some own => negb (bitwise_and permissionsRequired own =? 0)%Z
         | None => false
         end
      then true
      else
        (fix loop (names : list jsstring) : bool :=
           match names with
           | [] => false
           | name :: rest =>
               match table !! name with
               | Some inherited =>
                   if negb (bitwise_and permissionsRequired inherited =? 0)%Z then true
                   else loop rest
               | None => loop rest
               end
           end) (ClassModel.inherits model)
  end.

(** ** The storage engine *)

(** Template-literal conversion [`${v}`] of a value. *)
Fixpoint text_of (v : value) : jsstring :=
  match v with
  | VUndefined => js "undefined"
  | VNull => js "null"
  | VBoolean b => if b then js "true" else js "false"
  | VNumber z => decimal_Z z
  | VString s => s
  | VRID s => s
  | VArray items =>
      join (js ",")
        ((fix each (items : list value) : list jsstring :=
            match items with
            | [] => []
            | item :: rest =>
                (if is_null item || is_undefined item then [] else text_of item)
                  :: each rest
            end) items)
  | VObject _ => js "[object Object]"
  end.

(** [v[key]] on a value; the access throws on [null] and [undefined], and
    gives [undefined] when there is no such field. *)
Definition field_of (v : value) (key : jsstring) : result value :=
  match v with
  | VUndefined | VNull => Throw TypeError
  | VObject fields => Ok (default VUndefined (obj_get key fields))
  | _ => Ok VUndefined
  end.

(** The records of the store by the text of their identifier. *)
Abbreviation store := (gmap jsstring object).

(** The statements that the transaction builder is given. The right-hand
    side of a [set] with a string is a record identifier or a variable of
    the transaction. *)
Inductive expression :=
  | RecordId (text : jsstring)
  | LetVariable (name : jsstring).

Inductive assignment :=
  | SetObject (fields : object)
  | SetField (field : jsstring) (e : expression).

Inductive step :=
  | CreateRecord (kind className : jsstring) (sets : list assignment)
  | UpdateRecord (target : jsstring) (sets : list assignment) (where_ : object)
  | SelectFrom (variable : jsstring).

(** [db.let(name, step)...commit().return(variable)]. *)
Record transaction := mkTransaction {
  lets : list (jsstring * step);
  returned : jsstring
}.

(** What the core consumes of the engine: the execution of a compiled
    statement, the evaluation of the [where] object of an update against a
    record, and the identifier given to a created record. *)
Record engine := mkEngine {
  execute : store -> jsstring -> gmap jsstring value -> Z -> jsstring
            -> result (list object);
  matches : object -> object -> bool;
  allocate : store -> jsstring
}.

(** The failure of a transaction, as reported by the engine. *)
Definition transaction_failure : error := StoreError (js "OCommandExecutionException").

(** The variables of a running transaction hold record identifiers. *)
Definition apply_assignment (env : list (jsstring * list jsstring)) (record : object)
    (a : assignment) : result object :=
  match a with
  | SetObject fields => Ok (obj_assign record fields)
  | SetField field (RecordId text) => Ok (obj_set field (VRID text) record)
  | SetField field (LetVariable name) =>
      match obj_get name env with
      | Some [rid] => Ok (obj_set field (VRID rid) record)
      | _ => Throw transaction_failure
      end
  end.

Fixpoint apply_assignments (env : list (jsstring * list jsstring)) (record : object)
    (sets : list assignment) : result object :=
  match sets with
  | [] => Ok record
  | a :: rest =>
      record ← apply_assignment env record a;
      apply_assignments env record rest
  end.

(** One step: a created record gets the allocated identifier; an update
    changes its target when the [where] object matches it, and fails the
    transaction otherwise. *)
Definition run_step (db : engine) (records : store)
    (env : list (jsstring * list jsstring)) (s : step)
    : result (store * list jsstring) :=
  match s with
  | CreateRecord _ _ sets =>
      record ← apply_assignments env [] sets;
      let rid := allocate db records in
      Ok (<[rid := record]> records, [rid])
  | UpdateRecord target sets where_ =>
      match records !! target with
      | Some record =>
          if matches db where_ record then
            record ← apply_assignments env record sets;
            Ok (<[target := record]> records, [target])
          else Throw transaction_failure
      | None => Throw transaction_failure
      end
  | SelectFrom variable =>
      match obj_get variable env with
      | Some rids => Ok (records, rids)
      | None => Throw transaction_failure
      end
  end.

Fixpoint run_steps (db : engine) (records : store)
    (env : list (jsstring * list jsstring)) (steps : list (jsstring * step))
    : result (store * list (jsstring * list jsstring)) :=
  match steps with
  | [] => Ok (records, env)
  | (name, s) :: rest =>
      '(records, rids) ← run_step db records env s;
      run_steps db records (obj_set name rids env) rest
  end.

(** [commit.return(variable).one()]: the store after the transaction and
    the first returned record, if any. A failure leaves the store as it
    was. *)
Definition commit (db : engine) (records : store) (tx : transaction)
    : result (store * option object) :=
  '(records, env) ← run_steps db records [] (lets tx);
  match obj_get (returned tx) env with
  | Some rids => Ok (records, head rids ≫= fun rid => records !! rid)
  | None => Throw transaction_failure
  end.

(** ** The mutation manager *)

Definition ascii_lower (c : N) : N :=
  if (65 <=? c) && (c <=? 90) then c + 32 else c.

(** [wrapIfTypeError]: only an error of the engine carries a [type]. *)
Definition wrapIfTypeError (err : error) : error :=
  match err with
  | StoreError type =>
      let type := ascii_lower <$> type in
      if includes_text (js "orecordduplicatedexception") type then RecordExistsError
      else if includes_text (js "orecordnotfoundexception") type then NoRecordFoundError
      else err
  | _ => err
  end.

(** The options of [select]; [None] is a missing option. *)
Record select_options := mkSelect {
  select_model : ClassModel.t;
  select_where : option (list (jsstring * SelectionQuery.input));
  select_exactlyN : option Z;
  select_fetchPlan : option jsstring;
  select_limit : option Z;
  select_skip : option Z;
  select_activeOnly : option bool
}.

Definition select (db : engine) (records : store) (opt : select_options)
    : result (list object) :=
  let activeOnly := default true (select_activeOnly opt) in
  let fetchPlan := default (js "*:1") (select_fetchPlan opt) in
  let limit := default QUERY_LIMIT (select_limit opt) in
  let skip := default 0%Z (select_skip opt) in
  query ← SelectionQuery.new (select_model opt) (default [] (select_where opt))
            (SelectionQuery.mkOptions (Some skip) (Some activeOnly));
  '(mkStatement statement params) ← SelectionQuery.toString query 0;
  recordList ← execute db records statement params limit fetchPlan;
  match select_exactlyN opt with
  | Some exactlyN =>
      if bool_decide (length recordList = 0%nat) then
        if (exactlyN =? 0)%Z then Ok []
        else Throw NoRecordFoundError
      else if negb (exactlyN =? Z.of_nat (length recordList))%Z then
        Throw MultipleRecordsFoundError
      else Ok recordList
  | None => Ok recordList
  end.

(** A [where] object of plain values as an input query. *)
Definition input_of (where_ : object) : list (jsstring * SelectionQuery.input) :=
  (fun kv => (kv.1, SelectionQuery.Raw kv.2)) <$> where_.

(** The [where] object after [select] has built its query from it: the
    constructor has assigned [deletedAt] in it. *)
Definition where_after_select (model : ClassModel.t) (where_ : object) : object :=
  if includes (ClassModel.propertyNames model) (js "deletedAt")
  then obj_set (js "deletedAt") VNull where_
  else where_.

(** The first record of a selection with [exactlyN: 1]. *)
Definition select_one (db : engine) (records : store) (model : ClassModel.t)
    (where_ : object) : result object :=
  recordList ← select db records
    (mkSelect model (Some (input_of where_)) (Some 1%Z) None None None None);
  match recordList with
  | rec :: _ => Ok rec
  | [] => Throw TypeError
  end.

(** The transaction of [remove]. *)
Definition remove_transaction (rid : value) (user : User) (where_ : object) (now : Z)
    : transaction :=
  mkTransaction
    [(js "updatedRID",
      UpdateRecord (text_of rid)
        [SetObject [(js "deletedAt", VNumber now)];
         SetField (js "deletedBy") (RecordId (text_of (user_rid user)))]
        where_);
     (js "updated", SelectFrom (js "updatedRID"))]
    (js "updated").

(** [remove]; [now] is the reading of [timeStampNow()]. *)
Definition remove (db : engine) (records : store) (model : ClassModel.t) (user : User)
    (where_ : object) (now : Z) : result (store * option object) :=
  '(rid, where_) ←
    match obj_get (js "@rid") where_ with
    | Some rid =>
        if is_undefined rid then
          rec ← select_one db records model where_;
          Ok (default VUndefined (obj_get (js "@rid") rec),
              obj_set (js "createdAt") (default VUndefined (obj_get (js "createdAt") rec))
                (where_after_select model where_))
        else Ok (rid, where_)
    | None =>
        rec ← select_one db records model where_;
        Ok (default VUndefined (obj_get (js "@rid") rec),
            obj_set (js "createdAt") (default VUndefined (obj_get (js "createdAt") rec))
              (where_after_select model where_))
    end;
  let where_ := obj_delete (js "@rid") where_ in
  match commit db records (remove_transaction rid user where_ now) with
  | Ok updated => Ok updated
  | Throw err => Throw (wrapIfTypeError err)
  end.

(** The prior history entry of the selected record: [original.history]
    unless it is [undefined], read at ['@rid']. *)
Definition prior_history (original : object) : result (option value) :=
  match obj_get (js "history") original with
  | Some history =>
      if is_undefined history then Ok None
      else rid ← field_of history (js "@rid"); Ok (Some rid)
  | None => Ok None
  end.

(** The transaction of [update] for the selected record [original] and its
    formatted attributes [originalWhere], from which [createdBy] and
    [history] are already removed. *)
Definition update_transaction (model : ClassModel.t) (user : User) (content : object)
    (original originalWhere : object) (now : Z) : result transaction :=
  let copy :=
    obj_assign
      (obj_assign [] (obj_delete (js "@version") (obj_delete (js "@rid") originalWhere)))
      [(js "deletedAt", VNumber now)] in
  let kind := if ClassModel.isEdge model then js "EDGE" else js "VERTEX" in
  createdBy ← field_of (default VUndefined (obj_get (js "createdBy") original)) (js "@rid");
  history ← prior_history original;
  Ok (mkTransaction
        [(js "copy",
          CreateRecord kind (ClassModel.name model)
            ([SetObject copy;
              SetField (js "createdBy") (RecordId (text_of createdBy));
              SetField (js "deletedBy") (RecordId (text_of (user_rid user)))]
             ++ match history with
                | Some history => [SetField (js "history") (RecordId (text_of history))]
                | None => []
                end));
         (js "updatedRID",
          UpdateRecord (text_of (default VUndefined (obj_get (js "@rid") original)))
            [SetObject content; SetField (js "history") (LetVariable (js "copy"))]
            originalWhere);
         (js "updated", SelectFrom (js "updatedRID"))]
        (js "updated")).

(** [update]; [now] is the reading of [timeStampNow()]. *)
Definition update (db : engine) (records : store) (model : ClassModel.t) (user : User)
    (where_ content : object) (now : Z) : result (store * option object) :=
  original ← select_one db records model where_;
  originalWhere ← ClassModel.formatRecord model original true false;
  let originalWhere := obj_delete (js "history") (obj_delete (js "createdBy") originalWhere) in
  tx ← update_transaction model user content original originalWhere now;
  match commit db records tx with
  | Ok updated => Ok updated
  | Throw err => Throw (wrapIfTypeError err)
  end.

(** ** Plain objects and the names that they inherit *)

(** The loops that make the keys of an object from their input
    ([cacheVocabulary], [convertRowFields], [convertOwlGraphToJson]) read
    through [member_at]. Elsewhere a property read [obj[key]] is the read
    of an own key: the names that an object inherits are no keys of the
    objects there. *)

(** The property names of [Object.prototype]: every plain object answers a
    read of one of them, with a function or, for [__proto__], with
    [Object.prototype] itself. *)
Definition Object_prototype_names : list jsstring :=
  [js "constructor"; js "__defineGetter__"; js "__defineSetter__"; js "hasOwnProperty";
   js "__lookupGetter__"; js "__lookupSetter__"; js "isPrototypeOf";
   js "propertyIsEnumerable"; js "toString"; js "valueOf"; js "__proto__";
   js "toLocaleString"].

(** A name of [Object.prototype]. *)
Definition inherited (name : jsstring) : bool := includes Object_prototype_names name.

(** What a read [obj[key]] of a plain object gives: the value of an own
    property, else a member of [Object.prototype], else [undefined]. *)
Inductive member (A : Type) :=
  | Own (a : A)
  | Inherited
  | Undefined.
Arguments Own {A} a.
Arguments Inherited {A}.
Arguments Undefined {A}.

(** [own] is the own property under [key], if any. *)
Definition member_at {A : Type} (key : jsstring) (own : option A) : member A :=
  match own with
  | Some a => Own a
  | None => if inherited key then Inherited else Undefined
  end.

(** The run of a loop over plain objects. It goes beyond them when it
    takes a member of [Object.prototype] for one of its own objects or
    values, or replaces the prototype of an object: [Beyond] marks that, and
    what the code does from there on is not described. *)
Inductive within (A : Type) :=
  | Within (a : A)
  | Beyond.
Arguments Within {A} a.
Arguments Beyond {A}.

(** ** The order of the own keys of an object: [Object.entries] *)

(** The array index that a key is: the decimal text, without a leading
    zero, of an integer below [2^32 - 1]. *)
Definition array_index (key : jsstring) : option N :=
  match key with
  | [] => None
  | [48] => Some 0
  | digit :: _ =>
      if (digit =? 48) || negb (forallb is_digit key) then None
      else
        let index := foldl (fun index digit => 10 * index + (digit - 48)) 0 key in
        if index <? 4294967295 then Some index else None
  end.

(** The order of the entries with an array index. *)
Definition index_le {A : Type} (a b : N * A) : Prop := (a.1 <= b.1)%N.

#[global] Instance index_le_dec {A : Type} (a b : N * A) : Decision (index_le a b) :=
  decide (a.1 <= b.1)%N.

(** [Object.entries(obj)] for the own properties of [obj] in the order of
    their creation: the keys that are array indices come first, in
    ascending order, and the other keys follow in the order of creation. *)
Definition Object_entries {A : Type} (obj : list (jsstring * A)) : list (jsstring * A) :=
  (snd <$> merge_sort index_le
             (omap (fun entry => (fun index => (index, entry)) <$> array_index entry.1) obj))
  ++ filter (fun entry => array_index entry.1 = None) obj.

(** ** The rest of [repo/util.js]: [castToRID] *)

(** [castToRID]: a record identifier is returned as it is, an object is
    cast at its ['@rid'], and a string gets its hash sign; any other value
    has no method [replace]. *)
Fixpoint castToRID (string : value) : result value :=
  match string with
  | VRID _ => Ok string
  | VObject fields =>
      (fix find (fields : list (jsstring * value)) : result value :=
         match fields with
         | [] => Throw TypeError
         | (key, v) :: rest =>
             if bool_decide (key = js "@rid") then castToRID v else find rest
         end) fields
  | VString s => Ok (VRID (js "#" ++ strip_hash s))
  | _ => Throw TypeError
  end.

(** ** The query-string parser: [flattenQueryParams], [formatTraversal], [parse] *)

(** A value of the parsed query string: a leaf ([null], a string or an
    array), or a nested object. *)
Inductive param :=
  | PValue (value : option query_value)
  | PObject (entries : list (jsstring * param)).

(** An item of the flattened form: [{attrList, value}]. *)
Record flat := mkFlat {
  attrList : list jsstring;
  flat_value : option query_value
}.

(** What the loop of [flattenQueryParams] pushes for one entry, whose key
    is already appended to the prefix; the inner loop is the recursive call
    on a nested object, over its entries in the order of [Object.entries]:
    the call for every entry is listed under its key, and the calls are
    made in that order. *)
Fixpoint flatten_entry (value : param) (newPrefix : list jsstring) : list flat :=
  match value with
  | PObject children =>
      let calls :=
        (fix each (entries : list (jsstring * param))
             : list (jsstring * (list jsstring -> list flat)) :=
           match entries with
           | [] => []
           | (key, value) :: rest => (key, flatten_entry value) :: each rest
           end) children in
      Object_entries calls ≫= (fun '(key, flatten) => flatten (newPrefix ++ [key]))
  | PValue value => [mkFlat newPrefix value]
  end.

Definition flattenQueryParams (params : list (jsstring * param))
    (prefixList : list jsstring) : list flat :=
  flatten_entry (PObject params) prefixList.

(** The constant [TRAVERSAL_TYPE.LINK]. *)
Inductive traversal_type := LINK.

(** A traversal object [{attr, type, child}]; [None] is a missing field,
    and the [attr] of the traversal of an empty list is [undefined]. *)
Inductive traversal :=
  | mkTraversal (attr : option jsstring) (type : option traversal_type)
      (child : option traversal).

(** The object [curr] of [formatTraversal] with the keys that the loop has
    still to chain below it. *)
Fixpoint chain (attr : option jsstring) (keys : list jsstring) : traversal :=
  match keys with
  | [] => mkTraversal attr None None
  | key :: rest => mkTraversal attr (Some LINK) (Some (chain (Some key) rest))
  end.

Definition formatTraversal (attrList : list jsstring) : traversal :=
  chain (head attrList) (tail attrList).

(** The attribute of a condition: a name, a traversal, or what
    [parseCompoundAttr] made of a name. *)
Inductive attribute (Compound : Type) :=
  | AttrName (name : jsstring)
  | AttrTraversal (t : traversal)
  | AttrCompound (c : Compound).
Arguments AttrName {Compound} name.
Arguments AttrTraversal {Compound} t.
Arguments AttrCompound {Compound} c.

(** A special argument: the result of a cast, or the names of
    [value.split(',')]. *)
Inductive special :=
  | SpecialValue (v : value)
  | SpecialNames (names : list jsstring).

(** The truthiness of a leaf. *)
Definition truthy_leaf (value : option query_value) : bool :=
  match value with
  | None => false
  | Some (QString s) => negb (bool_decide (s = []))
  | Some (QArray _) => true
  end.

(** [value.split(',')]: only a string has the method. *)
Definition split_names (value : option query_value) : result (list jsstring) :=
  match value with
  | Some (QString s) => Ok (split_on 44 s)
  | _ => Throw TypeError
  end.

Section Parse.
Context {Compound : Type}.
(** The constants and the casts of [repo/query] that [parse] imports. *)
Variables MAX_LIMIT MAX_NEIGHBORS : Z.
Variable castRangeInt : option query_value -> Z -> option Z -> result value.
Variable castBoolean : option query_value -> result value.
Variable parseCompoundAttr : jsstring -> result (attribute Compound).

(** The parsed query [{where, ...specialArgs}]; an item of [where] that is
    [None] is [undefined]. *)
Record parsed_query := mkParsedQuery {
  query_where : list (option (parsed (attribute Compound)));
  special_args : list (jsstring * special)
}.

(** The first loop of [parse]: the special arguments and the regular
    conditions; [compoundSyntax] is kept as its truthiness. *)
Fixpoint split_conditions (flattened : list flat)
    (specialArgs : list (jsstring * special))
    (queryConditions : list (attribute Compound * option query_value))
    (compoundSyntax : bool)
    : result (list (jsstring * special)
              * list (attribute Compound * option query_value) * bool) :=
  match flattened with
  | [] => Ok (specialArgs, queryConditions, compoundSyntax)
  | mkFlat attrList value :: rest =>
      let attr := match attrList with [attr] => Some attr | _ => None end in
      if bool_decide (attr = Some (js "neighbors")) then
        v ← castRangeInt value 0 (Some MAX_NEIGHBORS);
        split_conditions rest (obj_set (js "neighbors") (SpecialValue v) specialArgs)
          queryConditions compoundSyntax
      else if bool_decide (attr = Some (js "limit")) then
        v ← castRangeInt value 1 (Some MAX_LIMIT);
        split_conditions rest (obj_set (js "limit") (SpecialValue v) specialArgs)
          queryConditions compoundSyntax
      else if bool_decide (attr = Some (js "skip")) then
        v ← castRangeInt value 0 None;
        split_conditions rest (obj_set (js "skip") (SpecialValue v) specialArgs)
          queryConditions compoundSyntax
      else if bool_decide (attr = Some (js "or")) then
        names ← split_names value;
        split_conditions rest (obj_set (js "or") (SpecialNames names) specialArgs)
          queryConditions compoundSyntax
      else if bool_decide (attr = Some (js "returnProperties")) then
        names ← split_names value;
        split_conditions rest
          (obj_set (js "returnProperties") (SpecialNames names) specialArgs)
          queryConditions compoundSyntax
      else if bool_decide (attr = Some (js "activeOnly")) then
        v ← castBoolean value;
        split_conditions rest (obj_set (js "activeOnly") (SpecialValue v) specialArgs)
          queryConditions compoundSyntax
      else if bool_decide (attr = Some (js "compoundSyntax")) then
        split_conditions rest specialArgs queryConditions (truthy_leaf value)
      else
        let attr :=
          match attr with
          | Some name =>
              if bool_decide (name = []) then AttrTraversal (formatTraversal attrList)
              else AttrName name
          | None => AttrTraversal (formatTraversal attrList)
          end in
        split_conditions rest specialArgs (queryConditions ++ [(attr, value)])
          compoundSyntax
  end.

(** [specialArgs.or.includes(attr)]: an object is no member of an array of
    strings. *)
Definition named_in (names : list jsstring) (attr : attribute Compound) : bool :=
  match attr with
  | AttrName name => includes names name
  | _ => false
  end.

(** The body of the second loop up to the parsed value: the attribute
    after [parseCompoundAttr], and [parseValue(attr, condition.value)]; the
    call for the value [null] throws at [value.split]. *)
Definition parse_condition (compoundSyntax : bool)
    (condition : attribute Compound * option query_value)
    : result (attribute Compound * parsed (attribute Compound)) :=
  let '(attr, value) := condition in
  attr ← match attr with
         | AttrName name =>
             if compoundSyntax || includes_text (js ".") name
             then parseCompoundAttr name else Ok attr
         | _ => Ok attr
         end;
  value ← match value with
          | Some value => parseValue attr value
          | None => Throw TypeError
          end;
  Ok (attr, value).

(** The second loop of [parse]; [or] is [specialArgs.or] and [topLevelOr]
    is [topLevelOr.comparisons]. *)
Fixpoint parse_conditions (or : option (list jsstring)) (compoundSyntax : bool)
    (queryConditions : list (attribute Compound * option query_value))
    (query : list (option (parsed (attribute Compound))))
    (topLevelOr : list (parsed (attribute Compound)))
    : result (list (option (parsed (attribute Compound)))
              * list (parsed (attribute Compound))) :=
  match queryConditions with
  | [] => Ok (query, topLevelOr)
  | condition :: rest =>
      '(attr, value) ← parse_condition compoundSyntax condition;
      if match or with Some names => named_in names attr | None => false end
      then parse_conditions or compoundSyntax rest query (topLevelOr ++ [value])
      else parse_conditions or compoundSyntax rest (query ++ [Some value]) topLevelOr
  end.

Definition parse (queryParams : list (jsstring * param)) : result parsed_query :=
  let flattened := flattenQueryParams queryParams [] in
  '(specialArgs, queryConditions, compoundSyntax) ←
    split_conditions flattened [] [] false;
  let or :=
    match obj_get (js "or") specialArgs with
    | Some (SpecialNames names) => Some names
    | _ => None
    end in
  '(query, topLevelOr) ← parse_conditions or compoundSyntax queryConditions [] [];
  match or with
  | Some _ =>
      let query :=
        if bool_decide (1 < length topLevelOr)%nat
        then query ++ [Some (ParsedClause OR topLevelOr)]
        else query ++ [head topLevelOr] in
      Ok (mkParsedQuery query (obj_delete (js "or") specialArgs))
  | None => Ok (mkParsedQuery query specialArgs)
  end.

End Parse.

(** ** The vocabulary cache: [cacheVocabulary] *)

(** The property key that a field of a row gives: [row.class] as a key. *)
Definition row_key (row : object) (field : jsstring) : jsstring :=
  text_of (default VUndefined (obj_get field row)).

(** The loop of [cacheVocabulary] over the selected rows:
    [cache.vocabulary[row.class][row.property]] is the list of the rows of
    a class and property. A class that is a name of [Object.prototype] is
    answered with the member; a property that is one is answered with a
    member that has no method [push]. *)
Fixpoint group_rows (rows : list object)
    (vocabulary : gmap jsstring (gmap jsstring (list object)))
    : within (result (gmap jsstring (gmap jsstring (list object)))) :=
  match rows with
  | [] => Within (Ok vocabulary)
  | row :: rest =>
      let className := row_key row (js "class") in
      let property := row_key row (js "property") in
      match member_at className (vocabulary !! className) with
      | Inherited => Beyond
      | byProperty =>
          let byProperty := match byProperty with Own found => found | _ => ∅ end in
          match member_at property (byProperty !! property) with
          | Inherited => Within (Throw TypeError)
          | items =>
              let items := match items with Own found => found | _ => [] end in
              group_rows rest
                (<[className := <[property := items ++ [row]]> byProperty]> vocabulary)
          end
      end
  end.

(** [cacheVocabulary]: the new value of [cache.vocabulary]. *)
Definition cacheVocabulary (db : engine) (records : store) (model : ClassModel.t)
    : within (result (gmap jsstring (gmap jsstring (list object)))) :=
  match select db records (mkSelect model None None None None None None) with
  | Ok rows => group_rows rows ∅
  | Throw err => Within (Throw err)
  end.

(** ** Helpers of the loaders: [convertRowFields], [requestWithRetry] *)

(** A value that is neither an object nor [null]. *)
Definition is_primitive (v : value) : bool :=
  match v with
  | VUndefined | VBoolean _ | VNumber _ | VString _ => true
  | VNull | VRID _ | VArray _ | VObject _ => false
  end.

(** The body of the loop of [convertRowFields]: [result[name] = row[col]].
    A column that the row has not and that is a name of [Object.prototype]
    is read as the member; the assignment to the name [__proto__] makes no
    field: it does nothing for a primitive value and replaces the prototype
    of the result otherwise. *)
Definition convert_field (row : object) (result : within object)
    (entry : jsstring * jsstring) : within object :=
  let '(name, col) := entry in
  match result, member_at col (obj_get col row) with
  | Beyond, _ | _, Inherited => Beyond
  | Within result, found =>
      let value := match found with Own value => value | _ => VUndefined end in
      if bool_decide (name = js "__proto__") then
        if is_primitive value then Within result else Beyond
      else Within (obj_set name value result)
  end.

(** [convertRowFields]: the loop over [Object.entries(header)]. *)
Definition convertRowFields (header : list (jsstring * jsstring)) (row : object)
    : within object :=
  foldl (convert_field row) (Within []) (Object_entries header).

(** [HTTP_STATUS_CODES.TOO_MANY_REQUESTS]. *)
Definition TOO_MANY_REQUESTS : Z := 429.

Section RequestWithRetry.
(** The request is an operation on the world outside, which answers with a
    result or with an error; an error may carry a status code;
    [sleep waitSeconds] is the wait. *)
Context {World Response Failure : Type}.
Variable request : World -> (Response + Failure) * World.
Variable statusCode : Failure -> option Z.
Variable sleep : Z -> World -> World.

(** [requestWithRetry(requestOpt, {waitSeconds, retries})] for a number of
    retries that is a natural number. *)
Fixpoint requestWithRetry (waitSeconds : Z) (retries : nat) (world : World)
    : (Response + Failure) * World :=
  match request world with
  | (inl result, world) => (inl result, world)
  | (inr err, world) =>
      match retries with
      | S retries' =>
          if bool_decide (statusCode err = Some TOO_MANY_REQUESTS) then
            requestWithRetry waitSeconds retries' (sleep waitSeconds world)
          else (inr err, world)
      | O => (inr err, world)
      end
  end.
End RequestWithRetry.

(** ** The cache of the ChEMBL loader: [preLoadCache] *)

Section PreLoadCache.
(** [generateCacheKey] is imported from the module [graphkb]. *)
Context {Entry : Type}.
Variable generateCacheKey : Entry -> jsstring.

(** The loop over the fetched records: the cache and the set [dups]. *)
Definition load_records (records : list Entry) (CACHE : gmap jsstring Entry)
    : gmap jsstring Entry * gset jsstring :=
  foldl
    (fun '(CACHE, dups) record =>
       let cacheKey := generateCacheKey record in
       let dups := if bool_decide (is_Some (CACHE !! cacheKey)) then {[cacheKey]} ∪ dups
                   else dups in
       (<[cacheKey := record]> CACHE, dups))
    (CACHE, ∅) records.

(** [preLoadCache] after its request: [Array(dups)] is the array whose one
    item is the set [dups], and the key that the set gives is the text
    ["[object Set]"]. *)
Definition preLoadCache (records : list Entry) (CACHE : gmap jsstring Entry)
    : gmap jsstring Entry :=
  let '(CACHE, dups) := load_records records CACHE in
  foldl (fun CACHE key => delete key CACHE) CACHE [js "[object Set]"].
End PreLoadCache.

(** ** The configuration: [create] of [config.js] *)

(** The environment [process.env]: its variables are strings. *)
Abbreviation environment := (gmap jsstring jsstring).

(** [process.env.NAME || fallback]: an empty string is not truthy. *)
Definition env_or (env : environment) (name : jsstring) (fallback : value) : value :=
  match env !! name with
  | Some text => if bool_decide (text = []) then fallback else VString text
  | None => fallback
  end.

(** [`${process.env.NAME}`]. *)
Definition env_text (env : environment) (name : jsstring) : jsstring :=
  match env !! name with
  | Some text => text
  | None => js "undefined"
  end.

(** [process.env.NAME === '1']. *)
Definition env_is_1 (env : environment) (name : jsstring) : value :=
  VBoolean (bool_decide (env !! name = Some (js "1"))).

(** The constant [dbName], from the environment when the module is
    loaded. *)
Definition dbName (loaded : environment) : jsstring :=
  text_of (env_or loaded (js "DB_NAME")
             (VString (js "kbapi_v" ++ env_text loaded (js "npm_package_version")))).

(** [create()]: [loaded] is the environment when the module was loaded,
    [env] the environment of the call. *)
Definition create (loaded env : environment) : value :=
  let server :=
    [(js "pass", env_or env (js "DBS_PASS") (VString (js "root")));
     (js "user", env_or env (js "DBS_USER") (VString (js "root")));
     (js "port", env_or env (js "DB_PORT") (VNumber 2426));
     (js "host", env_or env (js "DB_HOST") (VString (js "orientdb02.bcgsc.ca")))] in
  let db :=
    [(js "name", VString (dbName loaded));
     (js "url",
      VString (js "plocal:" ++ env_text loaded (js "ORIENTDB_HOME") ++ js "/databases/"
               ++ dbName loaded));
     (js "pass", env_or env (js "DB_PASS") (VString (js "admin")));
     (js "user", env_or env (js "DB_USER") (VString (js "admin")));
     (js "host", default VUndefined (obj_get (js "host") server));
     (js "port", default VUndefined (obj_get (js "port") server));
     (js "create", env_is_1 env (js "DB_CREATE"));
     (js "migrate", env_is_1 env (js "DB_MIGRATE"))] in
  let keycloak :=
    [(js "uri",
      env_or env (js "KEYCLOAK_URI")
        (VString (js "https://sso.bcgsc.ca/auth/realms/GSC/protocol/openid-connect/token")));
     (js "clientID", env_or env (js "KEYCLOAK_CLIENTID") (VString (js "GraphKB")));
     (js "publicKeyFile",
      env_or env (js "KEYCLOAK_KEYFILE") (VString (js "keycloak.id_rsa.pub")));
     (js "role", env_or env (js "KEYCLOAK_ROLE") (VString (js "GraphKB")))] in
  VObject
    [(js "server", VObject server);
     (js "db", VObject db);
     (js "app", VObject [(js "port", env_or env (js "PORT") (VNumber 8080))]);
     (js "privateKeyFile", env_or env (js "KEY_FILE") (VString (js "id_rsa")));
     (js "disableAuth", env_is_1 env (js "DISABLE_AUTH"));
     (js "keycloak", VObject keycloak);
     (js "createUser", VBoolean true)].

(** ** The graph of an ontology as records: [convertOwlGraphToJson] *)

(** A statement of the graph: the values of its subject, predicate and
    object. *)
Record triple := mkTriple {
  subject : jsstring;
  predicate : jsstring;
  object_value : jsstring
}.

(** A record [{code, ...}]: its code and, under every predicate, the list
    of the objects. The key [code] is kept apart from the other keys, which
    hold lists. *)
Record node := mkNode {
  code : jsstring;
  predicates : gmap jsstring (list jsstring)
}.

Section ConvertOwlGraphToJson.
(** The parser of identifiers gives a string or throws. *)
Variable idParser : jsstring -> result jsstring.

(** The first loop: a statement whose subject is not parsed is skipped. A
    code that is a name of [Object.prototype] is answered with the member;
    the key [code] of a record holds a string, and a predicate that is a
    name of [Object.prototype] is answered with a member: neither has a
    method [push]. *)
Fixpoint collect_statements (statements : list triple)
    (initialRecords : gmap jsstring node) : within (result (gmap jsstring node)) :=
  match statements with
  | [] => Within (Ok initialRecords)
  | statement :: rest =>
      match idParser (subject statement) with
      | Throw _ => collect_statements rest initialRecords
      | Ok src =>
          match member_at src (initialRecords !! src) with
          | Inherited => Beyond
          | record =>
              let record := match record with Own found => found | _ => mkNode src ∅ end in
              if bool_decide (predicate statement = js "code") then Within (Throw TypeError)
              else
                match member_at (predicate statement)
                        (predicates record !! predicate statement) with
                | Inherited => Within (Throw TypeError)
                | items =>
                    let items := match items with Own found => found | _ => [] end in
                    collect_statements rest
                      (<[src := mkNode (code record)
                                  (<[predicate statement := items ++ [object_value statement]]>
                                     (predicates record))]> initialRecords)
                end
          end
      end
  end.

(** An item of a list after the second loop: parsed when it can be. *)
Definition format_item (item : jsstring) : jsstring :=
  match idParser item with
  | Ok parsed => parsed
  | Throw _ => item
  end.

(** The second loop: [nodesByCode[record.code] = record] for every record,
    with its lists formatted; the assignment to the name [__proto__]
    replaces the prototype of [nodesByCode]. *)
Definition nodes_by_code (initialRecords : gmap jsstring node)
    : within (gmap jsstring node) :=
  foldl
    (fun nodesByCode (entry : jsstring * node) =>
       match nodesByCode with
       | Within nodesByCode =>
           if bool_decide (code entry.2 = js "__proto__") then Beyond
           else
             Within
               (<[code entry.2 :=
                    mkNode (code entry.2)
                      ((fun items : list jsstring => format_item <$> items)
                         <$> predicates entry.2)]> nodesByCode)
       | Beyond => Beyond
       end)
    (Within ∅) (map_to_list initialRecords).

Definition convertOwlGraphToJson (statements : list triple)
    : within (result (gmap jsstring node)) :=
  match collect_statements statements ∅ with
  | Within (Ok initialRecords) =>
      match nodes_by_code initialRecords with
      | Within nodesByCode => Within (Ok nodesByCode)
      | Beyond => Beyond
      end
  | Within (Throw err) => Within (Throw err)
  | Beyond => Beyond
  end.
End ConvertOwlGraphToJson.

(** ** Notions of the statements *)

(** Every text-contains comparison of a parsed value has a search word of
    at least [MIN_WORD_SIZE] code units (or the null value). *)
Fixpoint search_words_indexable {Attr : Type} (p : parsed Attr) : bool :=
  match p with
  | ParsedComparison _ (Some word) (Some CONTAINSTEXT) _ =>
      bool_decide (MIN_WORD_SIZE <= length word)%nat
  | ParsedComparison _ _ _ _ => true
  | ParsedClause _ comparisons => forallb search_words_indexable comparisons
  end.

(** A parsed value that is not a comparison with the text ["null"]. *)
Definition not_null_text {Attr : Type} (p : parsed Attr) : bool :=
  match p with
  | ParsedComparison _ (Some word) _ _ => negb (jsstring_eqb word (js "null"))
  | _ => true
  end.

(** A clause of two equality comparisons. *)
Definition two_comparisons : cond :=
  Clause (js "AND") [Comparison (VNumber 1) (js "=") false;
                     Comparison (VNumber 2) (js "=") false].

(** A bitmask that fits 32 bits, read as a signed or as an unsigned
    integer. *)
Definition fits_32_bits (mask : Z) : Prop := (- 2 ^ 31 <= mask < 2 ^ 32)%Z.

(** The bitmask of [name] in a permission table has a bit in common with
    the required bits. *)
Definition intersects (table : gmap jsstring Z) (required : Z) (name : jsstring) : Prop :=
  exists mask, table !! name = Some mask /\ Z.land required mask <> 0%Z.

(** The bitmask of [name] in a permission table has one of the 32 low bits
    in common with the required bits. *)
Definition intersects_low (table : gmap jsstring Z) (required : Z) (name : jsstring)
    : Prop :=
  exists mask i,
    table !! name = Some mask
    /\ (0 <= i < 32)%Z /\ Z.testbit required i = true /\ Z.testbit mask i = true.

(** The hop sequences of the ancestors and descendants directives. *)
Definition directed_hops (ancestors descendants : option (list jsstring))
    (activeOnly : bool) : list (list Follow.t) :=
  match ancestors with
  | Some classes => [[Follow.mk classes (js "in") None activeOnly]]
  | None => []
  end
  ++ match descendants with
     | Some classes => [[Follow.mk classes (js "out") None activeOnly]]
     | None => []
     end.

(** The bidirectional hop over the fuzzy-equivalence classes. *)
Definition fuzzy_hop (depth : Z) (activeOnly : bool) : Follow.t :=
  Follow.mk FUZZY_CLASSES (js "both") (Some depth) activeOnly.

(** A model and an engine for the examples: the engine answers every
    statement with [recordList], accepts every [where] object and gives a
    created record the identifier [#1:99]. *)
Definition example_model : ClassModel.t :=
  ClassModel.mk (js "Disease") [js "name"; js "deletedAt"]
    [(js "name", ClassModel.mkProperty (Some (js "string")) None);
     (js "deletedAt", ClassModel.mkProperty (Some (js "long")) None)]
    [] [js "Ontology"] false (fun content _ _ => Ok content).

Definition example_engine (recordList : list object) : engine :=
  mkEngine (fun _ _ _ _ _ => Ok recordList) (fun _ _ => true) (fun _ => js "#1:99").

Definition example_record (rid name : string) : object :=
  [(js "@rid", VRID (js rid)); (js "@version", VNumber 1);
   (js "name", VString (js name));
   (js "createdBy", VObject [(js "@rid", VRID (js "#0:1"))]);
   (js "createdAt", VNumber 10);
   (js "history", VObject [(js "@rid", VRID (js "#1:0"))])].

Definition example_user : User := mkUser (VRID (js "#0:2")) None.

Definition example_reader : User :=
  mkUser (VRID (js "#0:3")) (Some {[js "Ontology" := 4%Z]}).

(** A store with one live record, [#1:1], named ["old"]. *)
Definition example_store : store :=
  {[js "#1:1" := [(js "name", VString (js "old")); (js "createdBy", VRID (js "#0:1"));
                  (js "createdAt", VNumber 10); (js "history", VRID (js "#1:0"))]]}.

(** The equality comparison with [null] that stands for "IS NULL". *)
Definition is_null_comparison : cond := Comparison VNull (js "=") false.

(** The linked models of a list of property definitions, each with the
    constructor for it: the table that [SelectionQuery.new] consults. *)
Fixpoint linked_constructors (props : list (jsstring * ClassModel.PropertyDefn))
    : list (jsstring * option (ClassModel.t
                * (list (jsstring * SelectionQuery.input) -> SelectionQuery.options
                   -> result SelectionQuery.t))) :=
  match props with
  | [] => []
  | (key, ClassModel.mkProperty _ (Some linkedModel)) :: rest =>
      (key, Some (linkedModel, SelectionQuery.new linkedModel)) :: linked_constructors rest
  | (key, ClassModel.mkProperty _ None) :: rest => (key, None) :: linked_constructors rest
  end.

(** The loop of [Clause.prototype.toString] as a function of its state. *)
Fixpoint Clause_loop (type name : jsstring) (paramIndex : nat) (listableType : bool)
    (comps : list cond) (bound : gmap jsstring value) (components : list jsstring)
    : statement :=
  match comps with
  | [] => mkStatement (join (js " " ++ type ++ js " ") components) bound
  | comp :: rest =>
      let result := toString comp name (paramIndex + size bound) listableType in
      let text :=
        if is_Clause_longer_than_1 comp then parenthesize (query result)
        else query result in
      Clause_loop type name paramIndex listableType rest (params result ∪ bound)
        (components ++ [text])
  end.

(** The statements of the conditions of a query by name: the table that
    [SelectionQuery.toString] consults. *)
Definition condition_clauses
    (properties : list (jsstring * option ClassModel.PropertyDefn))
    (entry : jsstring * SelectionQuery.condition)
    : jsstring * ((nat -> result statement) * bool) :=
  match entry with
  | (attr, SelectionQuery.Subquery sub) =>
      (attr,
       (fun index =>
          clause ← SelectionQuery.toString sub index;
          Ok (mkStatement
                (attr ++ js " IN (SELECT @rid FROM (" ++ query clause ++ js "))")
                (params clause)),
        false))
  | (attr, SelectionQuery.Leaf c) =>
      (attr, (SelectionQuery.conditionClause properties attr c, is_Clause_longer_than_1 c))
  | (attr, SelectionQuery.Unwrapped _) =>
      (attr,
       (fun index => _ ← SelectionQuery.property_type properties attr; Throw TypeError,
        false))
  end.

(** The text of the statement of a query from the texts of its conditions:
    the part of [SelectionQuery.toString] after its loop. *)
Definition statement_text (model : ClassModel.t) (follow : list (list Follow.t))
    (skip : option Z) (returnProperties : option (list jsstring))
    (conditions : list jsstring) : jsstring :=
  let selectionElements :=
    match returnProperties with
    | Some names => join (js ", ") names
    | None => js "*"
    end in
  let queryString :=
    if bool_decide (0 < length follow)%nat then
      let prefix :=
        if bool_decide (0 < length conditions)%nat then
          js "{class: " ++ ClassModel.name model ++ js ", where: ("
            ++ join (js " AND ") conditions ++ js ")}"
        else js "{class: " ++ ClassModel.name model ++ js "}" in
      let expressions :=
        (fun arr => prefix ++ join [] (Follow.toString <$> arr)) <$> follow in
      let queryString :=
        js "MATCH " ++ join (js ", ") expressions ++ js " RETURN $pathElements" in
      if negb (jsstring_eqb selectionElements (js "*")) then
        js "SELECT " ++ selectionElements ++ js " FROM (" ++ queryString ++ js ")"
      else queryString
    else
      let queryString :=
        js "SELECT " ++ selectionElements ++ js " FROM " ++ ClassModel.name model in
      if bool_decide (0 < length conditions)%nat then
        queryString ++ js " WHERE " ++ join (js " AND ") conditions
      else queryString in
  match skip with
  | Some n => queryString ++ js " skip " ++ decimal_Z n
  | None => queryString
  end.

(** The number of bound values of a condition: its comparisons with a
    value other than [null]. *)
Fixpoint bound_values (c : cond) : nat :=
  match c with
  | Comparison value _ _ => if is_null value then 0 else 1
  | Clause _ comparisons => sum_list_with bound_values comparisons
  end.

(** The number of bound values of a query, nested queries included. *)
Fixpoint bound_values_query (q : SelectionQuery.t) : nat :=
  match q with
  | SelectionQuery.mk _ conditions _ _ _ _ _ _ =>
      sum_list_with
        (fun entry : jsstring * SelectionQuery.condition =>
           match entry with
           | (_, SelectionQuery.Leaf c) => bound_values c
           | (_, SelectionQuery.Subquery sub) => bound_values_query sub
           | (_, SelectionQuery.Unwrapped _) => 0
           end)%nat
        conditions
  end.

(** The conditions of a query and of its nested queries are objects: no
    key occurs twice. *)
Fixpoint unique_keys (q : SelectionQuery.t) : Prop :=
  match q with
  | SelectionQuery.mk _ conditions _ _ _ _ _ _ =>
      NoDup (obj_keys conditions)
      /\ (fix each (entries : list (jsstring * SelectionQuery.condition)) : Prop :=
            match entries with
            | [] => True
            | (_, SelectionQuery.Subquery sub) :: rest => unique_keys sub /\ each rest
            | _ :: rest => each rest
            end) conditions
  end.

(** The number of bound values of a condition of a query. *)
Definition bound_values_condition (condition : SelectionQuery.condition) : nat :=
  match condition with
  | SelectionQuery.Leaf c => bound_values c
  | SelectionQuery.Subquery sub => bound_values_query sub
  | SelectionQuery.Unwrapped _ => 0
  end.

(** The query with other conditions. *)
Definition with_conditions (q : SelectionQuery.t)
    (conditions : list (jsstring * SelectionQuery.condition)) : SelectionQuery.t :=
  match q with
  | SelectionQuery.mk model _ follow skip activeOnly properties returnProperties cast =>
      SelectionQuery.mk model conditions follow skip activeOnly properties
        returnProperties cast
  end.

(** The names [param<start>], ..., [param<start + count - 1>]. *)
Definition param_names (start count : nat) : list jsstring :=
  param_name <$> seq start count.

(** The conditions are an object whose nested queries have unique keys. *)
Definition conditions_unique (conditions : list (jsstring * SelectionQuery.condition))
    : Prop :=
  NoDup (obj_keys conditions)
  /\ forall attr sub, (attr, SelectionQuery.Subquery sub) ∈ conditions -> unique_keys sub.

(** A constructor whose queries have unique keys. *)
Definition builds_unique
    (build : list (jsstring * SelectionQuery.input) -> SelectionQuery.options
             -> result SelectionQuery.t) : Prop :=
  forall inputQuery opt q, build inputQuery opt = Ok q -> unique_keys q.

(** Two queries that are the same as objects: the same model, hops, skip
    and projection, and conditions and property definitions that agree key
    by key, nested queries included, whatever the insertion order. *)
Inductive same_query : SelectionQuery.t -> SelectionQuery.t -> Prop :=
  | same_query_mk model conditions1 conditions2 follow skip activeOnly1 activeOnly2
      properties1 properties2 returnProperties cast1 cast2 :
      NoDup (obj_keys conditions1) ->
      NoDup (obj_keys conditions2) ->
      (forall attr,
         option_Forall2 same_condition (obj_get attr conditions1)
           (obj_get attr conditions2)) ->
      (forall name, obj_get name properties1 = obj_get name properties2) ->
      same_query
        (SelectionQuery.mk model conditions1 follow skip activeOnly1 properties1
           returnProperties cast1)
        (SelectionQuery.mk model conditions2 follow skip activeOnly2 properties2
           returnProperties cast2)
with same_condition : SelectionQuery.condition -> SelectionQuery.condition -> Prop :=
  | same_Leaf c : same_condition (SelectionQuery.Leaf c) (SelectionQuery.Leaf c)
  | same_Unwrapped v :
      same_condition (SelectionQuery.Unwrapped v) (SelectionQuery.Unwrapped v)
  | same_Subquery q1 q2 :
      same_query q1 q2 ->
      same_condition (SelectionQuery.Subquery q1) (SelectionQuery.Subquery q2).

(** A model with a link property for the examples, and an input query
    with a clause of two values and a nested query that needs a hop. *)
Definition example_linked_model : ClassModel.t :=
  ClassModel.mk (js "Feature") [js "name"; js "source"; js "deletedAt"]
    [(js "name", ClassModel.mkProperty (Some (js "string")) None);
     (js "source", ClassModel.mkProperty (Some (js "link")) (Some example_model));
     (js "deletedAt", ClassModel.mkProperty (Some (js "long")) None)]
    [] [] false (fun content _ _ => Ok content).

Definition example_inputQuery : list (jsstring * SelectionQuery.input) :=
  [(js "source.name", SelectionQuery.Raw (VString (js "hgnc")));
   (js "source.fuzzyMatch", SelectionQuery.Raw (VNumber 2));
   (js "name",
    SelectionQuery.Cond
      (Clause (js "OR") [Comparison (VString (js "kras")) (js "=") false;
                         Comparison (VString (js "nras")) (js "=") false]))].

(** The text of a record identifier: a match of [/^#\d+:\d+$/]. *)
Definition is_RID_text (text : jsstring) : bool :=
  startsWith 35 text && digits_colon_digits (slice1 text).

(** The leaf at a path of keys in a nested object. *)
Inductive leaf_at : list (jsstring * param) -> list jsstring -> option query_value -> Prop :=
  | leaf_here entries key value :
      (key, PValue value) ∈ entries -> leaf_at entries [key] value
  | leaf_below entries key children path value :
      (key, PObject children) ∈ entries ->
      leaf_at children path value ->
      leaf_at entries (key :: path) value.

(** The attributes along a traversal. *)
Fixpoint traversal_attrs (t : traversal) : list (option jsstring) :=
  match t with
  | mkTraversal attr _ child =>
      attr :: match child with Some t' => traversal_attrs t' | None => [] end
  end.

(** Every traversal object with a child is marked as a link, and the
    last one has no type. *)
Fixpoint links_marked (t : traversal) : bool :=
  match t with
  | mkTraversal _ (Some LINK) (Some t') => links_marked t'
  | mkTraversal _ None None => true
  | _ => false
  end.

(** The names under which the first loop of [parse] stores a special
    argument. *)
Definition stored_special_names : list jsstring :=
  [js "neighbors"; js "limit"; js "skip"; js "or"; js "returnProperties";
   js "activeOnly"].

(** The names that the first loop of [parse] takes as special arguments. *)
Definition special_names : list jsstring :=
  [js "neighbors"; js "limit"; js "skip"; js "or"; js "returnProperties";
   js "activeOnly"; js "compoundSyntax"].

(** A flattened item with a single key that is a special name. *)
Definition is_special_item (item : flat) : bool :=
  match attrList item with
  | [attr] => includes special_names attr
  | _ => false
  end.

(** The leaf given for a special name: the value of the last flattened
    item with that single key. *)
Definition special_leaf (name : jsstring) (flattened : list flat)
    : option (option query_value) :=
  last (flat_value <$> filter (fun item => attrList item = [name]) flattened).

(** The regular condition of a flattened item: under its key when there is
    a single, non-empty one, and under the traversal of its keys
    otherwise. *)
Definition condition_of {Compound : Type} (item : flat)
    : attribute Compound * option query_value :=
  (match attrList item with
   | [attr] =>
       if bool_decide (attr = []) then AttrTraversal (formatTraversal (attrList item))
       else AttrName attr
   | _ => AttrTraversal (formatTraversal (attrList item))
   end,
   flat_value item).

(** What [parse] appends for the comparisons gathered under [or]. *)
Definition top_level_or {Attr : Type} (comparisons : list (parsed Attr))
    : option (parsed Attr) :=
  match comparisons with
  | [] => None
  | [value] => Some value
  | _ => Some (ParsedClause OR comparisons)
  end.

Section SpecialArgument.
Variables MAX_LIMIT MAX_NEIGHBORS : Z.
Variable castRangeInt : option query_value -> Z -> option Z -> result value.
Variable castBoolean : option query_value -> result value.

(** The special argument that the first loop of [parse] stores under a
    name for a leaf; [None] for a name under which it stores nothing. *)
Definition special_argument (name : jsstring) (value : option query_value)
    : option (result special) :=
  if bool_decide (name = js "neighbors") then
    Some (v ← castRangeInt value 0 (Some MAX_NEIGHBORS); Ok (SpecialValue v))
  else if bool_decide (name = js "limit") then
    Some (v ← castRangeInt value 1 (Some MAX_LIMIT); Ok (SpecialValue v))
  else if bool_decide (name = js "skip") then
    Some (v ← castRangeInt value 0 None; Ok (SpecialValue v))
  else if bool_decide (name = js "or") || bool_decide (name = js "returnProperties") then
    Some (names ← split_names value; Ok (SpecialNames names))
  else if bool_decide (name = js "activeOnly") then
    Some (v ← castBoolean value; Ok (SpecialValue v))
  else None.
End SpecialArgument.

(** Casts and a query string for the examples: the casts keep the text of
    a string. *)
Definition example_cast (given : option query_value) : result value :=
  match given with
  | Some (QString text) => Ok (VString text)
  | _ => Throw TypeError
  end.

Definition example_queryParams : list (jsstring * param) :=
  [(js "name", PValue (Some (QString (js "kras|nras"))));
   (js "source", PObject [(js "name", PValue (Some (QString (js "hgnc"))))]);
   (js "limit", PValue (Some (QString (js "10"))));
   (js "or", PValue (Some (QString (js "name,biotype"))))].

Definition example_parse : list (jsstring * param) -> result (@parsed_query Empty_set) :=
  parse 1000 4 (fun given _ _ => example_cast given) example_cast
    (fun name => Ok (AttrName name)).

(** A parsed value with every comparison negated. *)
Fixpoint negated {Attr : Type} (p : parsed Attr) : parsed Attr :=
  match p with
  | ParsedComparison attr value operator _ => ParsedComparison attr value operator true
  | ParsedClause operator comparisons => ParsedClause operator (negated <$> comparisons)
  end.

(** The values that a condition binds: the values other than [null] of
    its comparisons, in order. *)
Fixpoint bound_list (c : cond) : list value :=
  match c with
  | Comparison value _ _ => if is_null value then [] else [value]
  | Clause _ comparisons => comparisons ≫= bound_list
  end.

(** The parameter object with the given values under the names
    [param<start>], [param<start + 1>], ... *)
Definition numbered (start : nat) (values : list value) : gmap jsstring value :=
  list_to_map (zip (param_names start (length values)) values).

Section Attempts.
Context {World Response Failure : Type}.
Variable request : World -> (Response + Failure) * World.
Variable statusCode : Failure -> option Z.
Variable sleep : Z -> World -> World.

(** The world before the request number [n] (from 0) when every request
    before it is followed by the wait. *)
Definition world_before (waitSeconds : Z) (n : nat) (world : World) : World :=
  Nat.iter n (fun world => sleep waitSeconds (request world).2) world.

(** The answer is the error of too many requests. *)
Definition too_many (answer : Response + Failure) : Prop :=
  exists err, answer = inr err /\ statusCode err = Some TOO_MANY_REQUESTS.
End Attempts.

(** An engine that answers with one row of the vocabulary. *)
Definition example_vocabulary_engine : engine :=
  example_engine [[(js "class", VString (js "Disease"));
                   (js "property", VString (js "type"))]].

(** The nested queries of a query, at every depth, have the [activeOnly] of
    the query, at least one sequence of hops and no [skip]. *)
Fixpoint nests (q : SelectionQuery.t) : Prop :=
  match q with
  | SelectionQuery.mk _ conditions _ _ activeOnly _ _ _ =>
      (fix each (entries : list (jsstring * SelectionQuery.condition)) : Prop :=
         match entries with
         | [] => True
         | (_, SelectionQuery.Subquery sub) :: rest =>
             (SelectionQuery.activeOnly sub = activeOnly
              /\ SelectionQuery.follow sub <> []
              /\ SelectionQuery.skip sub = None
              /\ nests sub)
             /\ each rest
         | _ :: rest => each rest
         end) conditions
  end.

(** The nested queries among the conditions are as [nests] asks. *)
Definition conditions_nest (activeOnly : bool)
    (conditions : list (jsstring * SelectionQuery.condition)) : Prop :=
  forall attr sub,
    (attr, SelectionQuery.Subquery sub) ∈ conditions ->
    SelectionQuery.activeOnly sub = activeOnly
    /\ SelectionQuery.follow sub <> []
    /\ SelectionQuery.skip sub = None
    /\ nests sub.

(** A constructor whose queries nest, with the [activeOnly] and the [skip]
    of the options. *)
Definition builds_nested
    (build : list (jsstring * SelectionQuery.input) -> SelectionQuery.options
             -> result SelectionQuery.t) : Prop :=
  forall inputQuery opt q,
    build inputQuery opt = Ok q ->
    nests q
    /\ SelectionQuery.activeOnly q = default true (SelectionQuery.opt_activeOnly opt)
    /\ (SelectionQuery.opt_skip opt = None -> SelectionQuery.skip q = None).

Section Statements.
Variable idParser : jsstring -> result jsstring.

(** The statement is about the given code and predicate. *)
Definition states (src predicate_ : jsstring) (statement : triple) : bool :=
  match idParser (subject statement) with
  | Ok parsed => bool_decide (parsed = src) && bool_decide (predicate statement = predicate_)
  | Throw _ => false
  end.

(** A statement that the first loop skips or files in a list: its subject
    is not parsed, or the code and the predicate are no names of
    [Object.prototype] and the predicate is not [code]. *)
Definition plain_statement (statement : triple) : Prop :=
  match idParser (subject statement) with
  | Ok src =>
      inherited src = false
      /\ predicate statement <> js "code"
      /\ inherited (predicate statement) = false
  | Throw _ => True
  end.

(** A statement whose code is no name of [Object.prototype] and whose
    predicate has no list: the predicate is [code] or a name of
    [Object.prototype]. *)
Definition no_list (statement : triple) : Prop :=
  exists src,
    idParser (subject statement) = Ok src
    /\ inherited src = false
    /\ (predicate statement = js "code" \/ inherited (predicate statement) = true).

(** A statement whose code is a name of [Object.prototype]. *)
Definition inherited_code (statement : triple) : Prop :=
  exists src, idParser (subject statement) = Ok src /\ inherited src = true.
End Statements.

(** The keys of the records are no names of [Object.prototype], and every
    record is under its code. *)
Definition plain_records (records : gmap jsstring node) : Prop :=
  forall src record,
    records !! src = Some record ->
    code record = src
    /\ inherited src = false
    /\ forall predicate_, is_Some (predicates record !! predicate_) ->
                          inherited predicate_ = false.

(** The objects recorded under a code and a predicate. *)
Definition recorded (records : gmap jsstring node) (src predicate_ : jsstring)
    : list jsstring :=
  default [] (records !! src ≫= fun record => predicates record !! predicate_).

(** The target of [remove] and the guard of its update: the identifier
    [where['@rid']] when the [where] object gives one, with the rest of the
    object as the guard; otherwise the identifier of the one record that the
    selection with [where] matches, the guard being the [where] object after
    the selection with the [createdAt] of that record. *)
Definition remove_target (db : engine) (records : store) (model : ClassModel.t)
    (where_ : object) (target : value) (guard : object) : Prop :=
  (exists rid,
     obj_get (js "@rid") where_ = Some rid /\ is_undefined rid = false
     /\ target = rid /\ guard = obj_delete (js "@rid") where_)
  \/ ((obj_get (js "@rid") where_ = None \/ obj_get (js "@rid") where_ = Some VUndefined)
      /\ exists rec,
           select db records
             (mkSelect model (Some (input_of where_)) (Some 1%Z) None None None None)
           = Ok [rec]
           /\ target = default VUndefined (obj_get (js "@rid") rec)
           /\ guard
              = obj_delete (js "@rid")
                  (obj_set (js "createdAt")
                     (default VUndefined (obj_get (js "createdAt") rec))
                     (where_after_select model where_))).

(** The statement that [SelectionQuery.toString] emits for the condition
    under a name, from a parameter index: the statement of the condition,
    its text in parentheses for a clause of more than one item. *)
Definition condition_statement
    (properties : list (jsstring * option ClassModel.PropertyDefn))
    (attr : jsstring) (condition : SelectionQuery.condition) (index : nat)
    : result statement :=
  let '(clause_of, grouped) := (condition_clauses properties (attr, condition)).2 in
  clause ← clause_of index;
  Ok (mkStatement (if grouped then parenthesize (query clause) else query clause)
        (params clause)).

(** The statements emitted for a list of condition names, one after the
    other: each is the statement of the condition under its name, from the
    parameter index that follows the parameters of the statements before
    it. *)
Inductive emitted (properties : list (jsstring * option ClassModel.PropertyDefn))
    (conditions : list (jsstring * SelectionQuery.condition))
    : list jsstring -> nat -> list statement -> Prop :=
  | emitted_nil index : emitted properties conditions [] index []
  | emitted_cons attr names index condition clause clauses :
      obj_get attr conditions = Some condition ->
      condition_statement properties attr condition index = Ok clause ->
      emitted properties conditions names (index + size (params clause)) clauses ->
      emitted properties conditions (attr :: names) index (clause :: clauses).

(** The value that a value holds under ['@rid'], directly or through
    objects nested under ['@rid']; at depth zero, the value itself. *)
Inductive rid_at : value -> value -> Prop :=
  | rid_here v : rid_at v v
  | rid_below fields v inner :
      obj_get (js "@rid") fields = Some v -> rid_at v inner -> rid_at (VObject fields) inner.

(** A row whose class and property are no names of [Object.prototype]. *)
Definition plain_row (row : object) : Prop :=
  inherited (row_key row (js "class")) = false
  /\ inherited (row_key row (js "property")) = false.

(** The rows filed under a class and a property. *)
Definition filed (vocabulary : gmap jsstring (gmap jsstring (list object)))
    (className property : jsstring) : list object :=
  default [] (vocabulary !! className ≫= (.!! property)).

(** The keys of a vocabulary are no names of [Object.prototype]. *)
Definition plain_vocabulary (vocabulary : gmap jsstring (gmap jsstring (list object)))
    : Prop :=
  forall className byProperty,
    vocabulary !! className = Some byProperty ->
    inherited className = false
    /\ forall property, is_Some (byProperty !! property) -> inherited property = false.

(** The entry of a header takes the run beyond the plain objects: its
    column is read as a member of [Object.prototype], or it replaces the
    prototype of the result. *)
Definition field_beyond (row : object) (entry : jsstring * jsstring) : bool :=
  match obj_get entry.2 row with
  | Some value => bool_decide (entry.1 = js "__proto__") && negb (is_primitive value)
  | None => inherited entry.2
  end.

(** A query string with a key that is an array index. *)
Definition example_indexed_queryParams : list (jsstring * param) :=
  [(js "name", PValue (Some (QString (js "kras"))));
   (js "biotype", PValue (Some (QString (js "gene"))));
   (js "1", PValue (Some (QString (js "x"))));
   (js "or", PValue (Some (QString (js "name"))))].

(** * Properties *)

(** ** The value parser *)

Lemma split_on_nonempty sep s : split_on sep s <> [].
Proof.
  destruct s as [|c s]; simpl; [done|].
  destruct (N.eqb c sep); [done|].
  by destruct (split_on sep s).
Qed.

Section ParseValueFacts.
Context {Attr : Type} (attr : Attr).

(** The three outcomes of one iteration of the loop. *)
Lemma parseSubValue_outcome subValue :
  (exists comp, parseSubValue attr subValue = Ok comp)
  \/ parseSubValue attr subValue = Throw (AttributeError WordTooShortAfterSplit)
  \/ parseSubValue attr subValue = Throw (AttributeError WordTooShort)
  \/ parseSubValue attr subValue = Throw URIError.
Proof.
  unfold parseSubValue, decodeURIComponent.
  destruct (uri_items subValue) as [items|]; [|by auto].
  destruct (utf8_items items) as [decoded|]; [|by auto].
  cbn [mbind result_bind].
  repeat match goal with
         | |- context [if ?b then _ else _] => destruct b
         end; eauto.
Qed.

(** The loop with its accumulator is a left-to-right traversal. *)
Lemma parseSubValues_mapM subValues comparisons :
  parseSubValues attr subValues comparisons
  = (parsed ← mapM (parseSubValue attr) subValues; Ok (comparisons ++ parsed)).
Proof.
  revert comparisons.
  induction subValues as [|subValue rest IH]; intros comparisons; simpl.
  - by rewrite app_nil_r.
  - destruct (parseSubValue attr subValue) as [comp|e]; simpl; [|done].
    rewrite IH.
    destruct (mapM (parseSubValue attr) rest) as [parsed|e]; simpl; [|done].
    by rewrite <- app_assoc.
Qed.

Lemma mapM_result_length {A B} (f : A -> result B) l k :
  mapM f l = Ok k -> length k = length l.
Proof.
  revert k.
  induction l as [|x l IH]; intros k; simpl.
  - by intros [= <-].
  - destruct (f x); simpl; [|done].
    destruct (mapM f l) as [k'|]; simpl; [|done].
    intros [= <-]. simpl. by rewrite (IH k').
Qed.

(** What one iteration appends: no search word is shorter than the
    minimum, and the text ["null"] has become the null value. *)
Lemma parseSubValue_words subValue :
  match parseSubValue attr subValue with
  | Ok comp => search_words_indexable comp = true /\ not_null_text comp = true
  | Throw _ => True
  end.
Proof.
  unfold parseSubValue.
  destruct (decodeURIComponent subValue) as [decoded|]; [|done].
  cbn [mbind result_bind].
  set (text := if startsWith 33 decoded then slice1 decoded else decoded).
  destruct (startsWith 126 text).
  - destruct (bool_decide (1 < length (split_ws (slice1 text)))%nat).
    + destruct (existsb _ (split_ws (slice1 text))) eqn:Hshort; [done|].
      split; [|done]. cbn [search_words_indexable].
      rewrite forallb_forall. intros comp Hcomp.
      apply list_elem_of_In, list_elem_of_fmap in Hcomp as (word & -> & Hword).
      cbn [search_words_indexable]. apply bool_decide_eq_true_2.
      assert (bool_decide (length word < MIN_WORD_SIZE)%nat = false) as Hlong.
      { destruct (bool_decide (length word < MIN_WORD_SIZE)%nat) eqn:E; [|done].
        assert (existsb (fun word => bool_decide (length word < MIN_WORD_SIZE)%nat)
                  (split_ws (slice1 text)) = true) as Hex; [|by rewrite Hex in Hshort].
        apply existsb_exists. exists word. split; [by apply list_elem_of_In|done]. }
      apply bool_decide_eq_false_1 in Hlong. lia.
    + destruct (bool_decide_reflect (length (slice1 text) < MIN_WORD_SIZE)%nat)
        as [Hshort|Hlong]; [done|].
      unfold jsstring_eqb. cbn [search_words_indexable not_null_text].
      destruct (bool_decide_reflect (slice1 text = js "null")) as [Heq|Hne]; [done|].
      split; [apply bool_decide_eq_true_2; lia|].
      unfold jsstring_eqb. by rewrite bool_decide_false.
  - unfold jsstring_eqb. cbn [search_words_indexable not_null_text].
    destruct (bool_decide_reflect (text = js "null")) as [Heq|Hne]; [done|].
    split; [done|]. unfold jsstring_eqb. by rewrite bool_decide_false.
Qed.

End ParseValueFacts.

(** C5: [parseValue] maps the value syntax as follows: ["!red"] is one
    negated equality comparison to ["red"]; ["red|blue"] is an OR clause of
    two equality comparisons; ["~ab"], whose token is shorter than four
    characters, raises an AttributeError, and no sub-value is parsed to a
    text-contains comparison with a shorter word; ["~abcd efgh"] is an AND
    clause of two text-contains comparisons; the sub-value ["null"] becomes
    the null value, never the text; the parsed sub-values, taken from left
    to right, are returned unwrapped when there is exactly one and wrapped
    in an OR clause when there are more; an array raises an
    AttributeError. *)
Theorem parseValue_value_syntax {Attr : Type} (attr : Attr) :
  parseValue attr (QString (js "!red"))
    = Ok (ParsedComparison attr (Some (js "red")) None true)
  /\ parseValue attr (QString (js "red|blue"))
    = Ok (ParsedClause OR [ParsedComparison attr (Some (js "red")) None false;
                           ParsedComparison attr (Some (js "blue")) None false])
  /\ parseValue attr (QString (js "~ab")) = Throw (AttributeError WordTooShort)
  /\ parseValue attr (QString (js "~abcd efgh"))
    = Ok (ParsedClause AND
            [ParsedComparison attr (Some (js "abcd")) (Some CONTAINSTEXT) false;
             ParsedComparison attr (Some (js "efgh")) (Some CONTAINSTEXT) false])
  /\ parseValue attr (QString (js "null")) = Ok (ParsedComparison attr None None false)
  /\ parseValue attr (QString (js "red|!null"))
    = Ok (ParsedClause OR [ParsedComparison attr (Some (js "red")) None false;
                           ParsedComparison attr None None true])
  /\ (forall subValue,
        match parseSubValue attr subValue with
        | Ok comp => search_words_indexable comp = true /\ not_null_text comp = true
        | Throw _ => True
        end)
  /\ (forall s,
        parseValue attr (QString s)
        = (comparisons ← mapM (parseSubValue attr) (split_on 124 s);
           match comparisons with
           | [comp] => Ok comp
           | _ => Ok (ParsedClause OR comparisons)
           end))
  /\ (forall items,
        parseValue attr (QArray items) = Throw (AttributeError SpecifiedMoreThanOnce)).
Proof.
  do 6 (split; [vm_compute; reflexivity|]).
  split; [apply parseSubValue_words|].
  split; [|reflexivity].
  intros s. unfold parseValue.
  rewrite parseSubValues_mapM.
  destruct (mapM (parseSubValue attr) (split_on 124 s)) as [parsed|e] eqn:E; simpl; [|done].
  apply mapM_result_length in E.
  destruct parsed as [|comp [|comp' parsed]]; [|done..].
  pose proof (split_on_nonempty 124 s).
  by destruct (split_on 124 s).
Qed.

(** The claim C10 as it is stated fails: the sub-value ["%"] makes
    [decodeURIComponent] raise a URIError, which is neither an
    AttributeError nor a comparison appended. *)
Lemma parseValue_iteration_counterexample :
  ~ (forall s subValue,
       subValue ∈ split_on 124 s ->
       (exists msg, parseSubValue tt subValue = Throw (AttributeError msg))
       \/ (exists comp, parseSubValue tt subValue = Ok comp)).
Proof.
  intros H.
  destruct (H (js "%") (js "%")) as [[msg E]|[comp E]].
  - vm_compute. apply list_elem_of_here.
  - vm_compute in E. discriminate E.
  - vm_compute in E. discriminate E.
Qed.

(** C10 (amended): for every string input, splitting on ['|'] yields at
    least one sub-value, and every iteration of the loop either appends one
    comparison or raises: an AttributeError for a short search word, or the
    URIError of [decodeURIComponent]. So the branch "Cannot define a
    comparison with no values" is unreachable: [parseValue] never raises
    that error on a string. *)
Theorem parseValue_no_values_unreachable {Attr : Type} (attr : Attr) (s : jsstring) :
  (0 < length (split_on 124 s))%nat
  /\ (forall subValue,
        (exists comp,
            parseSubValue attr subValue = Ok comp
            /\ forall rest comparisons,
                 parseSubValues attr (subValue :: rest) comparisons
                 = parseSubValues attr rest (comparisons ++ [comp]))
        \/ parseSubValue attr subValue = Throw (AttributeError WordTooShortAfterSplit)
        \/ parseSubValue attr subValue = Throw (AttributeError WordTooShort)
        \/ parseSubValue attr subValue = Throw URIError)
  /\ parseValue attr (QString s) <> Throw (AttributeError NoValues).
Proof.
  split; [|split].
  - pose proof (split_on_nonempty 124 s).
    destruct (split_on 124 s); simpl; [done|lia].
  - intros subValue.
    destruct (parseSubValue_outcome attr subValue) as [[comp E]|H]; [|by auto].
    left. exists comp. split; [done|].
    intros rest comparisons. simpl. by rewrite E.
  - unfold parseValue. rewrite parseSubValues_mapM.
    pose proof (split_on_nonempty 124 s) as Hne.
    destruct (mapM (parseSubValue attr) (split_on 124 s)) as [parsed|e] eqn:Em; simpl.
    + apply mapM_result_length in Em.
      destruct parsed as [|comp [|comp' parsed]]; [|done..].
      by destruct (split_on 124 s).
    + intros [= ->].
      revert Em.
      generalize (split_on 124 s). intros l.
      induction l as [|x l IH]; simpl; [done|].
      destruct (parseSubValue_outcome attr x) as [[comp -> ] | [ -> | [ -> | -> ]]]; simpl; try done.
      destruct (mapM (parseSubValue attr) l); simpl; [done|].
      intros [= ->]. by apply IH.
Qed.

(** ** Comparisons and clauses *)

Lemma toString_singleton type child name paramIndex listableType :
  toString (Clause type [child]) name paramIndex listableType
  = mkStatement
      (if is_Clause_longer_than_1 child
       then parenthesize (query (toString child name paramIndex listableType))
       else query (toString child name paramIndex listableType))
      (params (toString child name paramIndex listableType)).
Proof.
  cbn [toString].
  rewrite map_size_empty, Nat.add_0_r, (right_id_L ∅ (∪)).
  by destruct (is_Clause_longer_than_1 child).
Qed.

(** The claim C9 as it is stated fails for a child that is a clause of two
    comparisons: the enclosing clause adds the grouping parentheses. *)
Lemma Clause_single_child_counterexample :
  query (toString (Clause (js "OR") [two_comparisons]) (js "x") 0 false)
    = js "(x = :param0 AND x = :param1)"
  /\ query (toString two_comparisons (js "x") 0 false) = js "x = :param0 AND x = :param1"
  /\ toString (Clause (js "OR") [two_comparisons]) (js "x") 0 false
     <> toString two_comparisons (js "x") 0 false.
Proof.
  split; [|split]; [vm_compute; reflexivity..|].
  intros E. apply (f_equal query) in E. vm_compute in E. discriminate E.
Qed.

(** C9 (amended): for every attribute name, parameter index and
    container-type flag, a clause with exactly one child has the parameter
    map of that child; its text is the text of the child when the child is
    a comparison or a clause of at most one item, and the text of the child
    in grouping parentheses when the child is a clause of more than one
    item. These are the parentheses that the child gets itself wherever it
    stands as a condition or as an item of a clause, so that in such a
    place the clause and its only child are written the same. *)
Theorem Clause_single_child type child name paramIndex listableType :
  let outer := toString (Clause type [child]) name paramIndex listableType in
  let inner := toString child name paramIndex listableType in
  let in_place (c : cond) (st : statement) :=
    if is_Clause_longer_than_1 c then parenthesize (query st) else query st in
  params outer = params inner
  /\ query outer
     = (if is_Clause_longer_than_1 child then parenthesize (query inner) else query inner)
  /\ (is_Clause_longer_than_1 child = false <-> outer = inner)
  /\ in_place (Clause type [child]) outer = in_place child inner.
Proof.
  cbn zeta. rewrite toString_singleton. cbn [query params is_Clause_longer_than_1 length].
  rewrite bool_decide_false by lia.
  repeat split; try done.
  - intros ->. by destruct (toString child name paramIndex listableType).
  - intros E. destruct (is_Clause_longer_than_1 child); [|done].
    apply (f_equal (fun st => length (query st))) in E. cbn [query] in E.
    unfold parenthesize in E. rewrite !length_app in E. simpl in E. lia.
Qed.

(** ** Traversal directives *)

Lemma Follow_parse_without_fuzzyMatch ancestors descendants activeOnly :
  Follow.parse (Follow.mkDirectives ancestors descendants None activeOnly)
  = Ok (directed_hops ancestors descendants (default true activeOnly)).
Proof. by destruct ancestors, descendants. Qed.

(** The claim C8 as it is stated fails for a [fuzzyMatch] of zero, which is
    not truthy: no hop is made. *)
Lemma Follow_parse_fuzzyMatch_counterexample :
  Follow.parse (Follow.mkDirectives None None (Some 0%Z) None) = Ok []
  /\ Follow.parse (Follow.mkDirectives None None (Some 0%Z) None)
     <> Ok [[fuzzy_hop 0 true]].
Proof. split; [reflexivity|discriminate]. Qed.

(** C8 (amended): for every traversal-directive input whose [fuzzyMatch] is
    set to a depth other than zero: when there are no ancestor or descendant
    hop sequences, [Follow.parse] returns a single sequence with only the
    bidirectional fuzzy hop bounded by that depth; when there are such
    sequences, the fuzzy hop is put before and after each of them. *)
Theorem Follow_parse_fuzzyMatch ancestors descendants depth activeOnly :
  depth <> 0%Z ->
  let fuzzy := fuzzy_hop depth (default true activeOnly) in
  let hops := directed_hops ancestors descendants (default true activeOnly) in
  Follow.parse (Follow.mkDirectives ancestors descendants None activeOnly) = Ok hops
  /\ (ancestors = None /\ descendants = None <-> hops = [])
  /\ Follow.parse (Follow.mkDirectives ancestors descendants (Some depth) activeOnly)
     = Ok (match hops with
           | [] => [[fuzzy]]
           | _ => (fun sequence => [fuzzy] ++ sequence ++ [fuzzy]) <$> hops
           end).
Proof.
  intros Hdepth. cbn zeta.
  split; [apply Follow_parse_without_fuzzyMatch|].
  split.
  - destruct ancestors, descendants; split; try done; by intros [??].
  - apply Z.eqb_neq in Hdepth.
    destruct ancestors, descendants; cbn; rewrite Hdepth; reflexivity.
Qed.

Lemma Follow_parse_fuzzyMatch_witness :
  (3 <> 0)%Z
  /\ Follow.parse (Follow.mkDirectives (Some [js "SubClassOf"]) None (Some 3%Z) None)
     = Ok [[fuzzy_hop 3 true;
            Follow.mk [js "SubClassOf"] (js "in") None true;
            fuzzy_hop 3 true]].
Proof.
  split; [lia|].
  apply (Follow_parse_fuzzyMatch (Some [js "SubClassOf"]) None 3 None). lia.
Defined.

(** ** The access gate *)

Section AccessGate.
Local Open Scope Z_scope.

Lemma nonzero_bit z : z <> 0 -> exists i, 0 <= i /\ Z.testbit z i = true.
Proof.
  intros Hz. destruct (Z.lt_trichotomy z 0) as [Hneg|[->|Hpos]]; [|done|].
  - exists (Z.succ (Z.log2 (Z.pred (- z)))).
    pose proof (Z.log2_nonneg (Z.pred (- z))). split; [lia|].
    apply Z.bits_above_log2_neg; lia.
  - exists (Z.log2 z). split; [apply Z.log2_nonneg|]. by apply Z.bit_log2.
Qed.

Lemma ToInt32_low z i : 0 <= i < 32 -> Z.testbit (ToInt32 z) i = Z.testbit z i.
Proof.
  intros Hi.
  rewrite <- (Z.mod_pow2_bits_low (ToInt32 z) 32 i), <- (Z.mod_pow2_bits_low z 32 i) by lia.
  f_equal. unfold ToInt32.
  rewrite Zminus_mod_idemp_l. f_equal. lia.
Qed.

Lemma ToInt32_range z : - 2 ^ 31 <= ToInt32 z < 2 ^ 31.
Proof.
  unfold ToInt32. pose proof (Z.mod_pos_bound (z + 2 ^ 31) (2 ^ 32)). lia.
Qed.

Lemma sign_bit z i : - 2 ^ 31 <= z < 2 ^ 31 -> 31 <= i -> Z.testbit z i = Z.testbit z 31.
Proof.
  intros Hz Hi. destruct (Z.lt_ge_cases z 0) as [Hneg|Hpos].
  - rewrite !Z.bits_above_log2_neg; try done.
    + destruct (Z.eq_dec (Z.pred (- z)) 0) as [->|Hne]; [done|].
      apply Z.log2_lt_pow2; lia.
    + destruct (Z.eq_dec (Z.pred (- z)) 0) as [->|Hne]; [simpl; lia|].
      assert (Z.log2 (Z.pred (- z)) < 31); [apply Z.log2_lt_pow2; lia|lia].
  - destruct (Z.eq_dec z 0) as [->|Hne]; [by rewrite !Z.bits_0|].
    rewrite !Z.bits_above_log2; try done.
    + apply Z.log2_lt_pow2; lia.
    + assert (Z.log2 z < 31); [apply Z.log2_lt_pow2; lia|lia].
Qed.

(** The operator [&] gives a number other than zero exactly when the
    operands have one of the 32 low bits in common. *)
Lemma bitwise_and_low a b :
  bitwise_and a b <> 0
  <-> exists i, 0 <= i < 32 /\ Z.testbit a i = true /\ Z.testbit b i = true.
Proof.
  unfold bitwise_and. split.
  - intros (i & Hi & Hbit)%nonzero_bit.
    rewrite Z.land_spec, andb_true_iff in Hbit. destruct Hbit as [Ha Hb].
    destruct (Z.lt_ge_cases i 32) as [Hlow|Hhigh].
    + exists i. rewrite !ToInt32_low in * by lia. split; [lia|done].
    + exists 31.
      rewrite (sign_bit (ToInt32 a) i), ToInt32_low in Ha
        by (try apply ToInt32_range; lia).
      rewrite (sign_bit (ToInt32 b) i), ToInt32_low in Hb
        by (try apply ToInt32_range; lia).
      split; [lia|done].
  - intros (i & Hi & Ha & Hb) Hzero.
    apply (f_equal (fun z => Z.testbit z i)) in Hzero.
    rewrite Z.land_spec, !ToInt32_low, Ha, Hb, Z.bits_0 in Hzero by done. done.
Qed.

Lemma fits_32_bits_high z i :
  fits_32_bits z -> 32 <= i -> Z.testbit z i = true -> Z.testbit z 31 = true.
Proof.
  unfold fits_32_bits. intros Hz Hi Hbit.
  destruct (Z.lt_ge_cases z 0) as [Hneg|Hpos].
  - by rewrite <- (sign_bit z i) by lia.
  - destruct (Z.eq_dec z 0) as [->|Hne]; [by rewrite Z.bits_0 in Hbit|].
    rewrite Z.bits_above_log2 in Hbit; [done|lia|].
    assert (Z.log2 z < 32); [apply Z.log2_lt_pow2; lia|lia].
Qed.

(** For bitmasks that fit 32 bits, that is the intersection of the
    bitmasks. *)
Lemma bitwise_and_fits a b :
  fits_32_bits a -> fits_32_bits b ->
  (bitwise_and a b <> 0 <-> Z.land a b <> 0).
Proof.
  intros Ha Hb. rewrite bitwise_and_low. split.
  - intros (i & Hi & Hbita & Hbitb) Hzero.
    apply (f_equal (fun z => Z.testbit z i)) in Hzero.
    rewrite Z.land_spec, Hbita, Hbitb, Z.bits_0 in Hzero. done.
  - intros (i & Hi & Hbit)%nonzero_bit.
    rewrite Z.land_spec, andb_true_iff in Hbit. destruct Hbit as [Hbita Hbitb].
    destruct (Z.lt_ge_cases i 32) as [Hlow|Hhigh].
    + exists i. split; [lia|done].
    + exists 31. split; [lia|]. split; by eapply fits_32_bits_high.
Qed.

Lemma checkAccess_loop (table : gmap jsstring Z) required names :
  (fix loop (names : list jsstring) : bool :=
     match names with
     | [] => false
     | name :: rest =>
         match table !! name with
         | Some inherited =>
             if negb (bitwise_and required inherited =? 0)%Z then true else loop rest
         | None => loop rest
         end
     end) names = true
  <-> exists name mask,
        name ∈ names /\ table !! name = Some mask /\ bitwise_and required mask <> 0.
Proof.
  induction names as [|name rest IH].
  - split; [done|]. intros (name & mask & Hin & _). by apply elem_of_nil in Hin.
  - destruct (table !! name) as [mask|] eqn:E.
    + destruct (Z.eqb_spec (bitwise_and required mask) 0) as [Hz|Hz]; cbn [negb].
      * rewrite IH. split.
        -- intros (n & m & Hin & Hn). exists n, m. split; [by apply list_elem_of_further|done].
        -- intros (n & m & Hin & Hn & Hm). apply elem_of_cons in Hin as [->|Hin].
           ++ rewrite E in Hn. by injection Hn as <-.
           ++ by exists n, m.
      * split; [|done]. intros _. exists name, mask. split; [apply list_elem_of_here|done].
    + rewrite IH. split.
      * intros (n & m & Hin & Hn). exists n, m. split; [by apply list_elem_of_further|done].
      * intros (n & m & Hin & Hn & Hm). apply elem_of_cons in Hin as [->|Hin].
        -- by rewrite E in Hn.
        -- by exists n, m.
Qed.

(** What [checkAccess] computes, with the operator [&]. *)
Lemma checkAccess_bitwise_and user model required :
  checkAccess user model required = true
  <-> exists table name mask,
        permissions user = Some table
        /\ (name = ClassModel.name model \/ name ∈ ClassModel.inherits model)
        /\ table !! name = Some mask
        /\ bitwise_and required mask <> 0.
Proof.
  unfold checkAccess.
  destruct (permissions user) as [table|]; [|split; [done|by intros (? & ? & ? & ? & _)]].
  destruct (table !! ClassModel.name model) as [own|] eqn:E.
  - destruct (Z.eqb_spec (bitwise_and required own) 0) as [Hz|Hz]; cbn [negb].
    + rewrite checkAccess_loop. split.
      * intros (name & mask & Hin & Hmask & Hne). exists table, name, mask. auto.
      * intros (? & name & mask & [= <-] & [->|Hin] & Hmask & Hne).
        -- rewrite E in Hmask. by injection Hmask as <-.
        -- by exists name, mask.
    + split; [|done]. intros _. exists table, (ClassModel.name model), own. auto.
  - rewrite checkAccess_loop. split.
    + intros (name & mask & Hin & Hmask & Hne). exists table, name, mask. auto.
    + intros (? & name & mask & [= <-] & [->|Hin] & Hmask & Hne).
      * by rewrite E in Hmask.
      * by exists name, mask.
Qed.

(** C6 (amended): for every user, model and required permission bitmask,
    the bitmasks being 32-bit integers, [checkAccess] returns true if and
    only if the bitmask of the user for the name of the model, or the
    bitmask for some name in the inherited models of the model, has a
    non-empty bitwise intersection with the required bits. For any
    bitmasks it returns true exactly when such a bitmask has one of the 32
    low bits in common with the required bits: the operator [&] converts
    its operands to 32-bit integers. For a user without a permission table
    it returns false for any required bits. *)
Theorem checkAccess_iff user model required :
  (fits_32_bits required ->
   (forall table name mask,
      permissions user = Some table -> table !! name = Some mask -> fits_32_bits mask) ->
   (checkAccess user model required = true
    <-> exists table,
          permissions user = Some table
          /\ (intersects table required (ClassModel.name model)
              \/ exists name, name ∈ ClassModel.inherits model
                              /\ intersects table required name)))
  /\ (checkAccess user model required = true
      <-> exists table,
            permissions user = Some table
            /\ (intersects_low table required (ClassModel.name model)
                \/ exists name, name ∈ ClassModel.inherits model
                                /\ intersects_low table required name))
  /\ checkAccess (mkUser (user_rid user) None) model required = false.
Proof.
  split; [|split; [|reflexivity]].
  - intros Hrequired Hmasks. rewrite checkAccess_bitwise_and. split.
    + intros (table & name & mask & Htable & Hname & Hmask & Hne).
      apply (bitwise_and_fits required mask Hrequired (Hmasks _ _ _ Htable Hmask)) in Hne.
      exists table. split; [done|]. destruct Hname as [->|Hin].
      * left. by exists mask.
      * right. exists name. split; [done|]. by exists mask.
    + intros (table & Htable & [(mask & Hmask & Hne)|(name & Hin & mask & Hmask & Hne)]).
      * exists table, (ClassModel.name model), mask.
        split; [done|]. split; [by left|]. split; [done|].
        by apply (bitwise_and_fits required mask Hrequired (Hmasks _ _ _ Htable Hmask)).
      * exists table, name, mask.
        split; [done|]. split; [by right|]. split; [done|].
        by apply (bitwise_and_fits required mask Hrequired (Hmasks _ _ _ Htable Hmask)).
  - rewrite checkAccess_bitwise_and. split.
    + intros (table & name & mask & Htable & Hname & Hmask & Hne).
      apply bitwise_and_low in Hne as (i & Hi & Ha & Hb).
      exists table. split; [done|]. destruct Hname as [->|Hin].
      * left. by exists mask, i.
      * right. exists name. split; [done|]. by exists mask, i.
    + intros (table & Htable
              & [(mask & i & Hmask & Hi)|(name & Hin & mask & i & Hmask & Hi)]).
      * exists table, (ClassModel.name model), mask.
        rewrite bitwise_and_low. eauto 10.
      * exists table, name, mask. rewrite bitwise_and_low. eauto 10.
Qed.

Lemma checkAccess_iff_witness :
  checkAccess example_reader example_model 12 = true
  /\ exists table,
       permissions example_reader = Some table
       /\ (intersects table 12 (ClassModel.name example_model)
           \/ exists name, name ∈ ClassModel.inherits example_model
                           /\ intersects table 12 name).
Proof.
  split; [reflexivity|].
  apply (proj1 (checkAccess_iff example_reader example_model 12)).
  - unfold fits_32_bits. lia.
  - intros table name mask [= <-] Hmask.
    apply lookup_singleton_Some in Hmask as [_ <-]. unfold fits_32_bits. lia.
  - reflexivity.
Defined.

(** Two bitmasks whose only common bit is the bit 32 intersect, and
    [checkAccess] returns false. *)
Lemma checkAccess_iff_counterexample :
  checkAccess (mkUser (VRID (js "#0:3")) (Some {[js "Disease" := 2 ^ 32]})) example_model
    (2 ^ 32) = false
  /\ intersects {[js "Disease" := 2 ^ 32]} (2 ^ 32) (ClassModel.name example_model).
Proof.
  split; [vm_compute; reflexivity|].
  exists (2 ^ 32). split; [vm_compute; reflexivity|]. vm_compute. discriminate.
Qed.
End AccessGate.

(** ** Selection with a required number of records *)

(** C2: for every [select] whose query is compiled and executed: with
    [exactlyN] set, zero records and [exactlyN = 0] give the empty list
    without an error; zero records and another [exactlyN] (in particular
    [exactlyN > 0]) raise the not-found error; a non-zero number of records
    different from [exactlyN] raises the multiple-records error; otherwise
    the record list is returned. Without [exactlyN] whatever matched is
    returned. *)
Theorem select_exactlyN_contract db records opt compiled statement bound recordList :
  SelectionQuery.new (select_model opt) (default [] (select_where opt))
    (SelectionQuery.mkOptions (Some (default 0%Z (select_skip opt)))
       (Some (default true (select_activeOnly opt)))) = Ok compiled ->
  SelectionQuery.toString compiled 0 = Ok (mkStatement statement bound) ->
  execute db records statement bound (default QUERY_LIMIT (select_limit opt))
    (default (js "*:1") (select_fetchPlan opt)) = Ok recordList ->
  match select_exactlyN opt with
  | Some exactlyN =>
      (recordList = [] -> exactlyN = 0%Z -> select db records opt = Ok [])
      /\ (recordList = [] -> exactlyN <> 0%Z ->
          select db records opt = Throw NoRecordFoundError)
      /\ (recordList <> [] -> exactlyN <> Z.of_nat (length recordList) ->
          select db records opt = Throw MultipleRecordsFoundError)
      /\ (recordList <> [] -> exactlyN = Z.of_nat (length recordList) ->
          select db records opt = Ok recordList)
  | None => select db records opt = Ok recordList
  end.
Proof.
  intros Hnew Hstring Hexecute.
  unfold select. rewrite Hnew. cbn [mbind result_bind].
  rewrite Hstring. cbn [mbind result_bind]. rewrite Hexecute. cbn [mbind result_bind].
  destruct (select_exactlyN opt) as [exactlyN|]; [|done].
  repeat split.
  - by intros -> ->.
  - intros -> Hne. apply Z.eqb_neq in Hne. by rewrite Hne.
  - intros Hrecords Hne.
    rewrite bool_decide_false by (by destruct recordList).
    apply Z.eqb_neq in Hne. by rewrite Hne.
  - intros Hrecords Heq.
    rewrite bool_decide_false by (by destruct recordList).
    apply Z.eqb_eq in Heq. by rewrite Heq.
Qed.

Lemma select_exactlyN_contract_witness :
  select (example_engine [example_record "#1:1" "a"; example_record "#1:2" "a"]) ∅
    (mkSelect example_model
       (Some [(js "name", SelectionQuery.Raw (VString (js "a")))])
       (Some 1%Z) None None None None)
  = Throw MultipleRecordsFoundError.
Proof.
  eapply (select_exactlyN_contract
            (example_engine [example_record "#1:1" "a"; example_record "#1:2" "a"]) ∅
            (mkSelect example_model
               (Some [(js "name", SelectionQuery.Raw (VString (js "a")))])
               (Some 1%Z) None None None None)).
  - vm_compute. reflexivity.
  - vm_compute. reflexivity.
  - reflexivity.
  - discriminate.
  - cbn. lia.
Defined.

(** ** Objects *)

(** The comparison of two literal keys is computed. *)
Ltac decide_keys :=
  repeat match goal with
         | |- context [bool_decide (js ?a = js ?b)] =>
             let r := eval vm_compute in (bool_decide (js a = js b)) in
             replace (bool_decide (js a = js b)) with r by (vm_compute; reflexivity);
             cbv iota
         end.

Section ObjectFacts.
Context {V : Type}.
Implicit Types (obj : list (jsstring * V)) (key : jsstring).

Lemma obj_get_set obj key key' v :
  obj_get key (obj_set key' v obj)
  = if bool_decide (key' = key) then Some v else obj_get key obj.
Proof.
  induction obj as [|[k w] obj IH]; simpl.
  - done.
  - destruct (bool_decide_reflect (k = key')) as [->|Hne]; simpl.
    + by destruct (bool_decide (key' = key)).
    + rewrite IH. destruct (bool_decide_reflect (k = key)) as [->|Hne'].
      * by rewrite bool_decide_false by done.
      * done.
Qed.

Lemma obj_get_set_eq obj key v : obj_get key (obj_set key v obj) = Some v.
Proof. by rewrite obj_get_set, bool_decide_true. Qed.

Lemma obj_get_set_ne obj key key' v :
  key' <> key -> obj_get key (obj_set key' v obj) = obj_get key obj.
Proof. intros. by rewrite obj_get_set, bool_decide_false. Qed.

Lemma obj_get_delete obj key key' :
  obj_get key (obj_delete key' obj)
  = if bool_decide (key' = key) then None else obj_get key obj.
Proof.
  unfold obj_delete.
  induction obj as [|[k w] obj IH]; simpl.
  - by destruct (bool_decide (key' = key)).
  - rewrite filter_cons. simpl.
    destruct (decide (k <> key')) as [Hne|Heq]; simpl.
    + rewrite IH. destruct (bool_decide_reflect (k = key)) as [->|Hne'].
      * by rewrite bool_decide_false by done.
      * done.
    + apply dec_stable in Heq as ->. rewrite IH.
      by destruct (bool_decide (key' = key)).
Qed.

Lemma obj_get_assign obj source key :
  obj_get key (obj_assign obj source)
  = match obj_get key (reverse source) with
    | Some v => Some v
    | None => obj_get key obj
    end.
Proof.
  unfold obj_assign. revert obj.
  induction source as [|[k v] source IH] using rev_ind; intros obj.
  - done.
  - rewrite foldl_app, reverse_app. simpl.
    rewrite obj_get_set, IH.
    by destruct (bool_decide (k = key)).
Qed.

End ObjectFacts.

(** ** Soft deletion *)

(** The record that [remove] leaves in place of [record]. *)
Lemma commit_remove_transaction db records rid user where_ now :
  commit db records (remove_transaction rid user where_ now)
  = match records !! text_of rid with
    | Some record =>
        if matches db where_ record then
          let removed :=
            obj_set (js "deletedBy") (VRID (text_of (user_rid user)))
              (obj_set (js "deletedAt") (VNumber now) record) in
          Ok (<[text_of rid := removed]> records, Some removed)
        else Throw transaction_failure
    | None => Throw transaction_failure
    end.
Proof.
  unfold commit, remove_transaction. cbn [lets returned run_steps run_step].
  destruct (records !! text_of rid) as [record|] eqn:E; [|done].
  destruct (matches db where_ record); [|done].
  repeat (simpl; decide_keys).
  by rewrite lookup_insert_eq.
Qed.

Lemma select_exactly_one db records model where_ recordList :
  select db records (mkSelect model where_ (Some 1%Z) None None None None) = Ok recordList ->
  exists rec, recordList = [rec].
Proof.
  unfold select. cbn [select_model select_where select_exactlyN select_fetchPlan
                        select_limit select_skip select_activeOnly].
  destruct (SelectionQuery.new _ _ _) as [compiled|]; [|done]. cbn [mbind result_bind].
  destruct (SelectionQuery.toString _ _) as [[statement bound]|]; [|done].
  cbn [mbind result_bind].
  destruct (execute _ _ _ _ _ _) as [found|]; [|done]. cbn [mbind result_bind].
  destruct (bool_decide_reflect (length found = 0%nat)) as [Hnone|Hsome]; [done|].
  destruct (Z.eqb_spec 1 (Z.of_nat (length found))) as [Hone|Hmore]; [|done].
  intros [= <-]. destruct found as [|rec [|rec' rest]]; [done| |simpl in Hone; lia].
  by exists rec.
Qed.

Lemma select_one_selected db records model where_ rec :
  select_one db records model where_ = Ok rec
  <-> select db records
        (mkSelect model (Some (input_of where_)) (Some 1%Z) None None None None)
      = Ok [rec].
Proof.
  unfold select_one.
  destruct (select _ _ _) as [recordList|] eqn:Hselect; cbn [mbind result_bind]; [|done].
  apply select_exactly_one in Hselect as [rec' ->]. split; by intros [= ->].
Qed.

Lemma is_undefined_VUndefined v : is_undefined v = true <-> v = VUndefined.
Proof. by destruct v. Qed.

(** C7: for every model, where-object and acting user, a [remove] that
    succeeds has committed a transaction on one record, its target: the
    record with the identifier given in the where-object or, without one,
    the one record that the selection with the where-object matches. The
    transaction only sets the deletion timestamp and the closer of the
    target: no record is created, every other record is as before, and
    every field of the target other than the two deletion fields is
    unchanged. [remove] does succeed when the store holds the target and the
    engine accepts the guard of the update for it. *)
Theorem remove_only_deletion_fields db records model user where_ now :
  (forall records' updated,
     remove db records model user where_ now = Ok (records', updated) ->
     exists target guard record removed,
       remove_target db records model where_ target guard
       /\ records !! text_of target = Some record
       /\ matches db guard record = true
       /\ records' = <[text_of target := removed]> records
       /\ updated = Some removed
       /\ obj_get (js "deletedAt") removed = Some (VNumber now)
       /\ obj_get (js "deletedBy") removed = Some (VRID (text_of (user_rid user)))
       /\ (forall key,
             key <> js "deletedAt" -> key <> js "deletedBy" ->
             obj_get key removed = obj_get key record)
       /\ dom records' = dom records
       /\ (forall other, other <> text_of target -> records' !! other = records !! other))
  /\ (forall target guard record,
        remove_target db records model where_ target guard ->
        records !! text_of target = Some record ->
        matches db guard record = true ->
        exists removed,
          remove db records model user where_ now
          = Ok (<[text_of target := removed]> records, Some removed)).
Proof.
  assert (forall target guard,
            remove_target db records model where_ target guard ->
            remove db records model user where_ now
            = match commit db records (remove_transaction target user guard now) with
              | Ok updated => Ok updated
              | Throw err => Throw (wrapIfTypeError err)
              end) as Htarget.
  { intros target guard [(rid & Hrid & Hdefined & -> & ->)|(Hrid & rec & Hselect & -> & ->)];
      unfold remove.
    - by rewrite Hrid, Hdefined.
    - apply select_one_selected in Hselect.
      destruct Hrid as [->| ->]; cbn [is_undefined]; by rewrite Hselect. }
  assert (forall records' updated,
            remove db records model user where_ now = Ok (records', updated) ->
            exists target guard, remove_target db records model where_ target guard)
    as Hreturns.
  { intros records' updated. unfold remove.
    destruct (obj_get (js "@rid") where_) as [rid|] eqn:Hrid.
    - destruct (is_undefined rid) eqn:Hdefined.
      + apply is_undefined_VUndefined in Hdefined as ->.
        destruct (select_one db records model where_) as [rec|] eqn:Hselect; [|done].
        intros _. eexists _, _. right. split; [by right|]. exists rec.
        split; [by apply select_one_selected|done].
      + intros _. eexists _, _. left. by exists rid.
    - destruct (select_one db records model where_) as [rec|] eqn:Hselect; [|done].
      intros _. eexists _, _. right. split; [by left|]. exists rec.
      split; [by apply select_one_selected|done]. }
  split.
  - intros records' updated Hremove.
    destruct (Hreturns _ _ Hremove) as (target & guard & Hwhich).
    rewrite (Htarget _ _ Hwhich), commit_remove_transaction in Hremove.
    destruct (records !! text_of target) as [record|] eqn:E; [|done].
    destruct (matches db guard record) eqn:Hmatch; [|done].
    cbn zeta in Hremove. injection Hremove as <- <-.
    exists target, guard, record. eexists.
    split; [done|]. split; [done|]. split; [done|]. split; [done|]. split; [done|].
    split; [|split; [by apply obj_get_set_eq|]].
    { rewrite obj_get_set_ne by (vm_compute; discriminate). by apply obj_get_set_eq. }
    split; [|split].
    + intros key H1 H2. by rewrite !obj_get_set_ne.
    + apply set_eq. intros other. rewrite !elem_of_dom.
      destruct (decide (other = text_of target)) as [->|Hne].
      * rewrite lookup_insert_eq, E. split; eauto.
      * by rewrite lookup_insert_ne.
    + intros other Hne. by rewrite lookup_insert_ne.
  - intros target guard record Hwhich Hrecord Hmatch.
    rewrite (Htarget _ _ Hwhich), commit_remove_transaction, Hrecord, Hmatch.
    by eexists.
Qed.

Lemma remove_only_deletion_fields_witness :
  exists removed,
    remove (example_engine [example_record "#1:1" "a"])
      {[js "#1:1" := example_record "#1:1" "a"]} example_model example_user
      [(js "name", VString (js "a"))] 20
    = Ok (<[js "#1:1" := removed]> {[js "#1:1" := example_record "#1:1" "a"]}, Some removed).
Proof.
  apply (proj2 (remove_only_deletion_fields (example_engine [example_record "#1:1" "a"])
                  {[js "#1:1" := example_record "#1:1" "a"]} example_model example_user
                  [(js "name", VString (js "a"))] 20)
           (VRID (js "#1:1"))
           (obj_delete (js "@rid")
              (obj_set (js "createdAt") (VNumber 10)
                 (where_after_select example_model [(js "name", VString (js "a"))])))
           (example_record "#1:1" "a")).
  - right. split; [by left|]. exists (example_record "#1:1" "a").
    split; [vm_compute; reflexivity|]. split; reflexivity.
  - reflexivity.
  - reflexivity.
Defined.

(** ** Copy-on-write update *)

Section ObjectOrder.
Context {V : Type}.
Implicit Types (obj : list (jsstring * V)) (key : jsstring).

Lemma obj_get_None obj key : obj_get key obj = None <-> key ∉ obj_keys obj.
Proof.
  unfold obj_keys. induction obj as [|[k w] obj IH]; simpl.
  - split; [intros _; apply not_elem_of_nil|done].
  - rewrite not_elem_of_cons. destruct (bool_decide_reflect (k = key)) as [->|Hne].
    + split; [done|]. by intros [? _].
    + rewrite IH. split; [by intros ?; split|by intros [_ ?]].
Qed.

Lemma obj_get_Some_elem obj key v : obj_get key obj = Some v -> (key, v) ∈ obj.
Proof.
  induction obj as [|[k w] obj IH]; simpl; [done|].
  destruct (bool_decide_reflect (k = key)) as [->|Hne].
  - intros [= ->]. apply list_elem_of_here.
  - intros H. apply list_elem_of_further. by apply IH.
Qed.

Lemma obj_get_elem obj key v :
  NoDup (obj_keys obj) -> (key, v) ∈ obj -> obj_get key obj = Some v.
Proof.
  unfold obj_keys. induction obj as [|[k w] obj IH]; simpl.
  - intros _ H. by apply elem_of_nil in H.
  - intros Hnd H. apply NoDup_cons in Hnd as [Hk Hnd].
    apply elem_of_cons in H as [[= -> ->]|H].
    + by rewrite bool_decide_true.
    + rewrite bool_decide_false; [by apply IH|].
      intros ->. apply Hk. apply list_elem_of_fmap. by exists (key, v).
Qed.

Lemma obj_get_reverse obj key :
  NoDup (obj_keys obj) -> obj_get key (reverse obj) = obj_get key obj.
Proof.
  intros Hnd.
  destruct (obj_get key obj) as [v|] eqn:E.
  - apply obj_get_elem.
    + unfold obj_keys. rewrite fmap_reverse. by rewrite reverse_Permutation.
    + apply elem_of_reverse. by apply obj_get_Some_elem.
  - apply obj_get_None. apply obj_get_None in E.
    unfold obj_keys in *. rewrite fmap_reverse. by rewrite elem_of_reverse.
Qed.

Lemma obj_keys_set obj key v :
  obj_keys (obj_set key v obj)
  = if bool_decide (key ∈ obj_keys obj) then obj_keys obj else obj_keys obj ++ [key].
Proof.
  unfold obj_keys. induction obj as [|[k w] obj IH].
  - done.
  - cbn [obj_set]. destruct (bool_decide_reflect (k = key)) as [->|Hne].
    + rewrite !fmap_cons. cbn [fst].
      by rewrite bool_decide_true by apply list_elem_of_here.
    + rewrite !fmap_cons, IH. cbn [fst].
      destruct (bool_decide_reflect (key ∈ obj.*1)) as [Hin|Hnin].
      * by rewrite bool_decide_true by (by apply list_elem_of_further).
      * rewrite bool_decide_false; [done|].
        rewrite not_elem_of_cons. by split.
Qed.

Lemma obj_keys_set_NoDup obj key v :
  NoDup (obj_keys obj) -> NoDup (obj_keys (obj_set key v obj)).
Proof.
  intros Hnd. rewrite obj_keys_set.
  destruct (bool_decide_reflect (key ∈ obj_keys obj)) as [Hin|Hnin]; [done|].
  apply NoDup_app. split; [done|]. split; [|apply NoDup_singleton].
  intros k Hk Hk'. apply list_elem_of_singleton in Hk' as ->. done.
Qed.

Lemma obj_keys_delete_NoDup obj key :
  NoDup (obj_keys obj) -> NoDup (obj_keys (obj_delete key obj)).
Proof.
  unfold obj_keys, obj_delete. induction obj as [|[k w] obj IH]; simpl; [done|].
  intros Hnd. apply NoDup_cons in Hnd as [Hk Hnd].
  rewrite filter_cons. simpl. destruct (decide (k <> key)); simpl; [|by apply IH].
  apply NoDup_cons. split; [|by apply IH].
  intros Hin. apply Hk. apply list_elem_of_fmap in Hin as ([k' w'] & -> & Hin).
  apply list_elem_of_filter in Hin as [_ Hin].
  apply list_elem_of_fmap. by exists (k', w').
Qed.

Lemma obj_keys_assign_NoDup obj source :
  NoDup (obj_keys obj) -> NoDup (obj_keys (obj_assign obj source)).
Proof.
  unfold obj_assign. revert obj.
  induction source as [|[k v] source IH]; intros obj Hnd; [done|].
  cbn [foldl]. apply IH. by apply obj_keys_set_NoDup.
Qed.

Lemma obj_get_assign_empty obj key :
  NoDup (obj_keys obj) -> obj_get key (obj_assign [] obj) = obj_get key obj.
Proof.
  intros Hnd. rewrite obj_get_assign, obj_get_reverse by done.
  by destruct (obj_get key obj).
Qed.

End ObjectOrder.

(** What the transaction of [update] does to the store: the created
    snapshot and the updated live record. *)
Lemma commit_update_transaction db records model user content original originalWhere
    now creator prior live :
  field_of (default VUndefined (obj_get (js "createdBy") original)) (js "@rid")
    = Ok creator ->
  prior_history original = Ok prior ->
  records !! text_of (default VUndefined (obj_get (js "@rid") original)) = Some live ->
  records !! allocate db records = None ->
  matches db originalWhere live = true ->
  let rid := text_of (default VUndefined (obj_get (js "@rid") original)) in
  let copy :=
    obj_set (js "deletedAt") (VNumber now)
      (obj_assign []
         (obj_delete (js "@version") (obj_delete (js "@rid") originalWhere))) in
  let stamped :=
    obj_set (js "deletedBy") (VRID (text_of (user_rid user)))
      (obj_set (js "createdBy") (VRID (text_of creator)) (obj_assign [] copy)) in
  let snapshot :=
    match prior with
    | Some history => obj_set (js "history") (VRID (text_of history)) stamped
    | None => stamped
    end in
  let updated :=
    obj_set (js "history") (VRID (allocate db records)) (obj_assign live content) in
  exists tx,
    update_transaction model user content original originalWhere now = Ok tx
    /\ commit db records tx
       = Ok (<[rid := updated]> (<[allocate db records := snapshot]> records),
             Some updated).
Proof.
  intros Hcreator Hprior Hlive Hfresh Hmatch. cbn zeta.
  unfold update_transaction. rewrite Hcreator, Hprior.
  cbn [mbind result_bind]. eexists. split; [reflexivity|].
  unfold commit. cbn [lets returned run_steps run_step].
  assert (text_of (default VUndefined (obj_get (js "@rid") original))
          <> allocate db records) as Hne.
  { intros E. rewrite E in Hlive. by rewrite Hlive in Hfresh. }
  destruct prior as [history|].
  - repeat (simpl; decide_keys).
    rewrite lookup_insert_ne by done. rewrite Hlive, Hmatch.
    repeat (simpl; decide_keys).
    by rewrite lookup_insert_eq.
  - repeat (simpl; decide_keys).
    rewrite lookup_insert_ne by done. rewrite Hlive, Hmatch.
    repeat (simpl; decide_keys).
    by rewrite lookup_insert_eq.
Qed.

(** C1: for every model, where-object, content and acting user such that
    exactly one live record matches (the selection with [exactlyN: 1]
    gives [original]), whose formatted attributes the store accepts as the
    guard of the write, [update] creates a new snapshot record: a copy of
    the formatted attributes with the deletion timestamp set to now, the
    closer set to the acting user, the creator of the original record and,
    when the original has a prior history entry, that entry as its history
    pointer. The live record keeps its identifier, receives the content
    fields and points to the new snapshot with its history pointer; its
    other fields are unchanged. *)
Theorem update_snapshot_and_live db records model user where_ content now
    original formatted creator prior live :
  select_one db records model where_ = Ok original ->
  ClassModel.formatRecord model original true false = Ok formatted ->
  NoDup (obj_keys formatted) ->
  NoDup (obj_keys content) ->
  field_of (default VUndefined (obj_get (js "createdBy") original)) (js "@rid")
    = Ok creator ->
  prior_history original = Ok prior ->
  records !! text_of (default VUndefined (obj_get (js "@rid") original)) = Some live ->
  records !! allocate db records = None ->
  matches db (obj_delete (js "history") (obj_delete (js "createdBy") formatted)) live
    = true ->
  exists snapshot updated,
    update db records model user where_ content now
    = Ok (<[text_of (default VUndefined (obj_get (js "@rid") original)) := updated]>
            (<[allocate db records := snapshot]> records),
          Some updated)
    /\ text_of (default VUndefined (obj_get (js "@rid") original)) <> allocate db records
    /\ (forall key,
          key ∉ [js "@rid"; js "@version"; js "createdBy"; js "history";
                 js "deletedAt"; js "deletedBy"] ->
          obj_get key snapshot = obj_get key formatted)
    /\ obj_get (js "deletedAt") snapshot = Some (VNumber now)
    /\ obj_get (js "deletedBy") snapshot = Some (VRID (text_of (user_rid user)))
    /\ obj_get (js "createdBy") snapshot = Some (VRID (text_of creator))
    /\ obj_get (js "history") snapshot = (fun entry => VRID (text_of entry)) <$> prior
    /\ obj_get (js "history") updated = Some (VRID (allocate db records))
    /\ (forall key v,
          key <> js "history" -> (key, v) ∈ content -> obj_get key updated = Some v)
    /\ (forall key,
          key <> js "history" -> key ∉ obj_keys content ->
          obj_get key updated = obj_get key live).
Proof.
  intros Hselect Hformat Hformatted Hcontent Hcreator Hprior Hlive Hfresh Hmatch.
  destruct (commit_update_transaction db records model user content original
              (obj_delete (js "history") (obj_delete (js "createdBy") formatted))
              now creator prior live Hcreator Hprior Hlive Hfresh Hmatch)
    as (tx & Htx & Hcommit).
  cbn zeta in Hcommit.
  eexists _, _. split.
  { unfold update. rewrite Hselect. cbn [mbind result_bind].
    rewrite Hformat. cbn [mbind result_bind].
    rewrite Htx. cbn [mbind result_bind]. rewrite Hcommit. reflexivity. }
  split.
  { intros E. rewrite E in Hlive. by rewrite Hlive in Hfresh. }
  set (copy := obj_set (js "deletedAt") (VNumber now) _).
  assert (NoDup (obj_keys (obj_delete (js "@version")
                             (obj_delete (js "@rid")
                                (obj_delete (js "history")
                                   (obj_delete (js "createdBy") formatted))))))
    as Homit by (by repeat apply obj_keys_delete_NoDup).
  assert (NoDup (obj_keys copy)) as Hcopy.
  { apply obj_keys_set_NoDup, obj_keys_assign_NoDup, NoDup_nil_2. }
  assert (forall key, obj_get key (obj_assign [] copy) = obj_get key copy) as Hassign.
  { intros key. by apply obj_get_assign_empty. }
  split.
  { intros key Hkey.
    repeat (apply not_elem_of_cons in Hkey as [? Hkey]).
    transitivity (obj_get key copy).
    - destruct prior; rewrite ?obj_get_set_ne by done; apply Hassign.
    - unfold copy. rewrite obj_get_set_ne by done.
      rewrite obj_get_assign_empty by done.
      rewrite !obj_get_delete. by rewrite !bool_decide_false by done. }
  split.
  { destruct prior;
      rewrite ?obj_get_set_ne by (intros E; vm_compute in E; discriminate E);
      rewrite Hassign; apply obj_get_set_eq. }
  split.
  { destruct prior;
      rewrite ?(obj_get_set_ne _ _ (js "history"))
        by (intros E; vm_compute in E; discriminate E);
      apply obj_get_set_eq. }
  split.
  { destruct prior;
      rewrite ?(obj_get_set_ne _ _ (js "history"))
        by (intros E; vm_compute in E; discriminate E);
      (rewrite obj_get_set_ne by (intros E; vm_compute in E; discriminate E));
      apply obj_get_set_eq. }
  split.
  { destruct prior as [entry|]; [apply obj_get_set_eq|].
    rewrite !obj_get_set_ne by (intros E; vm_compute in E; discriminate E).
    rewrite Hassign. unfold copy.
    rewrite obj_get_set_ne by (intros E; vm_compute in E; discriminate E).
    rewrite obj_get_assign_empty by done.
    rewrite !obj_get_delete. by decide_keys. }
  split; [apply obj_get_set_eq|].
  split.
  - intros key v Hkey Hin. rewrite obj_get_set_ne by done.
    rewrite obj_get_assign, obj_get_reverse by done.
    by rewrite (obj_get_elem content key v).
  - intros key Hkey Hnin. rewrite obj_get_set_ne by done.
    rewrite obj_get_assign, obj_get_reverse by done.
    apply obj_get_None in Hnin. by rewrite Hnin.
Qed.

Lemma update_snapshot_and_live_witness :
  exists snapshot updated,
    update (example_engine [example_record "#1:1" "old"]) example_store example_model
      example_user [(js "name", VString (js "old"))] [(js "name", VString (js "new"))] 20
    = Ok (<[js "#1:1" := updated]> (<[js "#1:99" := snapshot]> example_store),
          Some updated)
    /\ obj_get (js "name") snapshot = Some (VString (js "old"))
    /\ obj_get (js "deletedAt") snapshot = Some (VNumber 20)
    /\ obj_get (js "history") snapshot = Some (VRID (js "#1:0"))
    /\ obj_get (js "name") updated = Some (VString (js "new"))
    /\ obj_get (js "history") updated = Some (VRID (js "#1:99"))
    /\ obj_get (js "createdAt") updated = Some (VNumber 10).
Proof.
  edestruct (update_snapshot_and_live (example_engine [example_record "#1:1" "old"])
               example_store example_model example_user
               [(js "name", VString (js "old"))] [(js "name", VString (js "new"))] 20
               (example_record "#1:1" "old") (example_record "#1:1" "old")
               (VRID (js "#0:1")) (Some (VRID (js "#1:0")))
               [(js "name", VString (js "old")); (js "createdBy", VRID (js "#0:1"));
                (js "createdAt", VNumber 10); (js "history", VRID (js "#1:0"))])
    as (snapshot & updated & Hupdate & _ & Hcopy & HdeletedAt & _ & _ & Hhistory
        & Hlink & Hcontent & Hframe).
  - vm_compute. reflexivity.
  - reflexivity.
  - apply (bool_decide_unpack _). vm_compute. reflexivity.
  - apply (bool_decide_unpack _). vm_compute. reflexivity.
  - reflexivity.
  - reflexivity.
  - vm_compute. reflexivity.
  - vm_compute. reflexivity.
  - reflexivity.
  - exists snapshot, updated.
    split; [exact Hupdate|].
    split.
    { rewrite Hcopy; [vm_compute; reflexivity|].
      apply (bool_decide_unpack _). vm_compute. reflexivity. }
    split; [exact HdeletedAt|].
    split; [exact Hhistory|].
    split.
    { apply Hcontent; [intros E; vm_compute in E; discriminate E|].
      apply list_elem_of_here. }
    split; [exact Hlink|].
    rewrite Hframe; [vm_compute; reflexivity| |].
    + intros E; vm_compute in E; discriminate E.
    + apply (bool_decide_unpack _). vm_compute. reflexivity.
Defined.

(** ** The constructor of a selection query *)

Section Constructor.
Import SelectionQuery.

Lemma new_unfold model_name propertyNames model_properties model_cast inherits isEdge formatRecord inputQuery opt :
  let model := ClassModel.mk model_name propertyNames model_properties model_cast inherits isEdge formatRecord in
  new model inputQuery opt =
      let skip :=
        match opt_skip opt with
        | Some n => if (n =? 0)%Z then None else Some n
        | None => None
        end in
      let activeOnly := default true (opt_activeOnly opt) in
      let properties := (fun kv => (kv.1, Some kv.2)) <$> model_properties in
      let returnProperties :=
        match obj_get (js "returnProperties") inputQuery with
        | Some i => if truthy_input i then Some (names_of i) else None
        | None => None
        end in
      _ ← check_returnProperties model_name propertyNames (default [] returnProperties);
      let inputQuery :=
        if activeOnly && includes propertyNames (js "deletedAt")
        then obj_set (js "deletedAt") (Raw VNull) inputQuery
        else inputQuery in
      '(conditions, subqueries) ← split_entries propertyNames (linked_constructors model_properties) inputQuery [] [];
      follow ← Follow.parse (directives_of activeOnly inputQuery);
      '(conditions, properties, cast) ←
        resolve_subqueries activeOnly subqueries (conditions, properties, model_cast);
      conditions ← cast_conditions cast conditions;
      Ok (mk model conditions follow skip activeOnly properties returnProperties cast).
Proof. reflexivity. Qed.

Lemma getParameterPrefix_None param prefix :
  getParameterPrefix param = (prefix, None) -> prefix = param.
Proof.
  unfold getParameterPrefix.
  destruct (split_on 46 param) as [|p [|s [|]]]; try by intros [= <-].
  destruct (_ && _); by intros [= <-].
Qed.

Lemma linked_constructors_get key props :
  obj_get key (linked_constructors props)
  = match obj_get key props with
    | Some (ClassModel.mkProperty _ (Some linkedModel)) =>
        Some (Some (linkedModel, new linkedModel))
    | Some (ClassModel.mkProperty _ None) => Some None
    | None => None
    end.
Proof.
  induction props as [|[k [ty [lm|]]] props IH]; simpl; [done|..].
  - by destruct (bool_decide (k = key)).
  - by destruct (bool_decide (k = key)).
Qed.

Lemma split_entries_deletedAt propertyNames linked entries conditions subqueries
    conditions' subqueries' :
  split_entries propertyNames linked entries conditions subqueries
    = Ok (conditions', subqueries') ->
  (forall p, obj_get (js "deletedAt") linked <> Some (Some p)) ->
  js "deletedAt" ∉ obj_keys subqueries ->
  NoDup (obj_keys entries) ->
  (js "deletedAt" ∉ obj_keys subqueries')
  /\ ((js "deletedAt", Raw VNull) ∈ entries ->
      obj_get (js "deletedAt") conditions' = Some (Leaf is_null_comparison))
  /\ (js "deletedAt" ∉ obj_keys entries ->
      obj_get (js "deletedAt") conditions' = obj_get (js "deletedAt") conditions).
Proof.
  intros Hsplit Hlinked. revert conditions subqueries Hsplit.
  induction entries as [|[name value] rest IH]; intros conditions subqueries Hsplit Hsub Hnd.
  - simpl in Hsplit. injection Hsplit as <- <-.
    split; [done|]. split; [|done]. intros H. by apply elem_of_nil in H.
  - apply NoDup_cons in Hnd as [Hname Hnd]. fold (obj_keys rest) in Hname, Hnd.
    assert (forall conditions1 subqueries1,
      split_entries propertyNames linked rest conditions1 subqueries1
        = Ok (conditions', subqueries') ->
      js "deletedAt" ∉ obj_keys subqueries1 ->
      (name = js "deletedAt" -> value = Raw VNull ->
       obj_get (js "deletedAt") conditions1 = Some (Leaf is_null_comparison)) ->
      (name <> js "deletedAt" ->
       obj_get (js "deletedAt") conditions1 = obj_get (js "deletedAt") conditions) ->
      (js "deletedAt" ∉ obj_keys subqueries')
      /\ ((js "deletedAt", Raw VNull) ∈ (name, value) :: rest ->
          obj_get (js "deletedAt") conditions' = Some (Leaf is_null_comparison))
      /\ (js "deletedAt" ∉ obj_keys ((name, value) :: rest) ->
          obj_get (js "deletedAt") conditions' = obj_get (js "deletedAt") conditions))
      as Hstep.
    { intros conditions1 subqueries1 Hrest Hsub1 Heq Hne.
      destruct (IH _ _ Hrest Hsub1 Hnd) as (H1 & H2 & H3).
      split; [done|]. split.
      - intros Hin. apply elem_of_cons in Hin as [[= <- <-]|Hin].
        + rewrite H3 by done. by apply Heq.
        + by apply H2.
      - intros Hnin. unfold obj_keys in Hnin. rewrite fmap_cons in Hnin.
        apply not_elem_of_cons in Hnin as [Hne' Hnin]. simpl in Hne'.
        rewrite H3 by done. by apply Hne. }
    simpl in Hsplit.
    destruct (includes SPECIAL_QUERY_ARGS name) eqn:Hspecial.
    { apply (Hstep _ _ Hsplit Hsub); [|done].
      intros ->. vm_compute in Hspecial. discriminate Hspecial. }
    destruct (getParameterPrefix name) as [prefix suffix] eqn:Hprefix.
    destruct (negb (includes propertyNames prefix) && negb (includes odbArgs prefix));
      [done|].
    destruct suffix as [suffix|].
    + assert (name <> js "deletedAt") as Hne.
      { intros ->. vm_compute in Hprefix. discriminate Hprefix. }
      destruct (obj_get prefix linked) as [[[linkedModel build]|]|] eqn:Hget; [| |done].
      * apply (Hstep _ _ Hsplit); [|done|done].
        rewrite obj_keys_set. case_bool_decide; [done|].
        apply not_elem_of_app. split; [done|].
        intros Hin. apply list_elem_of_singleton in Hin as <-.
        by apply (Hlinked (linkedModel, build)).
      * apply (Hstep _ _ Hsplit Hsub); [done|].
        intros _. by rewrite obj_get_set_ne.
    + apply getParameterPrefix_None in Hprefix as ->.
      apply (Hstep _ _ Hsplit Hsub).
      * intros -> ->. by rewrite obj_get_set_eq.
      * intros Hne. by rewrite obj_get_set_ne.
Qed.

Lemma dotted_name_not_deletedAt name subPropName :
  name ++ js "." ++ subPropName <> js "deletedAt".
Proof.
  intros E.
  assert (46 ∈ name ++ js "." ++ subPropName) as Hin.
  { apply elem_of_app. right. apply list_elem_of_here. }
  rewrite E in Hin. vm_compute in Hin.
  repeat (apply elem_of_cons in Hin as [Hin|Hin]; [discriminate Hin|]).
  by apply elem_of_nil in Hin.
Qed.

Lemma inline_conditions_deletedAt name subquery state :
  obj_get (js "deletedAt") (inline_conditions name subquery state).1.1
    = obj_get (js "deletedAt") state.1.1
  /\ obj_get (js "deletedAt") (inline_conditions name subquery state).2
    = obj_get (js "deletedAt") state.2.
Proof.
  unfold inline_conditions.
  generalize (obj_keys (conditions subquery)). intros keys. revert state.
  induction keys as [|key keys IH]; intros [[conds props] casts]; [done|].
  cbn [foldl].
  match goal with
  | |- context [foldl ?f ?st keys] => destruct (IH st) as [-> ->]
  end.
  pose proof (dotted_name_not_deletedAt name key) as Hne.
  cbn [fst snd]. split.
  - destruct (obj_get key (conditions subquery)); [|done].
    by rewrite obj_get_set_ne.
  - destruct (obj_get key (ClassModel.cast (model subquery))); [|done].
    by rewrite obj_get_set_ne.
Qed.

Lemma resolve_subqueries_deletedAt activeOnly entries state state' :
  resolve_subqueries activeOnly entries state = Ok state' ->
  js "deletedAt" ∉ obj_keys entries ->
  obj_get (js "deletedAt") state'.1.1 = obj_get (js "deletedAt") state.1.1
  /\ obj_get (js "deletedAt") state'.2 = obj_get (js "deletedAt") state.2.
Proof.
  revert state.
  induction entries as [|[name value] rest IH]; intros state Hresolve Hnin.
  - simpl in Hresolve. by injection Hresolve as <-.
  - unfold obj_keys in Hnin. rewrite fmap_cons in Hnin.
    apply not_elem_of_cons in Hnin as [Hne Hnin]. simpl in Hne.
    simpl in Hresolve.
    destruct (sub_new value _ _) as [subquery|]; [|done].
    cbn [mbind result_bind] in Hresolve.
    destruct (bool_decide (length (follow subquery) = 0%nat)).
    + destruct (IH _ Hresolve Hnin) as [-> ->].
      apply inline_conditions_deletedAt.
    + destruct state as [[conds props] casts].
      destruct (IH _ Hresolve Hnin) as [-> ->].
      cbn [fst snd]. by rewrite obj_get_set_ne.
Qed.

Lemma cast_conditions_get cast entries entries' key c :
  cast_conditions cast entries = Ok entries' ->
  obj_get key entries = Some (Leaf c) ->
  exists c',
    obj_get key entries' = Some (Leaf c')
    /\ match obj_get key cast with
       | Some f => applyCast f c = Ok c'
       | None => c' = c
       end.
Proof.
  revert entries'.
  induction entries as [|[name condition] rest IH]; intros entries' Hcast Hget; [done|].
  simpl in Hcast, Hget.
  destruct (bool_decide_reflect (name = key)) as [->|Hne].
  - injection Hget as ->.
    destruct (obj_get key cast) as [f|].
    + destruct (applyCast f c) as [c'|]; [|done]. cbn [mbind result_bind] in Hcast.
      destruct (cast_conditions cast rest); [|done]. injection Hcast as <-.
      exists c'. simpl. by rewrite bool_decide_true.
    + cbn [mbind result_bind] in Hcast.
      destruct (cast_conditions cast rest); [|done]. injection Hcast as <-.
      exists c. simpl. by rewrite bool_decide_true.
  - destruct (match condition with Leaf _ => _ | _ => _ end) as [condition'|]; [|done].
    cbn [mbind result_bind] in Hcast.
    destruct (cast_conditions cast rest) as [rest'|]; [|done]. injection Hcast as <-.
    destruct (IH rest' eq_refl Hget) as (c' & ? & ?).
    exists c'. simpl. by rewrite bool_decide_false.
Qed.

(** C4 (amended): for every model whose declared property names include
    the deletion marker [deletedAt] (a property that links to no model) and
    every input query with [activeOnly] true, a successful construction of
    a SelectionQuery has the condition "deletedAt IS NULL", the equality
    comparison with null (passed through the cast of [deletedAt] when the
    model declares one), whether or not the input query had a condition on
    [deletedAt]: a condition of the caller on [deletedAt] is replaced. *)
Theorem SelectionQuery_deletedAt model inputQuery opt compiled :
  default true (opt_activeOnly opt) = true ->
  js "deletedAt" ∈ ClassModel.propertyNames model ->
  (forall defn,
     obj_get (js "deletedAt") (ClassModel.properties model) = Some defn ->
     ClassModel.linkedModel defn = None) ->
  NoDup (obj_keys inputQuery) ->
  SelectionQuery.new model inputQuery opt = Ok compiled ->
  exists c,
    obj_get (js "deletedAt") (SelectionQuery.conditions compiled) = Some (Leaf c)
    /\ match obj_get (js "deletedAt") (ClassModel.cast model) with
       | Some f => applyCast f is_null_comparison = Ok c
       | None => c = is_null_comparison
       end.
Proof.
  intros HactiveOnly Hmarker Hplain Hnd Hnew.
  destruct model as [model_name propertyNames model_properties model_cast ? ? ?].
  rewrite new_unfold in Hnew. cbn zeta in Hnew. cbn [ClassModel.propertyNames] in Hmarker.
  cbn [ClassModel.properties] in Hplain. cbn [ClassModel.cast].
  assert (includes propertyNames (js "deletedAt") = true) as Hincludes.
  { unfold includes. by apply bool_decide_eq_true_2. }
  rewrite HactiveOnly, Hincludes in Hnew. cbn [andb] in Hnew.
  destruct (check_returnProperties _ _ _); [|done]. cbn [mbind result_bind] in Hnew.
  destruct (split_entries _ _ _ _ _) as [[conditions subqueries]|] eqn:Hsplit; [|done].
  cbn [mbind result_bind] in Hnew.
  destruct (Follow.parse _); [|done]. cbn [mbind result_bind] in Hnew.
  destruct (resolve_subqueries _ _ _) as [[[conditions' properties'] cast']|] eqn:Hresolve;
    [|done].
  cbn [mbind result_bind] in Hnew.
  destruct (cast_conditions _ _) as [conditions''|] eqn:Hcast; [|done].
  injection Hnew as <-. cbn [SelectionQuery.conditions].
  apply split_entries_deletedAt in Hsplit as (Hsub & Hin & _).
  - apply resolve_subqueries_deletedAt in Hresolve as [Hconds Hcasts]; [|done].
    cbn [fst snd] in Hconds, Hcasts.
    rewrite Hin in Hconds
      by (apply obj_get_Some_elem; apply obj_get_set_eq).
    destruct (cast_conditions_get _ _ _ _ _ Hcast Hconds) as (c & Hc & Hf).
    exists c. split; [done|]. by rewrite <- Hcasts.
  - intros p Hp. rewrite linked_constructors_get in Hp.
    destruct (obj_get (js "deletedAt") model_properties) as [[ty [lm|]]|] eqn:E; try done.
    by specialize (Hplain _ eq_refl).
  - apply not_elem_of_nil.
  - by apply obj_keys_set_NoDup.
Qed.

(** The claim C4 as it is stated fails: the condition of the caller on
    [deletedAt] is not kept; the constructor overwrites it. *)
Lemma SelectionQuery_deletedAt_counterexample :
  match SelectionQuery.new example_model
          [(js "deletedAt", Cond (Comparison (VNumber 5) (js "=") false))]
          (mkOptions None None) with
  | Ok compiled =>
      SelectionQuery.conditions compiled = [(js "deletedAt", Leaf is_null_comparison)]
      /\ obj_get (js "deletedAt") (SelectionQuery.conditions compiled)
         <> Some (Leaf (Comparison (VNumber 5) (js "=") false))
  | Throw _ => False
  end.
Proof. vm_compute. split; [reflexivity|discriminate]. Qed.

Lemma SelectionQuery_deletedAt_witness :
  exists compiled,
    SelectionQuery.new example_model
      [(js "deletedAt", Cond (Comparison (VNumber 5) (js "=") false));
       (js "name", Raw (VString (js "a")))]
      (mkOptions None None) = Ok compiled
    /\ obj_get (js "deletedAt") (SelectionQuery.conditions compiled)
       = Some (Leaf is_null_comparison).
Proof.
  eexists. split; [vm_compute; reflexivity|].
  edestruct (SelectionQuery_deletedAt example_model
               [(js "deletedAt", Cond (Comparison (VNumber 5) (js "=") false));
                (js "name", Raw (VString (js "a")))]
               (mkOptions None None)) as (c & Hc & Hcast).
  - reflexivity.
  - apply (bool_decide_unpack _). vm_compute. reflexivity.
  - intros defn Hdefn. vm_compute in Hdefn. by injection Hdefn as <-.
  - apply (bool_decide_unpack _). vm_compute. reflexivity.
  - vm_compute. reflexivity.
  - cbn in Hcast. subst c. exact Hc.
Defined.

End Constructor.

(** ** Bound parameters of a condition *)

Lemma js_inj a b : js a = js b -> a = b.
Proof.
  unfold js. intros E.
  rewrite <- (string_of_list_ascii_of_string a), <- (string_of_list_ascii_of_string b).
  f_equal. revert E. generalize (list_ascii_of_string a) (list_ascii_of_string b).
  intros l. induction l as [|x l IH]; intros [|y k]; simpl; try done.
  intros [= Hxy E]. f_equal; [|by apply IH].
  rewrite <- (ascii_N_embedding x), <- (ascii_N_embedding y). by rewrite Hxy.
Qed.

Lemma decimal_inj n m : decimal n = decimal m -> n = m.
Proof.
  unfold decimal. intros E. apply js_inj in E.
  apply Unsigned.to_uint_inj.
  assert (Some (Nat.to_uint n) = Some (Nat.to_uint m)) as [= ->]; [|done].
  by rewrite <- !NilEmpty.usu, E.
Qed.

Lemma param_name_inj n m : param_name n = param_name m -> n = m.
Proof. unfold param_name. intros E. apply app_inv_head in E. by apply decimal_inj. Qed.

#[local] Instance param_name_Inj : Inj (=) (=) param_name.
Proof. intros n m. apply param_name_inj. Qed.

Lemma param_names_NoDup start count : NoDup (param_names start count).
Proof. unfold param_names. apply NoDup_fmap_2; [apply _|apply NoDup_seq]. Qed.

Lemma param_names_app start count count' :
  param_names start (count + count')
  = param_names start count ++ param_names (start + count) count'.
Proof. unfold param_names. by rewrite seq_app, fmap_app. Qed.

(** Induction over conditions. *)
Lemma cond_induction (P : cond -> Prop) :
  (forall value operator negate, P (Comparison value operator negate)) ->
  (forall type comparisons, Forall P comparisons -> P (Clause type comparisons)) ->
  forall c, P c.
Proof.
  intros Hcomparison Hclause.
  fix IH 1. intros [value operator negate|type comparisons].
  - apply Hcomparison.
  - apply Hclause. induction comparisons as [|c comparisons IHl]; constructor.
    + apply IH.
    + apply IHl.
Qed.

Lemma toString_Clause type comparisons name paramIndex listableType :
  toString (Clause type comparisons) name paramIndex listableType
  = Clause_loop type name paramIndex listableType comparisons ∅ [].
Proof.
  cbn [toString].
  match goal with
  | |- ?loop comparisons ∅ [] = _ =>
      assert (forall comps bound components,
                loop comps bound components
                = Clause_loop type name paramIndex listableType comps bound components)
        as Hloop
  end.
  { induction comps as [|comp rest IH]; intros bound components; [done|].
    cbn [Clause_loop]. by rewrite <- IH. }
  apply Hloop.
Qed.

Lemma toString_params c name paramIndex listableType :
  dom (params (toString c name paramIndex listableType))
  = list_to_set (param_names paramIndex (bound_values c)).
Proof.
  revert paramIndex. induction c as [value operator negate|type comparisons IH]
    using cond_induction; intros paramIndex.
  - cbn [toString bound_values]. unfold Comparison_toString.
    destruct listableType, (is_null value); cbn [negb params];
      rewrite ?dom_empty_L, ?dom_singleton_L; try done.
    all: unfold param_names; simpl; by rewrite (right_id_L ∅ (∪)).
  - rewrite toString_Clause. cbn [bound_values].
    assert (forall bound components count,
              dom bound = list_to_set (param_names paramIndex count) ->
              dom (params (Clause_loop type name paramIndex listableType comparisons
                             bound components))
              = list_to_set (param_names paramIndex
                               (count + sum_list_with bound_values comparisons)))
      as Hloop.
    { induction IH as [|comp rest Hcomp _ IHrest]; intros bound components count Hbound.
      - simpl. by rewrite Nat.add_0_r.
      - cbn [Clause_loop sum_list_with].
        assert (size bound = count) as Hsize.
        { rewrite <- size_dom, Hbound, size_list_to_set; [|apply param_names_NoDup].
          unfold param_names. by rewrite length_fmap, length_seq. }
        rewrite (IHrest _ _ (count + bound_values comp)%nat).
        + by rewrite Nat.add_assoc.
        + rewrite dom_union_L, Hcomp, Hbound, Hsize, param_names_app, list_to_set_app_L.
          by rewrite (comm_L (∪)). }
    apply (Hloop ∅ [] 0%nat). by rewrite dom_empty_L.
Qed.

Lemma param_names_size (bound : gmap jsstring value) start count :
  dom bound = list_to_set (param_names start count) -> size bound = count.
Proof.
  intros Hdom.
  rewrite <- size_dom, Hdom, size_list_to_set; [|apply param_names_NoDup].
  unfold param_names. by rewrite length_fmap, length_seq.
Qed.

Lemma conditionClause_params properties name c paramIndex st :
  SelectionQuery.conditionClause properties name c paramIndex = Ok st ->
  dom (params st) = list_to_set (param_names paramIndex (bound_values c)).
Proof.
  unfold SelectionQuery.conditionClause.
  destruct (SelectionQuery.property_type properties name) as [type|]; [|done].
  cbn [mbind result_bind].
  pose proof (toString_params c name paramIndex (is_container_type type)) as Hdom.
  destruct (toString c name paramIndex (is_container_type type)) as [text bound].
  cbn [params] in Hdom.
  destruct (includes_text (js "link") type).
  - destruct (bool_decide _); [|done]. intros [= <-]. cbn [params].
    by rewrite dom_fmap_L.
  - by intros [= <-].
Qed.


(** ** Serialization of a selection query *)

Section Serialization.
Import SelectionQuery.

Lemma SelectionQuery_toString_unfold model conditions follow skip activeOnly properties
    returnProperties cast paramStartIndex :
  SelectionQuery.toString (mk model conditions follow skip activeOnly properties returnProperties cast)
    paramStartIndex
  = ('(texts, bound) ←
       join_conditions (condition_clauses properties <$> conditions)
         (sort (obj_keys conditions)) paramStartIndex ∅ [];
     Ok (mkStatement (statement_text model follow skip returnProperties texts) bound)).
Proof.
  cbn [SelectionQuery.toString].
  match goal with
  | |- context [join_conditions (?each conditions)] =>
      assert (forall entries, each entries = condition_clauses properties <$> entries)
        as Heach
  end.
  { induction entries as [|[attr [c|sub|v]] rest IH]; [done|..];
      rewrite fmap_cons, <- IH; reflexivity. }
  rewrite Heach.
  destruct (join_conditions _ _ _ _ _) as [[texts bound]|]; reflexivity.
Qed.

Lemma query_induction (P : t -> Prop) :
  (forall model conditions follow skip activeOnly properties returnProperties cast,
     (forall attr sub, (attr, Subquery sub) ∈ conditions -> P sub) ->
     P (mk model conditions follow skip activeOnly properties returnProperties cast)) ->
  forall q, P q.
Proof.
  intros Hmk. fix IH 1.
  intros [model conditions follow skip activeOnly properties returnProperties cast].
  apply Hmk.
  assert (Forall (fun entry : jsstring * condition =>
                    match entry.2 with Subquery sub => P sub | _ => True end)
            conditions) as Hall.
  { induction conditions as [|[attr' [c|sub'|v]] rest IHrest]; constructor.
    - exact I.
    - exact IHrest.
    - exact (IH sub').
    - exact IHrest.
    - exact I.
    - exact IHrest. }
  clear IH. intros attr sub Hin.
  rewrite Forall_forall in Hall. exact (Hall _ Hin).
Qed.

Lemma join_conditions_params clauses (counts : jsstring -> nat) conditionNames :
  (forall attr clause_of grouped,
     attr ∈ conditionNames ->
     obj_get attr clauses = Some (clause_of, grouped) ->
     forall index st,
       clause_of index = Ok st ->
       dom (params st) = list_to_set (param_names index (counts attr))) ->
  forall start count bound texts texts' bound',
    dom bound = list_to_set (param_names start count) ->
    join_conditions clauses conditionNames (start + count) bound texts
      = Ok (texts', bound') ->
    dom bound'
    = list_to_set (param_names start (count + sum_list_with counts conditionNames)).
Proof.
  induction conditionNames as [|attr rest IH]; intros Hclauses start count bound texts
    texts' bound' Hbound Hjoin.
  - simpl in Hjoin. injection Hjoin as <- <-. simpl. by rewrite Nat.add_0_r.
  - cbn [join_conditions] in Hjoin.
    destruct (obj_get attr clauses) as [[clause_of grouped]|] eqn:Hget; [|done].
    destruct (clause_of (start + count)%nat) as [clause|] eqn:Hclause; [|done].
    cbn [mbind result_bind] in Hjoin.
    pose proof (Hclauses attr clause_of grouped (list_elem_of_here _ _) Hget _ _ Hclause)
      as Hdom.
    rewrite (param_names_size _ _ _ Hdom), <- Nat.add_assoc in Hjoin.
    cbn [sum_list_with]. rewrite Nat.add_assoc.
    eapply IH; [|shelve|exact Hjoin].
    { intros a c g Hin. apply Hclauses. by apply list_elem_of_further. }
    Unshelve.
    rewrite dom_union_L, Hdom, Hbound, param_names_app, list_to_set_app_L.
    by rewrite (comm_L (∪)).
Qed.

Lemma sum_list_with_ext {A} (f g : A -> nat) l :
  (forall x, x ∈ l -> f x = g x) -> sum_list_with f l = sum_list_with g l.
Proof.
  induction l as [|x l IH]; intros Hfg; [done|]. simpl.
  rewrite (Hfg x) by apply list_elem_of_here.
  rewrite IH; [done|]. intros y Hy. apply Hfg. by apply list_elem_of_further.
Qed.

Lemma sum_over_keys {V} (f : option V -> nat) (obj : list (jsstring * V)) :
  NoDup (obj_keys obj) ->
  sum_list_with (fun key => f (obj_get key obj)) (obj_keys obj)
  = sum_list_with (fun entry => f (Some entry.2)) obj.
Proof.
  unfold obj_keys. induction obj as [|[k v] obj IH]; intros Hnd; [done|].
  rewrite fmap_cons in Hnd. apply NoDup_cons in Hnd as [Hk Hnd].
  rewrite fmap_cons. cbn [sum_list_with obj_get fst snd].
  rewrite bool_decide_true by done. f_equal.
  rewrite <- IH by done. apply sum_list_with_ext.
  intros key Hkey. rewrite bool_decide_false; [done|]. by intros ->.
Qed.

Lemma obj_get_fmap {V W} (g : jsstring * V -> jsstring * W) (obj : list (jsstring * V)) key :
  (forall entry, (g entry).1 = entry.1) ->
  obj_get key (g <$> obj) = (fun v => (g (key, v)).2) <$> obj_get key obj.
Proof.
  intros Hg. induction obj as [|[k v] obj IH]; [done|].
  rewrite fmap_cons. specialize (Hg (k, v)) as Hk. simpl in Hk.
  destruct (g (k, v)) as [k' w] eqn:E. simpl in Hk. subst k'. simpl.
  destruct (bool_decide_reflect (k = key)) as [->|Hne]; [|done].
  simpl. by rewrite E.
Qed.

Lemma condition_clauses_key properties entry :
  (condition_clauses properties entry).1 = entry.1.
Proof. by destruct entry as [attr [c|sub|v]]. Qed.

Lemma bound_values_query_sum model conditions follow skip activeOnly properties
    returnProperties cast :
  bound_values_query
    (mk model conditions follow skip activeOnly properties returnProperties cast)
  = sum_list_with (fun entry => bound_values_condition entry.2) conditions.
Proof.
  cbn [bound_values_query]. apply sum_list_with_ext.
  by intros [attr [c|sub|v]] _.
Qed.

Lemma unique_keys_sub model conditions follow skip activeOnly properties
    returnProperties cast :
  unique_keys (mk model conditions follow skip activeOnly properties returnProperties cast)
  -> NoDup (obj_keys conditions)
     /\ forall attr sub, (attr, Subquery sub) ∈ conditions -> unique_keys sub.
Proof.
  cbn [unique_keys]. intros [Hnd Heach]. split; [done|].
  clear Hnd. induction conditions as [|[attr' [c|sub'|v]] rest IH]; intros attr sub Hin.
  - by apply elem_of_nil in Hin.
  - apply elem_of_cons in Hin as [[=]|Hin]. by apply (IH Heach attr).
  - destruct Heach as [Hsub Heach].
    apply elem_of_cons in Hin as [[= -> ->]|Hin]; [done|]. by apply (IH Heach attr).
  - apply elem_of_cons in Hin as [[=]|Hin]. by apply (IH Heach attr).
Qed.

Lemma SelectionQuery_toString_params q :
  unique_keys q ->
  forall paramStartIndex st,
    SelectionQuery.toString q paramStartIndex = Ok st ->
    dom (params st) = list_to_set (param_names paramStartIndex (bound_values_query q)).
Proof.
  induction q as [model conditions follow skip activeOnly properties returnProperties
                    cast IH] using query_induction.
  intros Hunique paramStartIndex st Hstring.
  apply unique_keys_sub in Hunique as [Hnd Hsub].
  rewrite SelectionQuery_toString_unfold in Hstring.
  destruct (join_conditions _ _ _ _ _) as [[texts bound]|] eqn:Hjoin; [|done].
  cbn [mbind result_bind] in Hstring. injection Hstring as <-. cbn [params].
  rewrite bound_values_query_sum.
  rewrite <- (sum_over_keys (fun o => from_option bound_values_condition 0%nat o))
    by done.
  rewrite <- (merge_sort_Permutation jsstring_le (obj_keys conditions)).
  fold (sort (obj_keys conditions)).
  rewrite <- (Nat.add_0_r paramStartIndex) in Hjoin.
  eapply (join_conditions_params _ _ _ _ paramStartIndex 0%nat ∅ [] texts bound);
    [by rewrite dom_empty_L|exact Hjoin].
  Unshelve.
  intros attr clause_of grouped _ Hget index st Hclause.
  rewrite obj_get_fmap in Hget by apply condition_clauses_key.
  destruct (obj_get attr conditions) as [[c|sub|v]|] eqn:Hattr; [..|done];
    injection Hget as <- <-; rewrite ?Hattr; cbn [from_option bound_values_condition].
  - by apply (conditionClause_params properties attr).
  - destruct (SelectionQuery.toString sub index) as [clause|] eqn:Hsubquery; [|done].
    injection Hclause as <-. cbn [params].
    apply (IH attr sub); [by apply obj_get_Some_elem| |done].
    apply (Hsub attr). by apply obj_get_Some_elem.
  - by destruct (property_type properties attr).
Qed.

(** The order of the sort. *)
Lemma jsstring_leb_refl a : jsstring_leb a a = true.
Proof. induction a as [|x a IH]; [done|]. simpl. by rewrite N.ltb_irrefl. Qed.

#[local] Instance jsstring_le_total : Total jsstring_le.
Proof.
  unfold jsstring_le. intros a. induction a as [|x a IH]; intros [|y b]; simpl; auto.
  destruct (N.ltb_spec x y), (N.ltb_spec y x); auto; lia.
Qed.

#[local] Instance jsstring_le_trans : Transitive jsstring_le.
Proof.
  unfold jsstring_le. intros a. induction a as [|x a IH]; intros [|y b] [|z c]; simpl;
    try done.
  destruct (N.ltb_spec x y), (N.ltb_spec y x), (N.ltb_spec y z), (N.ltb_spec z y),
    (N.ltb_spec x z), (N.ltb_spec z x); try done; try lia.
  apply IH.
Qed.

#[local] Instance jsstring_le_antisymm : AntiSymm (=) jsstring_le.
Proof.
  unfold jsstring_le. intros a. induction a as [|x a IH]; intros [|y b]; simpl; try done.
  destruct (N.ltb_spec x y), (N.ltb_spec y x); try done; try lia.
  intros H1 H2. assert (x = y) as -> by lia. f_equal. by apply IH.
Qed.

Lemma sort_sorted names : Sorted jsstring_le (sort names).
Proof. apply Sorted_merge_sort, _. Qed.

Lemma sort_Permutation_eq names names' : names ≡ₚ names' -> sort names = sort names'.
Proof.
  intros Hperm. apply (Sorted_unique jsstring_le); [apply sort_sorted..|].
  unfold sort. by rewrite !merge_sort_Permutation.
Qed.

Lemma obj_get_Permutation {V} (obj obj' : list (jsstring * V)) key :
  NoDup (obj_keys obj) -> obj ≡ₚ obj' -> obj_get key obj = obj_get key obj'.
Proof.
  intros Hnd Hperm.
  assert (NoDup (obj_keys obj')) as Hnd'.
  { unfold obj_keys in *. by rewrite <- Hperm. }
  destruct (obj_get key obj) as [v|] eqn:E.
  - symmetry. apply obj_get_elem; [done|]. rewrite <- Hperm. by apply obj_get_Some_elem.
  - symmetry. apply obj_get_None. apply obj_get_None in E.
    unfold obj_keys in *. by rewrite <- Hperm.
Qed.

Lemma join_conditions_ext clauses clauses' conditionNames start bound texts :
  (forall attr, obj_get attr clauses = obj_get attr clauses') ->
  join_conditions clauses conditionNames start bound texts
  = join_conditions clauses' conditionNames start bound texts.
Proof.
  intros Hext. revert start bound texts.
  induction conditionNames as [|attr rest IH]; intros start bound texts; [done|].
  cbn [join_conditions]. rewrite <- Hext.
  destruct (obj_get attr clauses) as [[clause_of grouped]|]; [|done].
  destruct (clause_of start) as [clause|]; [|done].
  cbn [mbind result_bind]. apply IH.
Qed.

Lemma SelectionQuery_toString_order q conditions' paramStartIndex :
  NoDup (obj_keys (conditions q)) ->
  conditions q ≡ₚ conditions' ->
  SelectionQuery.toString (with_conditions q conditions') paramStartIndex
  = SelectionQuery.toString q paramStartIndex.
Proof.
  destruct q as [model conditions follow skip activeOnly properties returnProperties cast].
  cbn [SelectionQuery.conditions with_conditions]. intros Hnd Hperm.
  rewrite !SelectionQuery_toString_unfold.
  rewrite (sort_Permutation_eq (obj_keys conditions') (obj_keys conditions))
    by (unfold obj_keys; by rewrite Hperm).
  rewrite (join_conditions_ext (condition_clauses properties <$> conditions')
             (condition_clauses properties <$> conditions)); [done|].
  intros attr. rewrite !obj_get_fmap by apply condition_clauses_key.
  by rewrite (obj_get_Permutation conditions conditions').
Qed.

Lemma model_induction (P : ClassModel.t -> Prop) :
  (forall name propertyNames properties cast inherits isEdge formatRecord,
     (forall key type linkedModel,
        (key, ClassModel.mkProperty type (Some linkedModel)) ∈ properties ->
        P linkedModel) ->
     P (ClassModel.mk name propertyNames properties cast inherits isEdge formatRecord)) ->
  forall model, P model.
Proof.
  intros Hmk. fix IH 1.
  intros [name propertyNames properties cast inherits isEdge formatRecord].
  apply Hmk.
  assert (Forall (fun entry : jsstring * ClassModel.PropertyDefn =>
                    match ClassModel.linkedModel entry.2 with
                    | Some linkedModel => P linkedModel
                    | None => True
                    end) properties) as Hall.
  { induction properties as [|[key [type [linkedModel|]]] rest IHrest]; constructor.
    - exact (IH linkedModel).
    - exact IHrest.
    - exact I.
    - exact IHrest. }
  clear IH. intros key type linkedModel Hin.
  rewrite Forall_forall in Hall. exact (Hall _ Hin).
Qed.

Lemma unique_keys_mk model conditions follow skip activeOnly properties
    returnProperties cast :
  conditions_unique conditions ->
  unique_keys (mk model conditions follow skip activeOnly properties returnProperties cast).
Proof.
  intros [Hnd Hsub]. cbn [unique_keys]. split; [done|]. clear Hnd.
  induction conditions as [|[attr [c|sub|v]] rest IH]; [done|..].
  - apply IH. intros a s Hin. apply (Hsub a). by apply list_elem_of_further.
  - split.
    + apply (Hsub attr). apply list_elem_of_here.
    + apply IH. intros a s Hin. apply (Hsub a). by apply list_elem_of_further.
  - apply IH. intros a s Hin. apply (Hsub a). by apply list_elem_of_further.
Qed.

Lemma obj_set_elem {V} (obj : list (jsstring * V)) key v entry :
  entry ∈ obj_set key v obj -> entry = (key, v) \/ entry ∈ obj.
Proof.
  induction obj as [|[k w] obj IH]; simpl.
  - intros Hin. apply list_elem_of_singleton in Hin. by left.
  - destruct (bool_decide_reflect (k = key)) as [->|Hne].
    + intros Hin. apply elem_of_cons in Hin as [->|Hin]; [by left|].
      right. by apply list_elem_of_further.
    + intros Hin. apply elem_of_cons in Hin as [->|Hin].
      * right. apply list_elem_of_here.
      * destruct (IH Hin) as [->|?]; [by left|]. right. by apply list_elem_of_further.
Qed.

Lemma conditions_unique_set conditions key condition :
  conditions_unique conditions ->
  (forall sub, condition = Subquery sub -> unique_keys sub) ->
  conditions_unique (obj_set key condition conditions).
Proof.
  intros [Hnd Hsub] Hcondition. split; [by apply obj_keys_set_NoDup|].
  intros attr sub Hin. apply obj_set_elem in Hin as [[= -> <-]|Hin].
  - by apply Hcondition.
  - by apply (Hsub attr).
Qed.

Lemma split_entries_unique propertyNames linked entries conditions subqueries
    conditions' subqueries' :
  (forall key linkedModel build,
     obj_get key linked = Some (Some (linkedModel, build)) -> builds_unique build) ->
  split_entries propertyNames linked entries conditions subqueries
    = Ok (conditions', subqueries') ->
  conditions_unique conditions ->
  (forall key sub, (key, sub) ∈ subqueries -> builds_unique (sub_new sub)) ->
  conditions_unique conditions'
  /\ (forall key sub, (key, sub) ∈ subqueries' -> builds_unique (sub_new sub)).
Proof.
  intros Hlinked. revert conditions subqueries.
  induction entries as [|[name value] rest IH]; intros conditions subqueries Hsplit
    Hconditions Hsubqueries.
  - simpl in Hsplit. by injection Hsplit as <- <-.
  - simpl in Hsplit.
    destruct (includes SPECIAL_QUERY_ARGS name); [by apply (IH _ _ Hsplit)|].
    destruct (getParameterPrefix name) as [prefix suffix].
    destruct (negb (includes propertyNames prefix) && negb (includes odbArgs prefix));
      [done|].
    assert (forall condition,
              (forall sub, condition <> Subquery sub) ->
              conditions_unique (obj_set name condition conditions)) as Hset.
    { intros condition Hleaf. apply conditions_unique_set; [done|].
      intros sub ->. by destruct (Hleaf sub). }
    destruct suffix as [suffix|].
    + destruct (obj_get prefix linked) as [[[linkedModel build]|]|] eqn:Hget; [| |done].
      * apply (IH _ _ Hsplit Hconditions).
        intros key sub Hin. apply obj_set_elem in Hin as [[= -> ->]|Hin].
        -- cbn [sub_new].
           destruct (obj_get prefix subqueries) as [sub|] eqn:Hsub; cbn [default sub_new].
           ++ apply (Hsubqueries prefix). by apply obj_get_Some_elem.
           ++ by apply (Hlinked prefix linkedModel).
        -- by apply (Hsubqueries key).
      * apply (IH _ _ Hsplit); [|done]. apply Hset. intros sub.
        destruct value as [c|v]; [done|]. by destruct (negb _).
    + apply (IH _ _ Hsplit); [|done]. apply Hset. intros sub.
      by destruct value.
Qed.

Lemma inline_conditions_unique name subquery state :
  unique_keys subquery ->
  conditions_unique state.1.1 ->
  conditions_unique (inline_conditions name subquery state).1.1.
Proof.
  intros Hsubquery. unfold inline_conditions.
  destruct subquery as [model conditions follow skip activeOnly properties
                          returnProperties cast].
  apply unique_keys_sub in Hsubquery as [_ Hsub].
  cbn [SelectionQuery.conditions SelectionQuery.model].
  generalize (obj_keys conditions). intros keys. revert state.
  induction keys as [|key keys IH]; intros [[conds props] casts] Hstate; [done|].
  cbn [foldl]. apply IH. cbn [fst snd] in *.
  destruct (obj_get key conditions) as [condition|] eqn:Hget; [|done].
  apply conditions_unique_set; [done|].
  intros sub ->. apply (Hsub key). by apply obj_get_Some_elem.
Qed.

Lemma resolve_subqueries_unique activeOnly entries state state' :
  (forall key sub, (key, sub) ∈ entries -> builds_unique (sub_new sub)) ->
  resolve_subqueries activeOnly entries state = Ok state' ->
  conditions_unique state.1.1 ->
  conditions_unique state'.1.1.
Proof.
  revert state.
  induction entries as [|[name value] rest IH]; intros state Hbuilds Hresolve Hstate.
  - simpl in Hresolve. by injection Hresolve as <-.
  - simpl in Hresolve.
    destruct (sub_new value _ _) as [subquery|] eqn:Hnew; [|done].
    cbn [mbind result_bind] in Hresolve.
    assert (unique_keys subquery) as Hsubquery.
    { apply (Hbuilds name value (list_elem_of_here _ _) _ _ _ Hnew). }
    assert (forall key sub, (key, sub) ∈ rest -> builds_unique (sub_new sub)) as Hrest.
    { intros key sub Hin. apply (Hbuilds key). by apply list_elem_of_further. }
    destruct (bool_decide (length (follow subquery) = 0%nat)).
    + apply (IH _ Hrest Hresolve). by apply inline_conditions_unique.
    + destruct state as [[conds props] casts].
      apply (IH _ Hrest Hresolve). cbn [fst snd] in *.
      apply conditions_unique_set; [done|]. by intros sub [= <-].
Qed.

Lemma cast_conditions_unique cast entries entries' :
  cast_conditions cast entries = Ok entries' ->
  conditions_unique entries -> conditions_unique entries'.
Proof.
  intros Hcast.
  assert (obj_keys entries' = obj_keys entries
          /\ forall attr sub, (attr, Subquery sub) ∈ entries' ->
                              (attr, Subquery sub) ∈ entries) as [Hkeys Hin].
  { revert entries' Hcast. unfold obj_keys.
    induction entries as [|[name condition] rest IH]; intros entries' Hcast.
    - simpl in Hcast. by injection Hcast as <-.
    - simpl in Hcast.
      destruct (match condition with Leaf _ => _ | _ => _ end) as [condition'|] eqn:E;
        [|done].
      cbn [mbind result_bind] in Hcast.
      destruct (cast_conditions cast rest) as [rest'|]; [|done]. injection Hcast as <-.
      destruct (IH rest' eq_refl) as [Hkeys Hin]. split.
      + rewrite !fmap_cons. by rewrite Hkeys.
      + intros attr sub Hsub. apply elem_of_cons in Hsub as [Heq|Hsub].
        * injection Heq as -> <-.
          destruct condition as [c|sub'|v].
          -- destruct (obj_get name cast); [|done].
             by destruct (applyCast _ c).
          -- injection E as <-. apply list_elem_of_here.
          -- by destruct (obj_get name cast).
        * apply list_elem_of_further. by apply Hin. }
  intros [Hnd Hsub]. split; [by rewrite Hkeys|].
  intros attr sub Hsub'. apply (Hsub attr). by apply Hin.
Qed.

Lemma linked_constructors_elem key linkedModel build props :
  obj_get key (linked_constructors props) = Some (Some (linkedModel, build)) ->
  build = new linkedModel
  /\ exists type, (key, ClassModel.mkProperty type (Some linkedModel)) ∈ props.
Proof.
  rewrite linked_constructors_get.
  destruct (obj_get key props) as [[type [lm|]]|] eqn:E; [|done..].
  intros [= <- <-]. split; [done|]. exists type. by apply obj_get_Some_elem.
Qed.

Lemma new_unique_keys model inputQuery opt q :
  new model inputQuery opt = Ok q -> unique_keys q.
Proof.
  revert inputQuery opt q.
  induction model as [model_name propertyNames model_properties model_cast inherits
                        isEdge formatRecord IH] using model_induction.
  intros inputQuery opt q Hnew.
  rewrite new_unfold in Hnew. cbn zeta in Hnew.
  destruct (check_returnProperties _ _ _); [|done]. cbn [mbind result_bind] in Hnew.
  destruct (split_entries _ _ _ _ _) as [[conditions subqueries]|] eqn:Hsplit; [|done].
  cbn [mbind result_bind] in Hnew.
  destruct (Follow.parse _); [|done]. cbn [mbind result_bind] in Hnew.
  destruct (resolve_subqueries _ _ _) as [[[conditions' properties'] cast']|] eqn:Hresolve;
    [|done].
  cbn [mbind result_bind] in Hnew.
  destruct (cast_conditions _ _) as [conditions''|] eqn:Hcast; [|done].
  injection Hnew as <-. apply unique_keys_mk.
  apply (cast_conditions_unique _ _ _ Hcast).
  apply split_entries_unique in Hsplit as [Hconditions Hsubqueries].
  - apply (resolve_subqueries_unique _ _ _ _ Hsubqueries Hresolve Hconditions).
  - intros key linkedModel build Hget.
    apply linked_constructors_elem in Hget as [-> [type Hin]].
    intros input' opt' q' Hq'. by apply (IH key type linkedModel Hin input' opt').
  - split; [apply NoDup_nil_2|]. intros attr sub Hin. by apply elem_of_nil in Hin.
  - intros key sub Hin. by apply elem_of_nil in Hin.
Qed.

Lemma property_type_ext properties1 properties2 name :
  (forall key, obj_get key properties1 = obj_get key properties2) ->
  property_type properties1 name = property_type properties2 name.
Proof. intros Hext. unfold property_type. by rewrite Hext. Qed.

Lemma conditionClause_ext properties1 properties2 name c paramIndex :
  (forall key, obj_get key properties1 = obj_get key properties2) ->
  conditionClause properties1 name c paramIndex
  = conditionClause properties2 name c paramIndex.
Proof.
  intros Hext. unfold conditionClause.
  by rewrite (property_type_ext _ _ _ Hext).
Qed.

Lemma join_conditions_pointwise clauses clauses' conditionNames start bound texts :
  (forall attr,
     option_Forall2
       (fun clause clause' =>
          clause.2 = clause'.2 /\ forall index, clause.1 index = clause'.1 index)
       (obj_get attr clauses) (obj_get attr clauses')) ->
  join_conditions clauses conditionNames start bound texts
  = join_conditions clauses' conditionNames start bound texts.
Proof.
  intros Hext. revert start bound texts.
  induction conditionNames as [|attr rest IH]; intros start bound texts; [done|].
  cbn [join_conditions].
  destruct (Hext attr) as [[clause_of grouped] [clause_of' grouped'] [Hgrouped Hclause]|];
    [|done].
  cbn [fst snd] in *. subst grouped'. rewrite <- Hclause.
  destruct (clause_of start) as [clause|]; [|done].
  cbn [mbind result_bind]. apply IH.
Qed.

Lemma same_query_keys conditions1 conditions2 :
  NoDup (obj_keys conditions1) ->
  NoDup (obj_keys conditions2) ->
  (forall attr,
     option_Forall2 same_condition (obj_get attr conditions1) (obj_get attr conditions2)) ->
  obj_keys conditions1 ≡ₚ obj_keys conditions2.
Proof.
  intros Hnd1 Hnd2 Hsame. apply NoDup_Permutation; [done..|].
  intros attr. specialize (Hsame attr).
  destruct (obj_get attr conditions1) as [c1|] eqn:E1,
           (obj_get attr conditions2) as [c2|] eqn:E2; try by inversion Hsame.
  - split; intros _.
    + apply dec_stable. intros Hnin. apply obj_get_None in Hnin. by rewrite Hnin in E2.
    + apply dec_stable. intros Hnin. apply obj_get_None in Hnin. by rewrite Hnin in E1.
  - apply obj_get_None in E1, E2. by split.
Qed.

Lemma toString_same_query q1 :
  forall q2 paramStartIndex,
    same_query q1 q2 ->
    SelectionQuery.toString q1 paramStartIndex = SelectionQuery.toString q2 paramStartIndex.
Proof.
  induction q1 as [model conditions1 follow skip activeOnly1 properties1 returnProperties
                     cast1 IH] using query_induction.
  intros q2 paramStartIndex Hsame.
  inversion Hsame as [? ? conditions2 ? ? ? activeOnly2 ? properties2 ? ? cast2
                        Hnd1 Hnd2 Hconditions Hproperties]; subst.
  rewrite !SelectionQuery_toString_unfold.
  rewrite (sort_Permutation_eq (obj_keys conditions1) (obj_keys conditions2))
    by (by apply same_query_keys).
  rewrite (join_conditions_pointwise (condition_clauses properties1 <$> conditions1)
             (condition_clauses properties2 <$> conditions2)); [done|].
  intros attr. rewrite !obj_get_fmap by apply condition_clauses_key.
  specialize (Hconditions attr).
  destruct (obj_get attr conditions1) as [c1|] eqn:E1;
    inversion Hconditions as [? c2 Hcondition|]; subst; [|constructor].
  constructor.
  destruct Hcondition as [c|v|sub1 sub2 Hsub]; cbn [condition_clauses fst snd].
  - split; [done|]. intros index. by apply conditionClause_ext.
  - split; [done|]. intros index. by rewrite (property_type_ext _ _ _ Hproperties).
  - split; [done|]. intros index.
    rewrite (IH attr sub1 (obj_get_Some_elem _ _ _ E1) sub2 index Hsub). done.
Qed.

Lemma same_query_refl q : unique_keys q -> same_query q q.
Proof.
  induction q as [model conditions follow skip activeOnly properties returnProperties
                    cast IH] using query_induction.
  intros Hunique. apply unique_keys_sub in Hunique as [Hnd Hsub].
  constructor; [done..| |done].
  intros attr. destruct (obj_get attr conditions) as [[c|sub|v]|] eqn:E; constructor.
  - constructor.
  - constructor. apply obj_get_Some_elem in E. by apply (IH attr sub E), (Hsub attr).
  - constructor.
Qed.

Lemma same_query_reordered q conditions' :
  unique_keys q -> conditions q ≡ₚ conditions' -> same_query q (with_conditions q conditions').
Proof.
  intros Hunique Hperm.
  destruct q as [model conditions follow skip activeOnly properties returnProperties cast].
  cbn [SelectionQuery.conditions with_conditions] in *.
  pose proof (same_query_refl _ Hunique) as Hrefl.
  inversion Hrefl as [? ? ? ? ? ? ? ? ? ? ? ? Hnd _ Hconditions _]; subst.
  constructor; [done| | |done].
  - unfold obj_keys in *. by rewrite <- Hperm.
  - intros attr. rewrite <- (obj_get_Permutation conditions conditions') by done.
    apply Hconditions.
Qed.

Lemma join_conditions_emitted properties conditions names start bound texts texts' bound' :
  join_conditions (condition_clauses properties <$> conditions) names start bound texts
  = Ok (texts', bound') ->
  exists clauses,
    emitted properties conditions names start clauses
    /\ texts' = texts ++ (query <$> clauses)
    /\ bound' = foldl (fun bound clause => params clause ∪ bound) bound clauses.
Proof.
  revert start bound texts.
  induction names as [|attr rest IH]; intros start bound texts Hjoin.
  - cbn in Hjoin. injection Hjoin as <- <-. exists []. split; [constructor|].
    by rewrite app_nil_r.
  - cbn [join_conditions] in Hjoin.
    rewrite obj_get_fmap in Hjoin by apply condition_clauses_key.
    destruct (obj_get attr conditions) as [condition|] eqn:Hget; [|done].
    cbn [fmap option_fmap option_map] in Hjoin.
    destruct (condition_clauses properties (attr, condition)) as [key [clause_of grouped]]
      eqn:Hclauses.
    cbn [snd] in Hjoin.
    destruct (clause_of start) as [clause|] eqn:Hclause; [|done].
    cbn [mbind result_bind] in Hjoin.
    apply IH in Hjoin as (clauses & Hemitted & -> & ->).
    exists (mkStatement (if grouped then parenthesize (query clause) else query clause)
              (params clause) :: clauses).
    split; [|split].
    + econstructor; [done| |done].
      unfold condition_statement. rewrite Hclauses. cbn [snd]. by rewrite Hclause.
    + by rewrite <- app_assoc.
    + done.
Qed.

Lemma toString_emitted q paramStartIndex st :
  SelectionQuery.toString q paramStartIndex = Ok st ->
  exists clauses,
    emitted (properties q) (conditions q) (sort (obj_keys (conditions q)))
      paramStartIndex clauses
    /\ query st
       = statement_text (model q) (follow q) (skip q) (returnProperties q)
           (query <$> clauses)
    /\ params st = foldl (fun bound clause => params clause ∪ bound) ∅ clauses.
Proof.
  destruct q as [model conditions follow skip activeOnly properties returnProperties cast].
  rewrite SelectionQuery_toString_unfold.
  destruct (join_conditions _ _ _ _ _) as [[texts bound]|] eqn:Hjoin; [|done].
  cbn [mbind result_bind]. intros [= <-].
  apply join_conditions_emitted in Hjoin as (clauses & Hemitted & -> & ->).
  by exists clauses.
Qed.

Lemma emitted_length properties conditions names index clauses :
  emitted properties conditions names index clauses -> length clauses = length names.
Proof. induction 1; simpl; congruence. Qed.



End Serialization.

(** * Further properties *)

(** ** Splitting and joining *)

Lemma join_split_on sep s : join [sep] (split_on sep s) = s.
Proof.
  induction s as [|c s IH]; [done|]. simpl.
  destruct (N.eqb_spec c sep) as [->|Hne].
  - destruct (split_on sep s) eqn:E; [by destruct (split_on_nonempty sep s)|].
    simpl in *. by rewrite IH.
  - destruct (split_on sep s) as [|w ws] eqn:E; [by destruct (split_on_nonempty sep s)|].
    destruct ws; simpl in *; by rewrite <- IH.
Qed.

Lemma split_on_pieces sep s : Forall (fun w => sep ∉ w) (split_on sep s).
Proof.
  induction s as [|c s IH]; simpl.
  - repeat constructor. apply not_elem_of_nil.
  - destruct (N.eqb_spec c sep) as [->|Hne].
    + constructor; [apply not_elem_of_nil|done].
    + destruct (split_on sep s) as [|w ws]; [repeat constructor|].
      * rewrite elem_of_cons. intros [?|H]; [done|]. by apply elem_of_nil in H.
      * inversion IH; subst. constructor; [|done].
        rewrite elem_of_cons. intros [?|?]; done.
Qed.

Lemma split_on_whole sep s : sep ∉ s -> split_on sep s = [s].
Proof.
  induction s as [|c s IH]; [done|]. rewrite not_elem_of_cons. intros [Hne Hs].
  simpl. destruct (N.eqb_spec c sep) as [->|_]; [done|]. by rewrite IH.
Qed.

Lemma split_on_app sep a b :
  sep ∉ a -> split_on sep (a ++ sep :: b) = a :: split_on sep b.
Proof.
  induction a as [|c a IH]; simpl.
  - intros _. by rewrite N.eqb_refl.
  - rewrite not_elem_of_cons. intros [Hne Ha].
    destruct (N.eqb_spec c sep) as [->|_]; [done|]. by rewrite IH.
Qed.

(** ** Helpers of [repo/util.js] *)

(** X1: [getParameterPrefix] gives a suffix exactly for a parameter that
    is a non-empty prefix, one dot and a non-empty suffix, neither with a
    dot in it, and then the prefix, a dot and the suffix make up the
    parameter; any other parameter (no dot, several dots, an empty side) is
    returned whole as the prefix, without a suffix. *)
Theorem getParameterPrefix_spec param :
  match getParameterPrefix param with
  | (prefix, Some suffix) =>
      param = prefix ++ js "." ++ suffix
      /\ prefix <> [] /\ suffix <> [] /\ (46 ∉ prefix) /\ (46 ∉ suffix)
  | (prefix, None) =>
      prefix = param
      /\ forall p s, p <> [] -> s <> [] -> (46 ∉ p) -> (46 ∉ s) -> param <> p ++ js "." ++ s
  end.
Proof.
  unfold getParameterPrefix.
  pose proof (join_split_on 46 param) as Hjoin.
  pose proof (split_on_pieces 46 param) as Hpieces.
  assert (forall p s, 46 ∉ p -> 46 ∉ s -> param = p ++ js "." ++ s ->
                      split_on 46 param = [p; s]) as Hsplit.
  { intros p s Hp Hs ->. change (js "." ++ s) with (46 :: s).
    rewrite split_on_app by done. by rewrite split_on_whole. }
  destruct (split_on 46 param) as [|prefix [|suffix [|]]] eqn:E.
  - split; [done|]. intros p s _ _ Hp Hs Heq. by specialize (Hsplit p s Hp Hs Heq).
  - split; [done|]. intros p s _ _ Hp Hs Heq. by specialize (Hsplit p s Hp Hs Heq).
  - destruct (bool_decide_reflect (prefix = [])) as [->|Hprefix]; simpl.
    { split; [done|]. intros p s Hp0 _ Hp Hs Heq.
      specialize (Hsplit p s Hp Hs Heq). congruence. }
    destruct (bool_decide_reflect (suffix = [])) as [->|Hsuffix]; simpl.
    { split; [done|]. intros p s _ Hs0 Hp Hs Heq.
      specialize (Hsplit p s Hp Hs Heq). congruence. }
    split; [by rewrite <- Hjoin|].
    inversion Hpieces as [|? ? ? Hrest]; subst. by inversion Hrest; subst.
  - split; [done|]. intros p s _ _ Hp Hs Heq. by specialize (Hsplit p s Hp Hs Heq).
Qed.

Lemma digits_colon_digits_spec s :
  digits_colon_digits s = true <->
  exists cluster position,
    s = cluster ++ js ":" ++ position
    /\ cluster <> [] /\ position <> []
    /\ forallb is_digit cluster = true /\ forallb is_digit position = true.
Proof.
  unfold digits_colon_digits. split.
  - pose proof (join_split_on 58 s) as Hjoin.
    destruct (split_on 58 s) as [|cluster [|position [|]]]; try done.
    rewrite !andb_true_iff, !negb_true_iff, !bool_decide_eq_false.
    intros [[[? ?] ?] ?]. exists cluster, position. by rewrite <- Hjoin.
  - intros (cluster & position & -> & Hc & Hp & Hdc & Hdp).
    assert (forall l, forallb is_digit l = true -> 58 ∉ l) as Hcolon.
    { intros l Hl Hin. rewrite forallb_forall in Hl.
      apply list_elem_of_In, Hl in Hin. done. }
    change (js ":" ++ position) with (58 :: position).
    rewrite split_on_app, split_on_whole by auto.
    rewrite !andb_true_iff, !negb_true_iff, !bool_decide_eq_false. done.
Qed.

(** X2: [looksLikeRID] accepts exactly the strings that, once trimmed,
    are a hash sign, one or more digits, a colon and one or more digits,
    where the hash sign may be missing when [requireHash] is false; a value
    that is not a string is never accepted. *)
Theorem looksLikeRID_spec rid requireHash :
  looksLikeRID rid requireHash = true <->
  exists s hash cluster position,
    rid = VString s
    /\ trim s = hash ++ cluster ++ js ":" ++ position
    /\ (hash = js "#" \/ (requireHash = false /\ hash = []))
    /\ cluster <> [] /\ position <> []
    /\ forallb is_digit cluster = true /\ forallb is_digit position = true.
Proof.
  split.
  - destruct rid as [| | | |s| | |]; try done. cbn [looksLikeRID].
    destruct requireHash.
    + rewrite andb_true_iff. intros [Hhash Hrest].
      destruct (trim s) as [|c t] eqn:E; [done|]. simpl in Hhash.
      apply N.eqb_eq in Hhash as ->. change (slice1 (35 :: t)) with t in Hrest.
      apply digits_colon_digits_spec in Hrest as (cluster & position & -> & ?).
      exists s, (js "#"), cluster, position. rewrite E. split; [done|]. split; [done|].
      split; [by left|done].
    + unfold strip_hash. destruct (startsWith 35 (trim s)) eqn:Hhash.
      * destruct (trim s) as [|c t] eqn:E; [done|]. simpl in Hhash.
        apply N.eqb_eq in Hhash as ->. change (slice1 (35 :: t)) with t. intros Hrest.
        apply digits_colon_digits_spec in Hrest as (cluster & position & -> & ?).
        exists s, (js "#"), cluster, position. rewrite E. split; [done|]. split; [done|].
        split; [by left|done].
      * intros Hrest.
        apply digits_colon_digits_spec in Hrest as (cluster & position & Heq & ?).
        exists s, [], cluster, position. split; [done|]. split; [done|].
        split; [by right|done].
  - intros (s & hash & cluster & position & -> & Htrim & Hhash & Hc & Hp & Hdc & Hdp).
    cbn [looksLikeRID]. rewrite Htrim.
    assert (digits_colon_digits (cluster ++ js ":" ++ position) = true) as Hdigits.
    { apply digits_colon_digits_spec. by exists cluster, position. }
    destruct Hhash as [->|[-> ->]].
    + change (js "#" ++ ?x) with (35 :: x).
      by destruct requireHash.
    + simpl. unfold strip_hash.
      destruct cluster as [|c cluster]; [done|]. simpl in Hdc.
      apply andb_true_iff in Hdc as [Hd _]. cbn [app startsWith].
      destruct (N.eqb_spec c 35) as [->|_]; [done|]. done.
Qed.

Lemma drop_whitespace_id s :
  match s with c :: _ => is_whitespace c = false | [] => True end ->
  drop_whitespace s = s.
Proof. destruct s as [|c s]; [done|]. simpl. by intros ->. Qed.

Lemma drop_whitespace_head s :
  match drop_whitespace s with c :: _ => is_whitespace c = false | [] => True end.
Proof.
  induction s as [|c s IH]; [done|]. simpl.
  destruct (is_whitespace c) eqn:E; [done|]. simpl. done.
Qed.

Lemma drop_whitespace_fixed s :
  drop_whitespace s = s <->
  match s with c :: _ => is_whitespace c = false | [] => True end.
Proof.
  split; [|apply drop_whitespace_id].
  intros H. rewrite <- H. apply drop_whitespace_head.
Qed.

Lemma drop_whitespace_suffix s : drop_whitespace s `suffix_of` s.
Proof.
  induction s as [|c s IH]; [done|]. simpl.
  destruct (is_whitespace c); [|done]. by apply suffix_cons_r.
Qed.

Lemma trim_fixed s :
  trim s = s <->
  match s with c :: _ => is_whitespace c = false | [] => True end
  /\ match reverse s with c :: _ => is_whitespace c = false | [] => True end.
Proof.
  unfold trim. split.
  - intros H.
    assert (length (drop_whitespace s) = length s) as Hlen.
    { pose proof (drop_whitespace_suffix s) as H1.
      pose proof (drop_whitespace_suffix (reverse (drop_whitespace s))) as H2.
      apply suffix_length in H1, H2. rewrite !length_reverse in H2.
      apply (f_equal length) in H. rewrite length_reverse in H. lia. }
    assert (drop_whitespace s = s) as Hs.
    { destruct (drop_whitespace_suffix s) as [k Hk].
      assert (k = []) as ->; [|done].
      apply (f_equal length) in Hk. rewrite length_app in Hk.
      destruct k; [done|simpl in Hk; lia]. }
    rewrite Hs in H. split; [by apply drop_whitespace_fixed|].
    apply drop_whitespace_fixed. apply (f_equal reverse) in H.
    by rewrite reverse_involutive in H.
  - intros [H1 H2]. rewrite (drop_whitespace_id s) by done.
    rewrite (drop_whitespace_id (reverse s)) by done. apply reverse_involutive.
Qed.

Lemma is_digit_not_whitespace c : is_digit c = true -> is_whitespace c = false.
Proof.
  unfold is_digit, is_whitespace. rewrite andb_true_iff, !N.leb_le. intros [? ?].
  repeat match goal with
         | |- context [?a <=? ?b] => destruct (N.leb_spec a b); try lia
         | |- context [?a =? ?b] => destruct (N.eqb_spec a b); try lia
         end; done.
Qed.

(** X3: for a string that [looksLikeRID] accepts without requiring the
    hash sign, the text from which [conditionClause] makes the record
    identifier (a hash sign before the string without its leading hash
    sign) is the text of a record identifier if and only if the string has
    no whitespace around it: the check trims the string, the conversion
    does not. *)
Theorem looksLikeRID_RID_text s :
  looksLikeRID (VString s) false = true ->
  exists text,
    to_RID (VString s) = VRID text
    /\ (is_RID_text text = true <-> trim s = s).
Proof.
  intros Hlooks. eexists. split; [done|].
  unfold is_RID_text. change (js "#" ++ ?x) with (35 :: x).
  change (slice1 (35 :: ?x)) with x. cbn [startsWith].
  rewrite N.eqb_refl. cbn [andb].
  split.
  - intros Hdigits. apply digits_colon_digits_spec in Hdigits
      as (cluster & position & Heq & Hc & Hp & Hdc & Hdp).
    assert (forall l, forallb is_digit l = true ->
                      Forall (fun c => is_whitespace c = false) l) as Hws.
    { intros l Hl. apply Forall_forall. intros c Hin. apply is_digit_not_whitespace.
      rewrite forallb_forall in Hl. by apply Hl, list_elem_of_In. }
    assert (Forall (fun c => is_whitespace c = false) s) as Hall.
    { assert (Forall (fun c => is_whitespace c = false) (strip_hash s)) as Hstrip.
      { rewrite Heq. rewrite !Forall_app. split; [auto|]. split; [|auto].
        by repeat constructor. }
      unfold strip_hash in Hstrip. destruct (startsWith 35 s) eqn:Hhash; [|done].
      destruct s as [|c s]; [done|]. simpl in Hhash. apply N.eqb_eq in Hhash as ->.
      constructor; [done|]. done. }
    apply trim_fixed. split.
    + destruct s; [done|]. by inversion Hall.
    + apply Forall_reverse in Hall. destruct (reverse s); [done|]. by inversion Hall.
  - intros Htrim. cbn [looksLikeRID] in Hlooks. by rewrite Htrim in Hlooks.
Qed.

Lemma looksLikeRID_RID_text_witness :
  exists text,
    to_RID (VString (js "4:10")) = VRID text
    /\ (is_RID_text text = true <-> trim (js "4:10") = js "4:10").
Proof. apply looksLikeRID_RID_text. vm_compute. reflexivity. Defined.

Lemma castToRID_VObject fields :
  castToRID (VObject fields)
  = castToRID (default VUndefined (obj_get (js "@rid") fields)).
Proof.
  induction fields as [|[key v] rest IH]; [done|].
  cbn [obj_get]. destruct (bool_decide (key = js "@rid")) eqn:E.
  - cbn [castToRID]. by rewrite E.
  - rewrite <- IH. cbn [castToRID]. by rewrite E.
Qed.

Lemma castToRID_returns_RID string rid :
  castToRID string = Ok rid ->
  (exists text, rid = VRID text) /\ castToRID rid = Ok rid.
Proof.
  revert string. fix IH 1. intros [| | | |s|s|items|fields].
  1-7: clear IH; try done.
  - cbn. intros [= <-]. eauto.
  - cbn. intros [= <-]. eauto.
  - cbn [castToRID].
    assert (Forall (fun kv : jsstring * value =>
                      castToRID kv.2 = Ok rid ->
                      (exists text, rid = VRID text) /\ castToRID rid = Ok rid) fields)
      as Hfields.
    { induction fields as [|[key v] rest IHrest]; constructor; [|exact IHrest].
      exact (IH v). }
    clear IH. induction Hfields as [|[key v] rest Hv _ IHrest]; [done|].
    destruct (bool_decide (key = js "@rid")); [exact Hv|exact IHrest].
Qed.

(** X4: a value that holds a value under ['@rid'], directly or through
    objects nested under ['@rid'], is cast by [castToRID] as the value it
    holds is; the cast throws a [TypeError] when the innermost object has no
    ['@rid']. When [castToRID] returns, the result is a record identifier,
    and casting the result again gives the same result. *)
Theorem castToRID_idempotent string inner :
  rid_at string inner ->
  castToRID string = castToRID inner
  /\ (forall fields,
        inner = VObject fields -> obj_get (js "@rid") fields = None ->
        castToRID string = Throw TypeError)
  /\ (forall rid,
        castToRID string = Ok rid ->
        (exists text, rid = VRID text) /\ castToRID rid = Ok rid).
Proof.
  intros Hat.
  assert (castToRID string = castToRID inner) as Hinner.
  { induction Hat as [v|fields v inner Hget _ IH]; [done|].
    by rewrite castToRID_VObject, Hget. }
  split; [done|]. split; [|apply castToRID_returns_RID].
  intros fields -> Hnone. by rewrite Hinner, castToRID_VObject, Hnone.
Qed.

Lemma castToRID_idempotent_witness :
  castToRID (VObject [(js "name", VString (js "x"));
                      (js "@rid", VObject [(js "@rid", VString (js "4:10"))])])
  = Ok (VRID (js "#4:10"))
  /\ castToRID (VRID (js "#4:10")) = Ok (VRID (js "#4:10")).
Proof.
  destruct (castToRID_idempotent
              (VObject [(js "name", VString (js "x"));
                        (js "@rid", VObject [(js "@rid", VString (js "4:10"))])])
              (VString (js "4:10"))) as (Hcast & _ & Hagain).
  - eapply rid_below; [reflexivity|]. eapply rid_below; [reflexivity|]. apply rid_here.
  - split; [exact Hcast|]. apply (Hagain _ Hcast).
Defined.


(** ** The query-string parser *)

Lemma Object_entries_Permutation {A} (obj : list (jsstring * A)) : Object_entries obj ≡ₚ obj.
Proof.
  unfold Object_entries. rewrite merge_sort_Permutation.
  induction obj as [|[key v] obj IH]; [done|].
  cbn [omap list_omap]. rewrite filter_cons. cbn [fst].
  destruct (array_index key) as [index|]; cbn [fmap option_fmap option_map].
  - rewrite decide_False by done. cbn [fmap list_fmap app snd]. by rewrite IH.
  - rewrite decide_True by done. rewrite <- Permutation_middle. by rewrite IH.
Qed.

Lemma Object_entries_nil {A} : Object_entries (@nil (jsstring * A)) = [].
Proof. done. Qed.

Lemma Object_entries_singleton {A} (key : jsstring) (v : A) :
  Object_entries [(key, v)] = [(key, v)].
Proof.
  unfold Object_entries. cbn [omap list_omap]. rewrite filter_cons, filter_nil. cbn [fst].
  destruct (array_index key) as [index|]; cbn [fmap option_fmap option_map].
  - by rewrite decide_False by done.
  - by rewrite decide_True by done.
Qed.

Lemma flatten_entry_PObject children newPrefix :
  flatten_entry (PObject children) newPrefix
  = Object_entries ((fun entry => (entry.1, flatten_entry entry.2)) <$> children)
      ≫= (fun '(key, flatten) => flatten (newPrefix ++ [key])).
Proof.
  cbn [flatten_entry]. f_equal. f_equal.
  induction children as [|[key value] rest IH]; [done|]. by rewrite IH.
Qed.

Section MergeSortFmap.
Context {A B : Type} (R : relation A) (R' : relation B)
  `{!forall x y, Decision (R x y)} `{!forall x y, Decision (R' x y)}.
Variable h : A -> B.
Hypothesis HR : forall x y, R x y <-> R' (h x) (h y).

(** The stack of the sort with every run mapped. *)
Local Abbreviation mapped st :=
  ((fun runs : option (list A) => (fun run : list A => h <$> run) <$> runs) <$> st).

Lemma list_merge_fmap l1 l2 :
  list_merge R' (h <$> l1) (h <$> l2) = h <$> list_merge R l1 l2.
Proof.
  revert l2. induction l1 as [|x1 l1 IH1]; intros l2.
  { by rewrite fmap_nil, !list_merge_nil_l. }
  induction l2 as [|x2 l2 IH2].
  { by rewrite fmap_nil, !list_merge_nil_r. }
  rewrite !fmap_cons, !list_merge_cons.
  destruct (decide (R x1 x2)) as [Hle|Hnle].
  - rewrite decide_True by (by apply HR). rewrite fmap_cons. f_equal.
    rewrite <- IH1. by rewrite fmap_cons.
  - rewrite decide_False by (by rewrite <- HR). rewrite fmap_cons. f_equal.
    rewrite <- IH2. by rewrite fmap_cons.
Qed.

Lemma merge_list_to_stack_fmap (st : list (option (list A))) (l : list A) :
  merge_list_to_stack R' (mapped st) (h <$> l) = mapped (merge_list_to_stack R st l).
Proof.
  revert l. induction st as [|[l'|] st IH]; intros l; [done| |done].
  cbn [fmap list_fmap option_fmap option_map merge_list_to_stack].
  f_equal. rewrite list_merge_fmap. apply IH.
Qed.

Lemma merge_stack_fmap (st : list (option (list A))) :
  merge_stack R' (mapped st) = h <$> merge_stack R st.
Proof.
  induction st as [|[l|] st IH]; [done| |done].
  cbn [fmap list_fmap option_fmap option_map merge_stack].
  by rewrite IH, list_merge_fmap.
Qed.

Lemma merge_sort_fmap (l : list A) : merge_sort R' (h <$> l) = h <$> merge_sort R l.
Proof.
  unfold merge_sort.
  change (@nil (option (list B))) with (mapped (@nil (option (list A)))).
  generalize (@nil (option (list A))). induction l as [|x l IH]; intros st.
  - apply merge_stack_fmap.
  - cbn [fmap list_fmap merge_sort_aux].
    change [h x] with (h <$> [x]). rewrite merge_list_to_stack_fmap. apply IH.
Qed.
End MergeSortFmap.

Lemma Object_entries_fmap {A B : Type} (g : jsstring * A -> jsstring * B)
    (obj : list (jsstring * A)) :
  (forall entry, (g entry).1 = entry.1) ->
  Object_entries (g <$> obj) = g <$> Object_entries obj.
Proof.
  intros Hkey. unfold Object_entries. rewrite fmap_app. f_equal.
  - assert (omap (fun entry => (fun index => (index, entry)) <$> array_index entry.1)
              (g <$> obj)
            = (fun indexed : N * (jsstring * A) => (indexed.1, g indexed.2))
                <$> omap (fun entry => (fun index => (index, entry)) <$> array_index entry.1)
                      obj) as ->.
    { induction obj as [|entry obj IH]; [done|].
      rewrite fmap_cons. cbn [omap list_omap]. rewrite Hkey, IH.
      by destruct (array_index entry.1). }
    rewrite (merge_sort_fmap index_le index_le
               (fun indexed : N * (jsstring * A) => (indexed.1, g indexed.2))) by done.
    rewrite <- !list_fmap_compose. by apply list_fmap_ext.
  - induction obj as [|entry obj IH]; [done|].
    rewrite fmap_cons, !filter_cons, Hkey.
    destruct (decide (array_index entry.1 = None)); by rewrite IH.
Qed.

(** The flattened form of an object, entry by entry. *)
Lemma flattenQueryParams_entries params prefixList :
  flattenQueryParams params prefixList
  = Object_entries params
      ≫= (fun '(key, value) =>
            match value with
            | PObject children => flattenQueryParams children (prefixList ++ [key])
            | PValue value => [mkFlat (prefixList ++ [key]) value]
            end).
Proof.
  unfold flattenQueryParams. rewrite flatten_entry_PObject.
  rewrite Object_entries_fmap by done.
  rewrite list_fmap_bind. apply list_bind_ext; [|done].
  intros [key [value|children]]; done.
Qed.

Lemma param_induction (P : param -> Prop) :
  (forall value, P (PValue value)) ->
  (forall entries, Forall (fun kv => P kv.2) entries -> P (PObject entries)) ->
  forall p, P p.
Proof.
  intros Hvalue Hobject. fix IH 1. intros [value|entries].
  - apply Hvalue.
  - apply Hobject. induction entries as [|[key child] rest IHrest]; constructor.
    + exact (IH child).
    + exact IHrest.
Qed.

Lemma leaf_at_entries entries path value :
  leaf_at entries path value
  <-> exists key child,
        (key, child) ∈ entries
        /\ match child with
           | PValue v => path = [key] /\ v = value
           | PObject children =>
               exists path', path = key :: path' /\ leaf_at children path' value
           end.
Proof.
  split.
  - intros H. inversion H as [? key ? Hin|? key children path' ? Hin Hleaf]; subst.
    + by exists key, (PValue value).
    + exists key, (PObject children). eauto.
  - intros (key & [v|children] & Hin & Hchild).
    + destruct Hchild as [-> ->]. by constructor.
    + destruct Hchild as (path' & -> & Hleaf). by econstructor.
Qed.

Lemma flatten_leaf_at params prefixList attrs value :
  mkFlat attrs value ∈ flattenQueryParams params prefixList
  <-> exists path, attrs = prefixList ++ path /\ leaf_at params path value.
Proof.
  unfold flattenQueryParams.
  enough (forall p prefixList,
            mkFlat attrs value ∈ flatten_entry p prefixList
            <-> match p with
                | PValue v => attrs = prefixList /\ v = value
                | PObject children =>
                    exists path, attrs = prefixList ++ path /\ leaf_at children path value
                end) as H by apply (H (PObject params)).
  clear params prefixList.
  induction p as [v|entries IH] using param_induction; intros prefixList.
  - cbn [flatten_entry]. rewrite list_elem_of_singleton. split; [by intros [= -> ->]|].
    by intros [-> ->].
  - rewrite flatten_entry_PObject, list_elem_of_bind.
    setoid_rewrite leaf_at_entries. rewrite Forall_forall in IH. split.
    + intros ([key flatten] & Hitem & Hin). rewrite Object_entries_Permutation in Hin.
      apply list_elem_of_fmap in Hin as ([key' child] & [= -> ->] & Hin). cbn [fst snd] in *.
      apply (IH _ Hin) in Hitem. cbn [snd] in Hitem.
      destruct child as [v|children].
      * destruct Hitem as [-> ->]. exists [key']. split; [done|]. by exists key', (PValue value).
      * destruct Hitem as (path & -> & Hleaf). exists (key' :: path).
        rewrite <- app_assoc. split; [done|]. exists key', (PObject children). eauto.
    + intros (path & -> & key & child & Hin & Hchild).
      exists (key, flatten_entry child). split.
      * apply (IH _ Hin). cbn [snd]. destruct child as [v|children].
        -- by destruct Hchild as [-> ->].
        -- destruct Hchild as (path' & -> & Hleaf). exists path'.
           by rewrite <- app_assoc.
      * rewrite Object_entries_Permutation. apply list_elem_of_fmap.
        by exists (key, child).
Qed.

Lemma flatten_empty_object key prefixList :
  flattenQueryParams [(key, PObject [])] prefixList = [].
Proof.
  unfold flattenQueryParams. rewrite flatten_entry_PObject. cbn [fmap list_fmap fst snd].
  rewrite Object_entries_singleton. reflexivity.
Qed.

Lemma leaf_at_path params path value : leaf_at params path value -> path <> [].
Proof. by intros []. Qed.

(** X5: every item of the flattened form is a leaf of the nested object
    with the keys on the way to it, after the given prefix, and every leaf
    is an item; no item has an empty list of keys, and a nested object
    without entries gives no item. *)
Theorem flattenQueryParams_leaves params prefixList :
  (forall attrs value,
     mkFlat attrs value ∈ flattenQueryParams params prefixList
     <-> exists path, attrs = prefixList ++ path /\ leaf_at params path value)
  /\ Forall (fun item => (length prefixList < length (attrList item))%nat)
       (flattenQueryParams params prefixList)
  /\ (forall key, flattenQueryParams [(key, PObject [])] prefixList = []).
Proof.
  split; [intros; apply flatten_leaf_at|]. split; [|intros; apply flatten_empty_object].
  apply Forall_forall. intros [attrs value] Hin.
  apply flatten_leaf_at in Hin as (path & -> & Hleaf%leaf_at_path).
  cbn [attrList]. rewrite length_app. destruct path; [done|]. simpl. lia.
Qed.

Lemma chain_attrs attr keys :
  traversal_attrs (chain attr keys) = attr :: (Some <$> keys).
Proof.
  revert attr. induction keys as [|key rest IH]; intros attr; [done|].
  simpl. by rewrite IH.
Qed.

Lemma chain_links attr keys : links_marked (chain attr keys) = true.
Proof. revert attr. induction keys as [|key rest IH]; intros attr; [done|]. apply IH. Qed.

(** X6: the attributes along the traversal of a list of keys are the
    keys, in order; every object of the traversal but the last is marked as
    a link to its child; the traversal of the empty list is the object
    whose attribute is [undefined]. *)
Theorem formatTraversal_attrs attrList :
  traversal_attrs (formatTraversal attrList)
  = match attrList with [] => [None] | _ => Some <$> attrList end
  /\ links_marked (formatTraversal attrList) = true.
Proof.
  unfold formatTraversal. rewrite chain_attrs, chain_links.
  by destruct attrList.
Qed.

Section ParseFacts.
Context {Compound : Type}.
Variables MAX_LIMIT MAX_NEIGHBORS : Z.
Variable castRangeInt : option query_value -> Z -> option Z -> result value.
Variable castBoolean : option query_value -> result value.
Variable parseCompoundAttr : jsstring -> result (attribute Compound).


Lemma mapM_result_cons {A B} (f : A -> result B) x l :
  mapM f (x :: l) = (y ← f x; k ← mapM f l; Ok (y :: k)).
Proof. done. Qed.

Lemma parse_conditions_mapM or compoundSyntax queryConditions query topLevelOr :
  parse_conditions parseCompoundAttr or compoundSyntax queryConditions query topLevelOr
  = (values ← mapM (parse_condition parseCompoundAttr compoundSyntax) queryConditions;
     let named (av : attribute Compound * parsed (attribute Compound)) :=
       match or with Some names => named_in names av.1 | None => false end in
     Ok (query ++ ((fun av => Some av.2) <$> filter (fun av => named av = false) values),
         topLevelOr ++ (snd <$> filter (fun av => named av = true) values))).
Proof.
  revert query topLevelOr.
  induction queryConditions as [|condition rest IH]; intros query topLevelOr.
  - cbn. by rewrite !app_nil_r.
  - cbn [parse_conditions]. rewrite mapM_result_cons.
    destruct (parse_condition parseCompoundAttr compoundSyntax condition) as [[attr value]|]; [|done].
    cbn [mbind result_bind].
    destruct (match or with Some names => named_in names attr | None => false end) eqn:E;
      rewrite IH; destruct (mapM _ rest) as [values|]; try done;
      cbn [mbind result_bind]; cbn zeta.
    + rewrite filter_cons_False by (cbn [fst]; congruence).
      rewrite filter_cons_True by done. cbn [fmap list_fmap]. by rewrite <- app_assoc.
    + rewrite filter_cons_True by done.
      rewrite filter_cons_False by (cbn [fst]; congruence).
      cbn [fmap list_fmap]. by rewrite <- app_assoc.
Qed.

Local Abbreviation special_of :=
  (special_argument MAX_LIMIT MAX_NEIGHBORS castRangeInt castBoolean).

Lemma special_leaf_cons name item rest :
  special_leaf name (item :: rest)
  = match special_leaf name rest with
    | Some value => Some value
    | None => if bool_decide (attrList item = [name]) then Some (flat_value item) else None
    end.
Proof.
  unfold special_leaf. rewrite filter_cons.
  destruct (decide (attrList item = [name])) as [Heq|Hne].
  - rewrite bool_decide_true by done. rewrite fmap_cons.
    destruct (flat_value <$> filter _ rest) as [|v l] eqn:E; [done|].
    rewrite last_cons. by destruct (last (v :: l)).
  - rewrite bool_decide_false by done. by destruct (last _).
Qed.

Lemma single_key (attrs : list jsstring) name :
  match attrs with [attr] => Some attr | _ => None end = Some name <-> attrs = [name].
Proof. destruct attrs as [|attr [|]]; split; congruence. Qed.

Lemma stored_special_argument name value :
  name ∈ stored_special_names <-> is_Some (special_of name value).
Proof.
  unfold stored_special_names, special_argument.
  rewrite !elem_of_cons, elem_of_nil.
  repeat match goal with
         | |- context [bool_decide (name = ?x)] =>
             destruct (bool_decide_reflect (name = x))
         end; cbn [orb]; split; intros H; try (by eexists); try tauto;
    by destruct H.
Qed.

Lemma split_conditions_special flattened specialArgs queryConditions compoundSyntax
    specialArgs' queryConditions' compoundSyntax' :
  split_conditions (Compound := Compound) MAX_LIMIT MAX_NEIGHBORS castRangeInt
    castBoolean flattened specialArgs queryConditions compoundSyntax
  = Ok (specialArgs', queryConditions', compoundSyntax') ->
  forall name,
    match special_leaf name flattened with
    | Some value =>
        match special_of name value with
        | Some r => exists s, r = Ok s /\ obj_get name specialArgs' = Some s
        | None => obj_get name specialArgs' = obj_get name specialArgs
        end
    | None => obj_get name specialArgs' = obj_get name specialArgs
    end.
Proof.
  revert specialArgs queryConditions compoundSyntax.
  induction flattened as [|[attrs value] rest IH];
    intros specialArgs queryConditions compoundSyntax.
  { cbn. by intros [= <- _ _]. }
  cbn [split_conditions].
  set (attr := match attrs with [attr] => Some attr | _ => None end).
  assert (forall x, attr = Some x <-> attrs = [x]) as Hattr by apply single_key.
  (* what a branch that stores [s] under [key] has to show *)
  assert (forall key s args,
            attrs = [key] ->
            special_of key value = Some (Ok s) ->
            split_conditions MAX_LIMIT MAX_NEIGHBORS castRangeInt castBoolean rest
              (obj_set key s specialArgs) queryConditions args
            = Ok (specialArgs', queryConditions', compoundSyntax') ->
            forall name,
              match special_leaf name (mkFlat attrs value :: rest) with
              | Some value =>
                  match special_of name value with
                  | Some r => exists s, r = Ok s /\ obj_get name specialArgs' = Some s
                  | None => obj_get name specialArgs' = obj_get name specialArgs
                  end
              | None => obj_get name specialArgs' = obj_get name specialArgs
              end) as Hstore.
  { intros key s args -> Hkey Hsplit name. specialize (IH _ _ _ Hsplit name).
    rewrite special_leaf_cons. cbn [attrList flat_value].
    assert (name <> key ->
            obj_get name (obj_set key s specialArgs) = obj_get name specialArgs) as Hne
      by (intros ?; by apply obj_get_set_ne).
    destruct (special_leaf name rest) as [v'|].
    - destruct (special_of name v') eqn:E; [done|]. rewrite IH. apply Hne. intros ->.
      assert (is_Some (special_of key v')) as [? ?]; [|congruence].
      apply stored_special_argument. apply (stored_special_argument key value).
      by rewrite Hkey.
    - destruct (bool_decide_reflect ([key] = [name])) as [[= ->]|Hother].
      + rewrite Hkey. eexists. split; [done|]. rewrite IH. apply obj_get_set_eq.
      + rewrite IH. apply Hne. congruence. }
  (* what a branch that stores nothing has to show *)
  assert (forall conditions args,
            (forall key, attrs = [key] -> special_of key value = None) ->
            split_conditions MAX_LIMIT MAX_NEIGHBORS castRangeInt castBoolean rest
              specialArgs conditions args
            = Ok (specialArgs', queryConditions', compoundSyntax') ->
            forall name,
              match special_leaf name (mkFlat attrs value :: rest) with
              | Some value =>
                  match special_of name value with
                  | Some r => exists s, r = Ok s /\ obj_get name specialArgs' = Some s
                  | None => obj_get name specialArgs' = obj_get name specialArgs
                  end
              | None => obj_get name specialArgs' = obj_get name specialArgs
              end) as Hkeep.
  { intros conditions args Hkey Hsplit name. specialize (IH _ _ _ Hsplit name).
    rewrite special_leaf_cons. cbn [attrList flat_value].
    destruct (special_leaf name rest) as [v'|]; [done|].
    destruct (bool_decide_reflect (attrs = [name])) as [Hname|Hother]; [|done].
    by rewrite (Hkey _ Hname). }
  clear IH.
  repeat match goal with
         | |- context [bool_decide (attr = Some ?x)] =>
             destruct (bool_decide_reflect (attr = Some x)) as [Heq%Hattr|?]
         end.
  all: try match goal with
           | |- context [castRangeInt ?x ?a ?b] =>
               destruct (castRangeInt x a b) as [v|] eqn:Hcast;
               cbn [mbind result_bind]; [|done]
           | |- context [castBoolean ?x] =>
               destruct (castBoolean x) as [v|] eqn:Hcast;
               cbn [mbind result_bind]; [|done]
           | |- context [split_names ?x] =>
               destruct (split_names x) as [names|] eqn:Hcast;
               cbn [mbind result_bind]; [|done]
           end.
  1-6: apply Hstore; [done|]; unfold special_argument; repeat (simpl; decide_keys);
    by rewrite Hcast.
  - apply Hkeep. intros key ->. injection Heq as ->.
    unfold special_argument. by repeat (simpl; decide_keys).
  - apply Hkeep. intros key ->. unfold special_argument.
    repeat match goal with
           | H : attr <> Some ?x |- _ =>
               rewrite (bool_decide_false (key = x)) by (intros ->; apply H; by apply Hattr);
               clear H
           end.
    done.
Qed.
Lemma split_conditions_conditions flattened specialArgs queryConditions compoundSyntax
    specialArgs' queryConditions' compoundSyntax' :
  split_conditions (Compound := Compound) MAX_LIMIT MAX_NEIGHBORS castRangeInt
    castBoolean flattened specialArgs queryConditions compoundSyntax
  = Ok (specialArgs', queryConditions', compoundSyntax') ->
  queryConditions'
  = queryConditions
    ++ (condition_of <$> filter (fun item => is_special_item item = false) flattened)
  /\ compoundSyntax'
     = from_option truthy_leaf compoundSyntax
         (special_leaf (js "compoundSyntax") flattened).
Proof.
  revert specialArgs queryConditions compoundSyntax.
  induction flattened as [|[attrs value] rest IH];
    intros specialArgs queryConditions compoundSyntax.
  { cbn. intros [= _ <- <-]. by rewrite app_nil_r. }
  cbn [split_conditions]. rewrite special_leaf_cons. cbn [attrList flat_value].
  set (attr := match attrs with [attr] => Some attr | _ => None end).
  assert (forall x, attr = Some x <-> attrs = [x]) as Hattr by apply single_key.
  repeat match goal with
         | |- context [bool_decide (attr = Some ?x)] =>
             destruct (bool_decide_reflect (attr = Some x)) as [Heq%Hattr|?]
         end.
  all: try match goal with
           | |- context [castRangeInt ?x ?a ?b] =>
               destruct (castRangeInt x a b) as [v|] eqn:Hcast;
               cbn [mbind result_bind]; [|done]
           | |- context [castBoolean ?x] =>
               destruct (castBoolean x) as [v|] eqn:Hcast;
               cbn [mbind result_bind]; [|done]
           | |- context [split_names ?x] =>
               destruct (split_names x) as [names|] eqn:Hcast;
               cbn [mbind result_bind]; [|done]
           end.
  all: intros [-> ->]%IH.
  1-7: subst attrs; rewrite filter_cons_False by (by vm_compute).
  1-6: split; [done|];
    rewrite (bool_decide_false (_ = [js "compoundSyntax"])) by (vm_compute; congruence);
    by destruct (special_leaf _ rest).
  - split; [done|]. rewrite bool_decide_true by done. by destruct (special_leaf _ rest).
  - assert (is_special_item (mkFlat attrs value) = false) as Hregular.
    { unfold is_special_item. cbn [attrList]. destruct attrs as [|a [|]]; try done.
      apply bool_decide_eq_false_2. unfold special_names.
      rewrite !elem_of_cons, elem_of_nil.
      intros Hin. repeat destruct Hin as [->|Hin]; try done;
        match goal with H : attr <> Some ?x |- _ => by apply H end. }
    rewrite filter_cons_True by done. rewrite fmap_cons, <- app_assoc. split.
    + f_equal. unfold condition_of. cbn [attrList flat_value]. f_equal.
      subst attr. by destruct attrs as [|a [|]].
    + rewrite bool_decide_false; [by destruct (special_leaf _ rest)|].
      intros ->. unfold attr in *. done.
Qed.

(** X7: the [where] list of a parsed query. The regular conditions are
    the flattened items that are not special arguments, in the order of the
    flattened form, which is that of [Object.entries] at every level (the
    keys that are array indices first, in ascending order, then the other
    keys in the order of the query string), each parsed by [parseValue]
    under its attribute (after [parseCompoundAttr] for a name with a dot, or
    for every name when [compoundSyntax] is given with a truthy text).
    Without the argument [or] the list has the parsed value of every
    condition, in order. With it, the values of the conditions whose
    attribute is a name listed in [or] are taken out and appended at the
    end: as one OR clause when they are two or more, as the value itself
    when there is one, and as [undefined] when there is none. A query string
    is only parsed when the value of every regular condition is a string. *)
Theorem parse_where queryParams r :
  parse MAX_LIMIT MAX_NEIGHBORS castRangeInt castBoolean parseCompoundAttr queryParams
  = Ok r ->
  (forall params prefixList,
     flattenQueryParams params prefixList
     = Object_entries params
         ≫= (fun '(key, value) =>
               match value with
               | PObject children => flattenQueryParams children (prefixList ++ [key])
               | PValue value => [mkFlat (prefixList ++ [key]) value]
               end))
  /\ let flattened := flattenQueryParams queryParams [] in
     let conditions :=
       condition_of <$> filter (fun item => is_special_item item = false) flattened in
     let compoundSyntax :=
       from_option truthy_leaf false (special_leaf (js "compoundSyntax") flattened) in
     exists values,
       mapM (parse_condition parseCompoundAttr compoundSyntax) conditions = Ok values
       /\ match special_leaf (js "or") flattened with
          | Some given =>
              exists names,
                given = Some (QString names)
                /\ let named (av : attribute Compound * parsed (attribute Compound)) :=
                     named_in (split_on 44 names) av.1 in
                   query_where r
                   = ((fun av => Some av.2) <$> filter (fun av => named av = false) values)
                     ++ [top_level_or (snd <$> filter (fun av => named av = true) values)]
          | None => query_where r = (fun av => Some av.2) <$> values
          end
       /\ Forall (fun item =>
                    is_special_item item = false ->
                    exists text, flat_value item = Some (QString text)) flattened.
Proof.
  intros Hparse. split; [apply flattenQueryParams_entries|]. revert Hparse.
  unfold parse. intros Hparse.
  destruct (split_conditions _ _ _ _ _ _ _ _) as [[[specialArgs queryConditions] cs]|]
    eqn:Hsplit; [|done].
  cbn [mbind result_bind] in Hparse.
  pose proof (split_conditions_special _ _ _ _ _ _ _ Hsplit (js "or")) as Hor.
  apply split_conditions_conditions in Hsplit as [-> ->]. cbn [app] in Hparse.
  rewrite parse_conditions_mapM in Hparse.
  destruct (mapM _ _) as [values|] eqn:Hvalues; [|done].
  cbn [mbind result_bind] in Hparse. cbn zeta in Hparse. cbn [app] in Hparse.
  cbn zeta. exists values. split; [done|]. split.
  - destruct (special_leaf (js "or") _) as [given|].
    + unfold special_argument in Hor. repeat (simpl in Hor; decide_keys).
      destruct Hor as (s & Hs & Hget).
      destruct given as [[names|]|]; try done. injection Hs as <-.
      rewrite Hget in Hparse. exists names. split; [done|]. cbn zeta.
      injection Hparse as <-. cbn [query_where]. f_equal.
      set (grouped := snd <$> _). unfold top_level_or.
      destruct grouped as [|? [|]]; try done.
    + cbn [obj_get] in Hor. rewrite Hor in Hparse. injection Hparse as <-.
      cbn [query_where]. f_equal. clear.
      induction values as [|av values IH]; [done|].
      rewrite filter_cons_True by done. by rewrite IH.
  - clear Hparse Hor. revert values Hvalues.
    generalize (from_option truthy_leaf false
                  (special_leaf (js "compoundSyntax")
                     (flattenQueryParams queryParams []))).
    intros compoundSyntax.
    induction (flattenQueryParams queryParams []) as [|item rest IH]; intros values;
      [constructor|].
    rewrite filter_cons. destruct (decide (is_special_item item = false)) as [Hitem|Hitem].
    + rewrite fmap_cons, mapM_result_cons.
      destruct (parse_condition _ _ _) as [[attr value]|] eqn:Hcondition; [|done].
      cbn [mbind result_bind].
      destruct (mapM _ _) as [values'|] eqn:Hrest; [|done]. intros _.
      constructor; [|by eapply IH]. intros _.
      unfold parse_condition, condition_of in Hcondition.
      destruct (match attrList item with [] => _ | _ => _ end) as [| |];
        cbn [mbind result_bind] in Hcondition.
      all: repeat match type of Hcondition with
                  | context [if ?b then _ else _] => destruct b
                  | context [parseCompoundAttr ?x] => destruct (parseCompoundAttr x)
                  end; cbn [mbind result_bind] in Hcondition; try done.
      all: destruct (flat_value item) as [[text|]|]; try done; eauto.
    + intros Hvalues. constructor; [done|by eapply IH].
Qed.
(** X8: the special arguments of a parsed query. The result has an
    argument under a name exactly when the name is [neighbors], [limit],
    [skip], [returnProperties] or [activeOnly] and the query string gives a
    leaf under that single key; the argument is the cast of that leaf:
    [castRangeInt] with the bounds 0 and [MAX_NEIGHBORS], 1 and [MAX_LIMIT],
    or 0 and no upper bound, the names between the commas, or
    [castBoolean]. The arguments [or] and [compoundSyntax] are never part
    of the result. *)
Theorem parse_special_args queryParams r :
  parse (Compound := Compound) MAX_LIMIT MAX_NEIGHBORS castRangeInt castBoolean
    parseCompoundAttr queryParams
  = Ok r ->
  let flattened := flattenQueryParams queryParams [] in
  (forall name s,
     obj_get name (special_args r) = Some s
     <-> name ∈ [js "neighbors"; js "limit"; js "skip"; js "returnProperties";
                 js "activeOnly"]
         /\ exists given,
              special_leaf name flattened = Some given
              /\ special_of name given = Some (Ok s))
  /\ (forall given limit,
        special_leaf (js "limit") flattened = Some given ->
        obj_get (js "limit") (special_args r) = Some limit ->
        exists v, castRangeInt given 1 (Some MAX_LIMIT) = Ok v /\ limit = SpecialValue v).
Proof.
  unfold parse. intros Hparse.
  destruct (split_conditions _ _ _ _ _ _ _ _) as [[[specialArgs queryConditions] cs]|]
    eqn:Hsplit; [|done].
  cbn [mbind result_bind] in Hparse.
  pose proof (split_conditions_special _ _ _ _ _ _ _ Hsplit) as Hspecial.
  clear Hsplit. destruct (parse_conditions _ _ _ _ _ _) as [[query topLevelOr]|]; [|done].
  cbn [mbind result_bind] in Hparse. cbn zeta.
  set (flattened := flattenQueryParams queryParams []) in *.
  assert (forall name s,
            obj_get name specialArgs = Some s
            <-> name ∈ stored_special_names
                /\ exists given, special_leaf name flattened = Some given
                                 /\ special_of name given = Some (Ok s)) as Hstored.
  { intros name s. specialize (Hspecial name). cbn [obj_get] in Hspecial. split.
    - intros Hget. destruct (special_leaf name flattened) as [given|]; [|congruence].
      destruct (special_of name given) as [r'|] eqn:E; [|congruence].
      destruct Hspecial as (s' & -> & Hs'). split.
      + apply (stored_special_argument name given). by rewrite E.
      + exists given. split; [done|]. congruence.
    - intros (_ & given & Hgiven & Hs). rewrite Hgiven, Hs in Hspecial.
      by destruct Hspecial as (s' & [= <-] & Hs'). }
  assert (special_args r = obj_delete (js "or") specialArgs) as ->.
  { destruct (obj_get (js "or") specialArgs) as [[v|names]|] eqn:Hor.
    - apply Hstored in Hor as (_ & given & _ & Hs).
      unfold special_argument in Hs. repeat (simpl in Hs; decide_keys).
      by destruct (split_names given).
    - by injection Hparse as <-.
    - injection Hparse as <-. cbn [special_args]. unfold obj_delete.
      clear -Hor. induction specialArgs as [|[k v] rest IH]; [done|].
      cbn [obj_get] in Hor. destruct (bool_decide_reflect (k = js "or")); [done|].
      rewrite filter_cons_True by done. by rewrite <- IH. }
  assert (forall name s,
            obj_get name (obj_delete (js "or") specialArgs) = Some s
            <-> name ∈ [js "neighbors"; js "limit"; js "skip"; js "returnProperties";
                        js "activeOnly"]
                /\ exists given, special_leaf name flattened = Some given
                                 /\ special_of name given = Some (Ok s)) as Hresult.
  { intros name s. rewrite obj_get_delete.
    destruct (bool_decide_reflect (js "or" = name)) as [<-|Hne].
    - split; [done|]. intros [Hin%(bool_decide_pack _) _]. by vm_compute in Hin.
    - rewrite Hstored. unfold stored_special_names.
      rewrite !elem_of_cons, !elem_of_nil. split; intros [Hin ?]; (split; [|done]).
      + repeat destruct Hin as [?|Hin]; auto 10; by subst.
      + repeat destruct Hin as [?|Hin]; auto 10; done. }
  split; [exact Hresult|].
  intros given limit Hgiven Hlimit. apply Hresult in Hlimit as (_ & given' & Hgiven' & Hs).
  assert (given' = given) as -> by congruence.
  unfold special_argument in Hs. repeat (simpl in Hs; decide_keys).
  destruct (castRangeInt given 1 (Some MAX_LIMIT)) as [v|]; [|done].
  injection Hs as <-. eauto.
Qed.
End ParseFacts.

Lemma parse_where_witness :
  exists r,
    example_parse example_indexed_queryParams = Ok r
    /\ query_where r
       = [Some (ParsedComparison (AttrName (js "1")) (Some (js "x")) None false);
          Some (ParsedComparison (AttrName (js "biotype")) (Some (js "gene")) None false);
          Some (ParsedComparison (AttrName (js "name")) (Some (js "kras")) None false)]
    /\ let flattened := flattenQueryParams example_indexed_queryParams [] in
       let conditions :=
         condition_of <$> filter (fun item => is_special_item item = false) flattened in
       let compoundSyntax :=
         from_option truthy_leaf false (special_leaf (js "compoundSyntax") flattened) in
       exists values,
         mapM (parse_condition (fun name => Ok (AttrName name)) compoundSyntax) conditions
         = Ok values
         /\ match special_leaf (js "or") flattened with
            | Some given =>
                exists names,
                  given = Some (QString names)
                  /\ let named (av : attribute Empty_set * parsed (attribute Empty_set)) :=
                       named_in (split_on 44 names) av.1 in
                     query_where r
                     = ((fun av => Some av.2) <$> filter (fun av => named av = false) values)
                       ++ [top_level_or
                             (snd <$> filter (fun av => named av = true) values)]
            | None => query_where r = (fun av => Some av.2) <$> values
            end
         /\ Forall (fun item =>
                      is_special_item item = false ->
                      exists text, flat_value item = Some (QString text)) flattened.
Proof.
  eexists. split; [vm_compute; reflexivity|].
  split; [vm_compute; reflexivity|].
  refine (proj2 (parse_where 1000 4 (fun given _ _ => example_cast given) example_cast
                   (fun name => Ok (AttrName name)) example_indexed_queryParams _ _)).
  vm_compute. reflexivity.
Defined.

Lemma parse_special_args_witness :
  exists r,
    example_parse example_queryParams = Ok r
    /\ forall given limit,
         special_leaf (js "limit") (flattenQueryParams example_queryParams []) = Some given ->
         obj_get (js "limit") (special_args r) = Some limit ->
         exists v, example_cast given = Ok v /\ limit = SpecialValue v.
Proof.
  eexists. split; [vm_compute; reflexivity|].
  apply (parse_special_args 1000 4 (fun given _ _ => example_cast given) example_cast
           (fun name => Ok (AttrName name)) example_queryParams).
  vm_compute. reflexivity.
Defined.


(** ** Plain and negated values *)

Lemma uri_items_plain s : 37 ∉ s -> uri_items s = Some (Literal <$> s).
Proof.
  induction s as [|c s IH]; [done|]. rewrite not_elem_of_cons. intros [Hc Hs].
  cbn [uri_items]. rewrite (IH Hs).
  destruct c as [|p]; [done|].
  do 6 (destruct p as [p|p|]; try done).
Qed.

Lemma utf8_items_literal s : utf8_items (Literal <$> s) = Some s.
Proof. induction s as [|c s IH]; [done|]. cbn. by rewrite IH. Qed.

Lemma decodeURIComponent_plain s : 37 ∉ s -> decodeURIComponent s = Ok s.
Proof.
  intros Hs. unfold decodeURIComponent. by rewrite uri_items_plain, utf8_items_literal.
Qed.

Lemma decodeURIComponent_cons c s :
  c <> 37 ->
  decodeURIComponent (c :: s)
  = match decodeURIComponent s with Ok d => Ok (c :: d) | Throw e => Throw e end.
Proof.
  intros Hc. unfold decodeURIComponent.
  assert (uri_items (c :: s)
          = match uri_items s with Some items => Some (Literal c :: items) | None => None end)
    as ->.
  { cbn [uri_items]. destruct c as [|p]; [done|].
    do 6 (destruct p as [p|p|]; try done). }
  destruct (uri_items s) as [items|]; [|done]. cbn [utf8_items].
  by destruct (utf8_items items).
Qed.

Section PlainValues.
Context {Attr : Type} (attr : Attr).

(** X9: a value without a percent sign and without a bar that does not
    start with an exclamation mark or a tilde and is not the text ["null"]
    is parsed to one equality comparison with that very text, not negated;
    the empty text is such a value. *)
Theorem parseValue_plain text :
  37 ∉ text -> 124 ∉ text ->
  startsWith 33 text = false -> startsWith 126 text = false ->
  text <> js "null" ->
  parseValue attr (QString text) = Ok (ParsedComparison attr (Some text) None false).
Proof.
  intros Hescape Hbar Hnot Htilde Hnull. unfold parseValue.
  rewrite split_on_whole by done. cbn [parseSubValues]. unfold parseSubValue.
  rewrite decodeURIComponent_plain by done. cbn [mbind result_bind].
  rewrite Hnot, Htilde. unfold jsstring_eqb. by rewrite bool_decide_false.
Qed.

(** X10: an exclamation mark before a value without a bar, whose decoded
    text does not itself start with an exclamation mark, changes nothing
    but the negation: the value with the mark is parsed to the parsed
    value without it with every comparison negated, and it fails with the
    same error when that one fails. *)
Theorem parseValue_negation text decoded :
  124 ∉ text ->
  decodeURIComponent text = Ok decoded ->
  startsWith 33 decoded = false ->
  parseValue attr (QString (js "!" ++ text))
  = match parseValue attr (QString text) with
    | Ok value => Ok (negated value)
    | Throw e => Throw e
    end.
Proof.
  intros Hbar Hdecoded Hnot. unfold parseValue.
  change (js "!" ++ text) with (33 :: text).
  rewrite !split_on_whole; [|done|by rewrite not_elem_of_cons]. cbn [parseSubValues].
  unfold parseSubValue. rewrite decodeURIComponent_cons by done. rewrite Hdecoded.
  cbn [mbind result_bind]. cbn [startsWith]. rewrite N.eqb_refl, Hnot.
  change (slice1 (33 :: decoded)) with decoded.
  destruct (startsWith 126 decoded).
  - destruct (bool_decide (1 < length (split_ws (slice1 decoded)))%nat).
    + destruct (existsb _ _); [done|]. cbn. f_equal. f_equal.
      rewrite <- list_fmap_compose. done.
    + destruct (bool_decide (length (slice1 decoded) < MIN_WORD_SIZE)%nat); [done|]. done.
  - done.
Qed.
End PlainValues.

Lemma parseValue_plain_witness :
  parseValue tt (QString (js "red")) = Ok (ParsedComparison tt (Some (js "red")) None false).
Proof.
  apply (parseValue_plain tt (js "red")).
  1-2: apply (bool_decide_unpack _); vm_compute; reflexivity.
  1-2: reflexivity.
  vm_compute. discriminate.
Defined.

Lemma parseValue_negation_witness :
  parseValue tt (QString (js "!" ++ js "~abcd%20efgh"))
  = match parseValue tt (QString (js "~abcd%20efgh")) with
    | Ok value => Ok (negated value)
    | Throw e => Throw e
    end.
Proof.
  apply (parseValue_negation tt (js "~abcd%20efgh") (js "~abcd efgh")).
  - apply (bool_decide_unpack _). vm_compute. reflexivity.
  - vm_compute. reflexivity.
  - reflexivity.
Defined.


(** ** The hops of a query *)

(** X11: [Follow.parse] never throws. It returns at most two sequences
    of one or three hops; every hop has the [activeOnly] of the query
    ([true] when the query has none) and is a hop that the constructor
    accepts: the constructor is never called with a type it refuses or
    with the type [both] and no depth. *)
Theorem Follow_parse_hops query :
  exists follow,
    Follow.parse query = Ok follow
    /\ (length follow <= 2)%nat
    /\ Forall (fun hops =>
                 (length hops = 1%nat \/ length hops = 3%nat)
                 /\ Forall (fun hop =>
                              Follow.activeOnly hop = default true (Follow.query_activeOnly query)
                              /\ Follow.new (Follow.classnames hop) (Follow.type hop)
                                   (Follow.depth hop) (Follow.activeOnly hop) = Ok hop)
                      hops)
         follow.
Proof.
  destruct query as [ancestors descendants fuzzyMatch activeOnly].
  destruct ancestors, descendants, fuzzyMatch as [depth|];
    try (destruct (Z.eqb_spec depth 0) as [->|Hdepth%Z.eqb_neq]);
    cbn; rewrite ?Hdepth; cbn; eexists; (split; [done|]); (split; [simpl; lia|]).
  all: repeat (constructor; try (split; [auto|])); try done.
Qed.

(** ** The bound values of a condition *)

Lemma bound_list_length c : length (bound_list c) = bound_values c.
Proof.
  induction c as [value operator negate|type comparisons IH] using cond_induction.
  - cbn. by destruct (is_null value).
  - cbn [bound_list bound_values]. induction IH as [|c rest Hc _ IHrest]; [done|].
    cbn. rewrite length_app. cbn in IHrest. by rewrite Hc, IHrest.
Qed.

Lemma numbered_dom start values :
  dom (numbered start values) = list_to_set (param_names start (length values)).
Proof.
  unfold numbered. rewrite dom_list_to_map_L. f_equal.
  rewrite fst_zip; [done|]. unfold param_names. by rewrite length_fmap, length_seq.
Qed.

Lemma numbered_app start values values' :
  numbered start (values ++ values')
  = numbered (start + length values) values' ∪ numbered start values.
Proof.
  unfold numbered. rewrite length_app, param_names_app.
  rewrite zip_with_app by (unfold param_names; by rewrite length_fmap, length_seq).
  rewrite list_to_map_app. apply map_union_comm.
  apply map_disjoint_dom. fold (numbered start values).
  fold (numbered (start + length values) values'). rewrite !numbered_dom.
  apply elem_of_disjoint. intros name.
  rewrite !elem_of_list_to_set. unfold param_names.
  intros (n & -> & Hn%elem_of_seq)%list_elem_of_fmap
         (m & Heq%param_name_inj & Hm%elem_of_seq)%list_elem_of_fmap.
  lia.
Qed.

(** X12: the parameters that [toString] binds for a condition are the
    values of its comparisons other than [null], in the order of the
    comparisons, under the names [param<i>], [param<i+1>], ... from the
    given index [i]: a [null] is never bound. *)
Theorem toString_bound_values c name paramIndex listableType :
  params (toString c name paramIndex listableType) = numbered paramIndex (bound_list c).
Proof.
  revert paramIndex. induction c as [value operator negate|type comparisons IH]
    using cond_induction; intros paramIndex.
  - cbn [toString bound_list]. unfold Comparison_toString, numbered.
    destruct listableType, (is_null value); cbn [negb params]; try done.
    all: cbn; unfold param_names; cbn; by rewrite Nat.add_0_r || done.
  - rewrite toString_Clause. cbn [bound_list].
    assert (forall values components,
              params (Clause_loop type name paramIndex listableType comparisons
                        (numbered paramIndex values) components)
              = numbered paramIndex (values ++ (comparisons ≫= bound_list))) as Hloop.
    { induction IH as [|comp rest Hcomp _ IHrest]; intros values components.
      - cbn. by rewrite app_nil_r.
      - cbn [Clause_loop]. rewrite Hcomp.
        assert (size (numbered paramIndex values) = length values) as ->.
        { apply (param_names_size _ paramIndex). apply numbered_dom. }
        rewrite <- numbered_app, IHrest. cbn. by rewrite app_assoc. }
    apply (Hloop [] []).
Qed.

Lemma numbered_snoc start values v :
  numbered start (values ++ [v])
  = <[param_name (start + length values) := v]> (numbered start values)
  /\ numbered start values !! param_name (start + length values) = None.
Proof.
  split.
  - rewrite numbered_app. unfold numbered at 1. cbn. unfold param_names. cbn.
    by rewrite insert_empty, <- insert_union_singleton_l.
  - apply not_elem_of_dom. rewrite numbered_dom, elem_of_list_to_set.
    unfold param_names.
    intros (n & Heq%param_name_inj & Hn%elem_of_seq)%list_elem_of_fmap. lia.
Qed.

Lemma numbered_Forall (P : value -> Prop) start values :
  map_Forall (fun _ v => P v) (numbered start values) <-> Forall P values.
Proof.
  induction values as [|v values IH] using rev_ind.
  - split; [constructor|]. intros _. apply map_Forall_empty.
  - destruct (numbered_snoc start values v) as [-> Hfresh].
    rewrite map_Forall_insert by done. rewrite Forall_app, Forall_singleton, IH. tauto.
Qed.

Lemma numbered_fmap (f : value -> value) start values :
  f <$> numbered start values = numbered start (f <$> values).
Proof.
  induction values as [|v values IH] using rev_ind; [apply fmap_empty|].
  rewrite fmap_app. cbn [fmap list_fmap].
  destruct (numbered_snoc start values v) as [-> _].
  destruct (numbered_snoc start (f <$> values) (f v)) as [-> _].
  by rewrite fmap_insert, IH, length_fmap.
Qed.

Lemma bound_list_not_null c : Forall (fun v => is_null v = false) (bound_list c).
Proof.
  induction c as [value operator negate|type comparisons IH] using cond_induction.
  - cbn. destruct (is_null value) eqn:E; by repeat constructor.
  - cbn [bound_list]. induction IH as [|c rest Hc _ IHrest]; [constructor|].
    cbn. apply Forall_app. split; [done|]. apply IHrest.
Qed.

(** X13: [conditionClause] for a property whose type has [link] in it:
    the condition compiles exactly when every value other than [null] of
    its comparisons looks like a record identifier; the text is the one of
    the condition, and the bound values are the record identifiers made of
    the values, each with its hash sign. Otherwise the [AttributeError]
    that names the property is thrown. *)
Theorem conditionClause_link properties name type c paramIndex :
  SelectionQuery.property_type properties name = Ok type ->
  includes_text (js "link") type = true ->
  SelectionQuery.conditionClause properties name c paramIndex
  = if forallb (fun v => looksLikeRID v false) (bound_list c)
    then Ok (mkStatement (query (toString c name paramIndex (is_container_type type)))
               (numbered paramIndex (to_RID <$> bound_list c)))
    else Throw (AttributeError (ExpectsRID name)).
Proof.
  intros Htype Hlink. unfold SelectionQuery.conditionClause.
  rewrite Htype. cbn [mbind result_bind].
  pose proof (toString_bound_values c name paramIndex (is_container_type type)) as Hparams.
  destruct (toString c name paramIndex (is_container_type type)) as [text bound].
  cbn [params query] in *. subst bound. rewrite Hlink, numbered_fmap.
  destruct (forallb _ _) eqn:Hall.
  - rewrite bool_decide_true; [done|]. apply numbered_Forall.
    rewrite forallb_forall in Hall. apply Forall_forall. intros v Hv.
    right. by apply Hall, list_elem_of_In.
  - rewrite bool_decide_false; [done|]. intros Hforall%numbered_Forall.
    apply not_true_iff_false in Hall. apply Hall. apply forallb_forall. intros v Hv.
    apply list_elem_of_In in Hv.
    pose proof (bound_list_not_null c) as Hnull.
    rewrite Forall_forall in Hforall, Hnull.
    destruct (Hforall v Hv) as [Hv'|Hv']; [|done]. by rewrite (Hnull v Hv) in Hv'.
Qed.

Lemma conditionClause_link_witness :
  SelectionQuery.conditionClause
    [(js "source", Some (ClassModel.mkProperty (Some (js "link")) None))]
    (js "source")
    (Clause (js "OR") [Comparison (VString (js "#4:10")) (js "=") false;
                       Comparison VNull (js "=") false;
                       Comparison (VString (js "5:1")) (js "=") true])
    0
  = Ok (mkStatement
          (js "source = :param0 OR source IS NULL OR NOT (source = :param1)")
          (numbered 0 [VRID (js "#4:10"); VRID (js "#5:1")])).
Proof.
  rewrite (conditionClause_link _ _ (js "link")); [vm_compute; reflexivity| |];
    vm_compute; reflexivity.
Defined.


(** ** The constructor and the statement of a selection query *)

Section ConstructorFacts.
Import SelectionQuery.

Lemma split_entries_known propertyNames linked entries conditions subqueries r :
  split_entries propertyNames linked entries conditions subqueries = Ok r ->
  forall name value,
    (name, value) ∈ entries ->
    name ∉ SPECIAL_QUERY_ARGS ->
    (getParameterPrefix name).1 ∈ propertyNames ++ odbArgs.
Proof.
  revert conditions subqueries.
  induction entries as [|[name value] rest IH]; intros conditions subqueries Hsplit.
  { intros ?? H. by apply elem_of_nil in H. }
  intros name' value' Hin Hspecial.
  cbn [split_entries] in Hsplit.
  apply elem_of_cons in Hin as [[= -> ->]|Hin].
  - unfold includes in Hsplit at 1. rewrite bool_decide_false in Hsplit by done.
    destruct (getParameterPrefix name) as [prefix suffix]. cbn [fst].
    destruct (bool_decide_reflect (prefix ∈ propertyNames)) as [?|Hprefix].
    { apply elem_of_app. by left. }
    destruct (bool_decide_reflect (prefix ∈ odbArgs)) as [?|Hodb].
    { apply elem_of_app. by right. }
    unfold includes in Hsplit. rewrite !(bool_decide_false _ Hprefix) in Hsplit.
    rewrite !(bool_decide_false _ Hodb) in Hsplit. done.
  - destruct (includes SPECIAL_QUERY_ARGS name); [by eapply IH|].
    destruct (getParameterPrefix name) as [prefix suffix].
    destruct (negb _ && negb _); [done|].
    destruct suffix as [suffix|]; [|by eapply IH].
    destruct (obj_get prefix linked) as [[[linkedModel build]|]|]; [| |done];
      by eapply IH.
Qed.

Lemma check_returnProperties_known model_name propertyNames names :
  check_returnProperties model_name propertyNames names = Ok tt ->
  Forall (fun name => name ∈ propertyNames) names.
Proof.
  induction names as [|name rest IH]; [constructor|].
  cbn [check_returnProperties]. unfold includes.
  destruct (bool_decide_reflect (name ∈ propertyNames)); cbn [negb]; [|done].
  intros H. constructor; auto.
Qed.

Lemma obj_set_other {V} (obj : list (jsstring * V)) key v name w :
  (name, w) ∈ obj -> name <> key -> (name, w) ∈ obj_set key v obj.
Proof.
  induction obj as [|[k x] rest IH]; [by intros ?%elem_of_nil|].
  intros Hin Hne. cbn [obj_set].
  destruct (bool_decide_reflect (k = key)) as [->|Hk].
  - apply elem_of_cons in Hin as [[= -> ->]|Hin]; [done|]. by apply list_elem_of_further.
  - apply elem_of_cons in Hin as [[= -> ->]|Hin]; [apply list_elem_of_here|].
    apply list_elem_of_further. auto.
Qed.

(** X14: a selection query is only built when every key of the input
    query that is not a special argument has a prefix that is a property
    name of the model or one of ['@rid'] and ['@class'], and when every
    return property is a property name of the model. *)
Theorem new_attributes_known model inputQuery opt q :
  new model inputQuery opt = Ok q ->
  (forall name value,
     (name, value) ∈ inputQuery ->
     name ∉ SPECIAL_QUERY_ARGS ->
     (getParameterPrefix name).1 ∈ ClassModel.propertyNames model ++ odbArgs)
  /\ (forall names,
        returnProperties q = Some names ->
        Forall (fun name => name ∈ ClassModel.propertyNames model) names).
Proof.
  destruct model as [model_name propertyNames model_properties model_cast ? ? ?].
  rewrite new_unfold. cbn zeta. cbn [ClassModel.propertyNames]. intros Hnew.
  destruct (check_returnProperties _ _ _) as [[]|] eqn:Hcheck; [|done].
  cbn [mbind result_bind] in Hnew.
  destruct (split_entries _ _ _ _ _) as [[conditions subqueries]|] eqn:Hsplit; [|done].
  cbn [mbind result_bind] in Hnew.
  destruct (Follow.parse _); [|done]. cbn [mbind result_bind] in Hnew.
  destruct (resolve_subqueries _ _ _) as [[[conditions' properties'] cast']|]; [|done].
  cbn [mbind result_bind] in Hnew.
  destruct (cast_conditions _ _) as [conditions''|]; [|done].
  injection Hnew as <-. cbn [returnProperties]. split.
  - intros name value Hin Hspecial.
    destruct (default true (opt_activeOnly opt) && includes propertyNames (js "deletedAt"))
      eqn:Hinject; [|by eapply split_entries_known].
    destruct (decide (name = js "deletedAt")) as [->|Hne].
    + apply andb_true_iff in Hinject as [_ Hmarker%bool_decide_eq_true_1].
      apply elem_of_app. by left.
    + eapply split_entries_known; [done| |done]. by apply obj_set_other.
  - intros names Hnames. apply check_returnProperties_known in Hcheck.
    by rewrite Hnames in Hcheck.
Qed.

Lemma inline_conditions_properties name subquery state key :
  46 ∉ key ->
  obj_get key (inline_conditions name subquery state).1.2 = obj_get key state.1.2.
Proof.
  intros Hkey. unfold inline_conditions.
  generalize (obj_keys (conditions subquery)). intros keys. revert state.
  induction keys as [|k keys IH]; intros [[conds props] casts]; [done|].
  cbn [foldl]. rewrite IH. cbn [fst snd].
  apply obj_get_set_ne. intros <-. apply Hkey.
  apply elem_of_app. right. apply list_elem_of_here.
Qed.

Lemma resolve_subqueries_properties activeOnly entries state state' key :
  resolve_subqueries activeOnly entries state = Ok state' ->
  46 ∉ key ->
  obj_get key state'.1.2 = obj_get key state.1.2.
Proof.
  intros Hresolve Hkey. revert state Hresolve.
  induction entries as [|[name value] rest IH]; intros state Hresolve.
  - simpl in Hresolve. by injection Hresolve as <-.
  - simpl in Hresolve.
    destruct (sub_new value _ _) as [subquery|]; [|done].
    cbn [mbind result_bind] in Hresolve.
    destruct (bool_decide (length (follow subquery) = 0%nat)).
    + rewrite (IH _ Hresolve). by apply inline_conditions_properties.
    + destruct state as [[conds props] casts]. by rewrite (IH _ Hresolve).
Qed.

Lemma new_deletedAt model inputQuery opt q :
  default true (opt_activeOnly opt) = true ->
  js "deletedAt" ∈ ClassModel.propertyNames model ->
  (forall defn,
     obj_get (js "deletedAt") (ClassModel.properties model) = Some defn ->
     ClassModel.linkedModel defn = None) ->
  NoDup (obj_keys inputQuery) ->
  new model inputQuery opt = Ok q ->
  (exists c,
     obj_get (js "deletedAt") (conditions q) = Some (Leaf c)
     /\ match obj_get (js "deletedAt") (ClassModel.cast model) with
        | Some f => applyCast f is_null_comparison = Ok c
        | None => c = is_null_comparison
        end)
  /\ obj_get (js "deletedAt") (properties q)
     = Some <$> obj_get (js "deletedAt") (ClassModel.properties model).
Proof.
  intros HactiveOnly Hmarker Hplain Hnd Hnew.
  destruct model as [model_name propertyNames model_properties model_cast ? ? ?].
  rewrite new_unfold in Hnew. cbn zeta in Hnew. cbn [ClassModel.propertyNames] in Hmarker.
  cbn [ClassModel.properties] in *. cbn [ClassModel.cast].
  assert (includes propertyNames (js "deletedAt") = true) as Hincludes.
  { unfold includes. by apply bool_decide_eq_true_2. }
  rewrite HactiveOnly, Hincludes in Hnew. cbn [andb] in Hnew.
  destruct (check_returnProperties _ _ _); [|done]. cbn [mbind result_bind] in Hnew.
  destruct (split_entries _ _ _ _ _) as [[conditions subqueries]|] eqn:Hsplit; [|done].
  cbn [mbind result_bind] in Hnew.
  destruct (Follow.parse _); [|done]. cbn [mbind result_bind] in Hnew.
  destruct (resolve_subqueries _ _ _) as [[[conditions' properties'] cast']|] eqn:Hresolve;
    [|done].
  cbn [mbind result_bind] in Hnew.
  destruct (cast_conditions _ _) as [conditions''|] eqn:Hcast; [|done].
  injection Hnew as <-. cbn [SelectionQuery.conditions SelectionQuery.properties].
  split.
  - apply split_entries_deletedAt in Hsplit as (Hsub & Hin & _).
    + apply resolve_subqueries_deletedAt in Hresolve as [Hconds Hcasts]; [|done].
      cbn [fst snd] in Hconds, Hcasts.
      rewrite Hin in Hconds by (apply obj_get_Some_elem; apply obj_get_set_eq).
      destruct (cast_conditions_get _ _ _ _ _ Hcast Hconds) as (c & Hc & Hf).
      exists c. split; [done|]. by rewrite <- Hcasts.
    + intros p Hp. rewrite linked_constructors_get in Hp.
      destruct (obj_get (js "deletedAt") model_properties) as [[ty [lm|]]|] eqn:E;
        try done.
      by specialize (Hplain _ eq_refl).
    + apply not_elem_of_nil.
    + by apply obj_keys_set_NoDup.
  - eapply resolve_subqueries_properties in Hresolve.
    + cbn [fst snd] in Hresolve. rewrite Hresolve. apply obj_get_fmap.
      by intros [??].
    + intros Hin%(bool_decide_pack _). by vm_compute in Hin.
Qed.

Lemma includes_text_spec needle text :
  includes_text needle text = true <-> exists before after, text = before ++ needle ++ after.
Proof.
  induction text as [|c text IH].
  - cbn [includes_text]. rewrite orb_false_r, bool_decide_eq_true. split.
    + intros [k Hk]. exists [], k. done.
    + intros (before & after & H). symmetry in H.
      apply app_eq_nil in H as [-> H]. apply app_eq_nil in H as [-> ->]. done.
  - cbn [includes_text]. rewrite orb_true_iff, bool_decide_eq_true, IH. split.
    + intros [[k Hk]|(before & after & ->)].
      * exists [], k. done.
      * exists (c :: before), after. done.
    + intros (before & after & H). destruct before as [|c' before].
      * left. exists after. done.
      * injection H as -> ->. right. eauto.
Qed.

Lemma includes_text_within needle text before after :
  includes_text needle text = true ->
  includes_text needle (before ++ text ++ after) = true.
Proof.
  rewrite !includes_text_spec. intros (b & a & ->).
  exists (before ++ b), (a ++ after). by rewrite <- !app_assoc.
Qed.

Lemma includes_text_prefix needle text after :
  includes_text needle text = true -> includes_text needle (text ++ after) = true.
Proof. intros H. by apply (includes_text_within _ _ []). Qed.

Lemma includes_text_suffix needle text before :
  includes_text needle text = true -> includes_text needle (before ++ text) = true.
Proof.
  intros H. rewrite <- (app_nil_r text). by apply includes_text_within.
Qed.

Lemma includes_text_join needle sep items item :
  item ∈ items ->
  includes_text needle item = true ->
  includes_text needle (join sep items) = true.
Proof.
  intros Hin Hitem. induction items as [|x rest IH]; [by apply elem_of_nil in Hin|].
  cbn [join]. apply elem_of_cons in Hin as [->|Hin].
  - destruct rest; [done|]. by apply includes_text_prefix.
  - destruct rest as [|y rest]; [by apply elem_of_nil in Hin|].
    apply includes_text_suffix, includes_text_suffix. auto.
Qed.

Ltac find_text :=
  solve [ eassumption
        | apply includes_text_suffix; find_text
        | apply includes_text_prefix; find_text ].

Lemma statement_text_includes needle model follow skip returnProperties texts text :
  text ∈ texts ->
  includes_text needle text = true ->
  includes_text needle (statement_text model follow skip returnProperties texts) = true.
Proof.
  intros Hin Htext. unfold statement_text.
  assert (includes_text needle (join (js " AND ") texts) = true) as Hjoin
    by by eapply includes_text_join.
  assert (0 < length texts)%nat as Hlen.
  { destruct texts; [by apply elem_of_nil in Hin|simpl; lia]. }
  rewrite !(bool_decide_true (0 < length texts)%nat) by done.
  destruct (bool_decide_reflect (0 < length follow)%nat) as [Hfollow|_].
  - destruct follow as [|arr follow]; [simpl in Hfollow; lia|].
    match goal with
    | |- context [join (js ", ") ?expressions] =>
        assert (includes_text needle (join (js ", ") expressions) = true) as Hmatch
    end.
    { eapply includes_text_join; [rewrite fmap_cons; apply list_elem_of_here|].
      cbv beta. find_text. }
    destruct (negb _), skip; find_text.
  - destruct skip; find_text.
Qed.

Lemma join_conditions_texts clauses conditionNames start bound texts texts' bound' :
  join_conditions clauses conditionNames start bound texts = Ok (texts', bound') ->
  (forall text, text ∈ texts -> text ∈ texts')
  /\ forall attr,
       attr ∈ conditionNames ->
       exists clause_of grouped index clause,
         obj_get attr clauses = Some (clause_of, grouped)
         /\ clause_of index = Ok clause
         /\ (if grouped then parenthesize (query clause) else query clause) ∈ texts'.
Proof.
  revert start bound texts.
  induction conditionNames as [|attr rest IH]; intros start bound texts Hjoin.
  - simpl in Hjoin. injection Hjoin as <- <-. split; [done|].
    intros ? H. by apply elem_of_nil in H.
  - cbn [join_conditions] in Hjoin.
    destruct (obj_get attr clauses) as [[clause_of grouped]|] eqn:Hget; [|done].
    destruct (clause_of start) as [clause|] eqn:Hclause; [|done].
    cbn [mbind result_bind] in Hjoin.
    destruct (IH _ _ _ Hjoin) as [Hkept Hrest]. split.
    + intros text Hin. apply Hkept. apply elem_of_app. by left.
    + intros attr' [->|Hin]%elem_of_cons; [|by apply Hrest].
      exists clause_of, grouped, start, clause. split; [done|]. split; [done|].
      apply Hkept. apply elem_of_app. right. apply list_elem_of_here.
Qed.

(** X15: soft deletion reaches the statement. For a model that declares
    [deletedAt] as a property that is no container, links to no model and
    has no cast, the statement of every query built with [activeOnly]
    contains the condition "deletedAt IS NULL", whatever the input query
    says, with or without hops. *)
Theorem activeOnly_statement model inputQuery opt q paramStartIndex st type :
  default true (opt_activeOnly opt) = true ->
  js "deletedAt" ∈ ClassModel.propertyNames model ->
  obj_get (js "deletedAt") (ClassModel.properties model)
  = Some (ClassModel.mkProperty (Some type) None) ->
  is_container_type type = false ->
  obj_get (js "deletedAt") (ClassModel.cast model) = None ->
  NoDup (obj_keys inputQuery) ->
  new model inputQuery opt = Ok q ->
  SelectionQuery.toString q paramStartIndex = Ok st ->
  includes_text (js "deletedAt IS NULL") (query st) = true.
Proof.
  intros HactiveOnly Hmarker Hdefn Hcontainer Hcast Hnd Hnew HtoString.
  destruct (new_deletedAt model inputQuery opt q) as [(c & Hcondition & Hc) Hproperty];
    try done.
  { intros defn. rewrite Hdefn. by intros [= <-]. }
  rewrite Hcast in Hc. subst c. rewrite Hdefn in Hproperty. cbn in Hproperty.
  destruct q as [model' conditions follow skip activeOnly properties returnProperties cast].
  cbn [SelectionQuery.conditions SelectionQuery.properties] in *.
  rewrite SelectionQuery_toString_unfold in HtoString.
  destruct (join_conditions _ _ _ _ _) as [[texts bound]|] eqn:Hjoin; [|done].
  injection HtoString as <-. cbn [query].
  apply join_conditions_texts in Hjoin as [_ Htexts].
  destruct (Htexts (js "deletedAt")) as (clause_of & grouped & index & clause & Hget & Hclause & Hin).
  { unfold sort. rewrite merge_sort_Permutation.
    apply obj_get_Some_elem in Hcondition.
    apply list_elem_of_fmap. by exists (js "deletedAt", Leaf is_null_comparison). }
  rewrite obj_get_fmap in Hget by (by intros [? [| |]]).
  rewrite Hcondition in Hget. cbn in Hget. injection Hget as <- <-.
  unfold conditionClause, property_type in Hclause. rewrite Hproperty in Hclause.
  destruct (bool_decide (type = [])); [done|]. cbn [mbind result_bind] in Hclause.
  rewrite Hcontainer in Hclause. cbn in Hclause.
  assert (query clause = js "deletedAt IS NULL") as Hquery.
  { destruct (includes_text (js "link") type).
    - rewrite bool_decide_true in Hclause by apply map_Forall_empty.
      by injection Hclause as <-.
    - by injection Hclause as <-. }
  eapply statement_text_includes; [exact Hin|].
  rewrite Hquery. apply includes_text_spec. by exists [], [].
Qed.
End ConstructorFacts.

Lemma new_attributes_known_witness :
  (getParameterPrefix (js "source.name")).1
  ∈ ClassModel.propertyNames example_linked_model ++ SelectionQuery.odbArgs.
Proof.
  edestruct (new_attributes_known example_linked_model example_inputQuery
               (SelectionQuery.mkOptions None None)) as [Hknown _].
  - vm_compute. reflexivity.
  - apply (Hknown (js "source.name") (SelectionQuery.Raw (VString (js "hgnc")))).
    + apply list_elem_of_here.
    + intros Hin%(bool_decide_pack _). by vm_compute in Hin.
Defined.

Lemma activeOnly_statement_witness :
  exists q st,
    SelectionQuery.new example_model
      [(js "name", SelectionQuery.Raw (VString (js "a")))]
      (SelectionQuery.mkOptions None None) = Ok q
    /\ SelectionQuery.toString q 0 = Ok st
    /\ includes_text (js "deletedAt IS NULL") (query st) = true.
Proof.
  do 2 eexists. split; [vm_compute; reflexivity|]. split; [vm_compute; reflexivity|].
  eapply (activeOnly_statement example_model
            [(js "name", SelectionQuery.Raw (VString (js "a")))]
            (SelectionQuery.mkOptions None None) _ 0 _ (js "long")).
  - reflexivity.
  - apply (bool_decide_unpack _). vm_compute. reflexivity.
  - vm_compute. reflexivity.
  - vm_compute. reflexivity.
  - reflexivity.
  - apply (bool_decide_unpack _). vm_compute. reflexivity.
  - vm_compute. reflexivity.
  - vm_compute. reflexivity.
Defined.

(** X16: [remove] without a record identifier and [update] write nothing
    unless their selection gives exactly one record: when the engine
    answers the statement of the [where] object with no record they throw
    the [NoRecordFoundError], and with several records the
    [MultipleRecordsFoundError]. *)
Theorem mutation_needs_one_record db records model user where_ content now
    q text bound recordList :
  obj_get (js "@rid") where_ = None ->
  SelectionQuery.new model (input_of where_)
    (SelectionQuery.mkOptions (Some 0%Z) (Some true)) = Ok q ->
  SelectionQuery.toString q 0 = Ok (mkStatement text bound) ->
  execute db records text bound QUERY_LIMIT (js "*:1") = Ok recordList ->
  length recordList <> 1%nat ->
  let failure :=
    if bool_decide (length recordList = 0%nat) then NoRecordFoundError
    else MultipleRecordsFoundError in
  remove db records model user where_ now = Throw failure
  /\ update db records model user where_ content now = Throw failure.
Proof.
  intros Hrid Hnew HtoString Hexecute Hlength. cbn zeta.
  assert (select_one db records model where_
          = Throw (if bool_decide (length recordList = 0%nat) then NoRecordFoundError
                   else MultipleRecordsFoundError)) as Hselect.
  { unfold select_one, select. cbn [select_model select_where select_exactlyN
      select_fetchPlan select_limit select_skip select_activeOnly from_option id].
    rewrite Hnew. cbn [mbind result_bind]. rewrite HtoString. cbn [mbind result_bind].
    rewrite Hexecute. cbn [mbind result_bind].
    destruct (bool_decide_reflect (length recordList = 0%nat)) as [Hzero|Hzero]; [done|].
    destruct (Z.eqb_spec 1 (Z.of_nat (length recordList))) as [Heq|_]; [lia|done]. }
  split.
  - unfold remove. by rewrite Hrid, Hselect.
  - unfold update. by rewrite Hselect.
Qed.

Lemma mutation_needs_one_record_witness :
  remove (example_engine []) example_store example_model example_user
    [(js "name", VString (js "old"))] 20 = Throw NoRecordFoundError
  /\ update (example_engine []) example_store example_model example_user
       [(js "name", VString (js "old"))] [(js "name", VString (js "new"))] 20
     = Throw NoRecordFoundError.
Proof.
  eapply (mutation_needs_one_record (example_engine []) example_store example_model
            example_user [(js "name", VString (js "old"))]
            [(js "name", VString (js "new"))] 20 _ _ _ []).
  - reflexivity.
  - vm_compute. reflexivity.
  - vm_compute. reflexivity.
  - reflexivity.
  - discriminate.
Defined.


(** ** The vocabulary cache *)

Lemma member_at_Inherited {A} key (own : option A) :
  member_at key own = Inherited <-> own = None /\ inherited key = true.
Proof.
  unfold member_at, inherited. destruct own; [split; [done|by intros [? _]]|].
  destruct (includes _ key); split; try done; by intros [_ ?].
Qed.

Lemma group_rows_cons row rest vocabulary :
  let className := row_key row (js "class") in
  let property := row_key row (js "property") in
  let found := default ∅ (vocabulary !! className) in
  group_rows (row :: rest) vocabulary
  = if bool_decide (vocabulary !! className = None) && inherited className then Beyond
    else if bool_decide (found !! property = None) && inherited property
         then Within (Throw TypeError)
         else group_rows rest
                (<[className := <[property := default [] (found !! property) ++ [row]]>
                                  found]> vocabulary).
Proof.
  cbn zeta. cbn [group_rows]. unfold member_at, inherited.
  destruct (vocabulary !! row_key row (js "class")) as [found|];
    cbn [bool_decide decide_rel default from_option id andb].
  - rewrite bool_decide_false by done. cbn [andb].
    destruct (found !! row_key row (js "property")) as [items|].
    + by rewrite bool_decide_false by done.
    + rewrite bool_decide_true by done. cbn [andb].
      by destruct (includes _ (row_key row (js "property"))).
  - rewrite bool_decide_true by done. cbn [andb].
    destruct (includes _ (row_key row (js "class"))); [done|].
    rewrite lookup_empty, bool_decide_true by done. cbn [andb].
    by destruct (includes _ (row_key row (js "property"))).
Qed.

Lemma filed_insert vocabulary className property row c p :
  let found := default ∅ (vocabulary !! className) in
  filed (<[className := <[property := default [] (found !! property) ++ [row]]> found]>
           vocabulary) c p
  = filed vocabulary c p
    ++ (if bool_decide (className = c /\ property = p) then [row] else []).
Proof.
  cbn zeta. unfold filed.
  destruct (decide (className = c)) as [<-|Hne].
  - rewrite lookup_insert_eq. cbn [mbind option_bind].
    destruct (decide (property = p)) as [<-|Hnp].
    + rewrite lookup_insert_eq, bool_decide_true by done. cbn [default from_option id].
      f_equal. by destruct (vocabulary !! className).
    + rewrite lookup_insert_ne, bool_decide_false, app_nil_r by tauto.
      destruct (vocabulary !! className); [done|]. cbn. by rewrite lookup_empty.
  - rewrite lookup_insert_ne, bool_decide_false, app_nil_r by tauto. done.
Qed.

Lemma plain_vocabulary_insert vocabulary className property items :
  let found := default ∅ (vocabulary !! className) in
  plain_vocabulary vocabulary ->
  inherited className = false -> inherited property = false ->
  plain_vocabulary (<[className := <[property := items]> found]> vocabulary).
Proof.
  cbn zeta. intros Hplain Hc Hp c byProperty.
  destruct (decide (className = c)) as [<-|Hne].
  - rewrite lookup_insert_eq. intros [= <-]. split; [done|]. intros p.
    destruct (decide (property = p)) as [<-|Hnp]; [done|].
    rewrite lookup_insert_ne by done.
    destruct (vocabulary !! className) as [found|] eqn:E.
    + by apply (Hplain _ _ E).
    + cbn. rewrite lookup_empty. by intros [? ?].
  - rewrite lookup_insert_ne by done. apply Hplain.
Qed.

Lemma group_rows_spec rows vocabulary :
  plain_vocabulary vocabulary ->
  match group_rows rows vocabulary with
  | Within (Ok vocabulary') =>
      Forall plain_row rows
      /\ forall className property,
           filed vocabulary' className property
           = filed vocabulary className property
             ++ filter (fun row => row_key row (js "class") = className
                                   /\ row_key row (js "property") = property) rows
  | Within (Throw e) =>
      e = TypeError
      /\ exists before row after,
           rows = before ++ row :: after /\ Forall plain_row before
           /\ inherited (row_key row (js "class")) = false
           /\ inherited (row_key row (js "property")) = true
  | Beyond =>
      exists before row after,
        rows = before ++ row :: after /\ Forall plain_row before
        /\ inherited (row_key row (js "class")) = true
  end.
Proof.
  revert vocabulary. induction rows as [|row rest IH]; intros vocabulary Hplain.
  { cbn. split; [constructor|]. intros. by rewrite app_nil_r. }
  rewrite group_rows_cons. cbn zeta.
  set (className := row_key row (js "class")).
  set (property := row_key row (js "property")).
  assert (inherited className = true -> vocabulary !! className = None) as Hown.
  { intros Hc. destruct (vocabulary !! className) as [found|] eqn:E; [|done].
    destruct (Hplain _ _ E) as [? _]. congruence. }
  destruct (inherited className) eqn:Hc.
  { rewrite bool_decide_true by auto. exists [], row, rest. by repeat split. }
  rewrite andb_false_r.
  assert (inherited property = true ->
          default ∅ (vocabulary !! className) !! property = None) as Hlist.
  { intros Hp. destruct (vocabulary !! className) as [found|] eqn:E; [|done].
    cbn. destruct (found !! property) eqn:E'; [|done].
    destruct (Hplain _ _ E) as [_ Hfound].
    rewrite Hfound in Hp by (by rewrite E'). done. }
  destruct (inherited property) eqn:Hp.
  { rewrite bool_decide_true by auto. split; [done|]. exists [], row, rest.
    by repeat split. }
  rewrite andb_false_r.
  match goal with
  | |- context [group_rows _ ?next] => specialize (IH next); set (vocabulary1 := next) in *
  end.
  assert (plain_vocabulary vocabulary1) as Hplain1
    by (by apply plain_vocabulary_insert).
  specialize (IH Hplain1).
  assert (plain_row row) as Hrow by done.
  destruct (group_rows rest vocabulary1) as [[vocabulary'|e]|].
  - destruct IH as [Hrest Hgroups]. split; [by constructor|].
    intros c p. unfold vocabulary1 in Hgroups.
    rewrite Hgroups, filed_insert, <- app_assoc. f_equal.
    rewrite filter_cons. fold className. fold property.
    destruct (decide (className = c /\ property = p));
      [by rewrite bool_decide_true|by rewrite bool_decide_false].
  - destruct IH as [-> (before & row' & after & -> & Hbefore & Hrow')].
    split; [done|]. exists (row :: before), row', after.
    split; [done|]. split; [by constructor|done].
  - destruct IH as (before & row' & after & -> & Hbefore & Hrow').
    exists (row :: before), row', after. split; [done|]. split; [by constructor|done].
Qed.

(** X17: [cacheVocabulary] on rows whose classes and properties are no
    names of [Object.prototype] caches, under a class and a property,
    exactly the selected rows of that class and property, in the order of
    the selection; a row without a class or property is under the key
    ["undefined"], and what was cached before is dropped. The first row
    with such a name ends it: with a [TypeError] when the class is no such
    name and the property is one, and beyond the cache, on an object that
    all objects share, when the class is one. *)
Theorem cacheVocabulary_groups db records model :
  match cacheVocabulary db records model with
  | Within (Ok vocabulary) =>
      exists rows,
        select db records (mkSelect model None None None None None None) = Ok rows
        /\ Forall plain_row rows
        /\ forall className property,
             filed vocabulary className property
             = filter (fun row => row_key row (js "class") = className
                                  /\ row_key row (js "property") = property) rows
  | Within (Throw e) =>
      select db records (mkSelect model None None None None None None) = Throw e
      \/ (e = TypeError
          /\ exists before row after,
               select db records (mkSelect model None None None None None None)
               = Ok (before ++ row :: after)
               /\ Forall plain_row before
               /\ inherited (row_key row (js "class")) = false
               /\ inherited (row_key row (js "property")) = true)
  | Beyond =>
      exists before row after,
        select db records (mkSelect model None None None None None None)
        = Ok (before ++ row :: after)
        /\ Forall plain_row before
        /\ inherited (row_key row (js "class")) = true
  end.
Proof.
  unfold cacheVocabulary.
  destruct (select _ _ _) as [rows|e]; [|by left].
  pose proof (group_rows_spec rows ∅) as Hspec.
  destruct (group_rows rows ∅) as [[vocabulary|e]|].
  - destruct Hspec as [Hrows Hgroups]; [by intros c ?; rewrite lookup_empty|].
    exists rows. split; [done|]. split; [done|]. intros c p. by rewrite Hgroups.
  - destruct Hspec as [-> (before & row & after & -> & ?)];
      [by intros c ?; rewrite lookup_empty|].
    right. split; [done|]. by exists before, row, after.
  - destruct Hspec as (before & row & after & -> & ?);
      [by intros c ?; rewrite lookup_empty|].
    by exists before, row, after.
Qed.

Lemma cacheVocabulary_groups_witness :
  exists vocabulary,
    cacheVocabulary example_vocabulary_engine ∅ example_model = Within (Ok vocabulary)
    /\ filed vocabulary (js "Disease") (js "type")
       = [[(js "class", VString (js "Disease")); (js "property", VString (js "type"))]].
Proof.
  pose proof (cacheVocabulary_groups example_vocabulary_engine ∅ example_model) as Hgroups.
  destruct (cacheVocabulary example_vocabulary_engine ∅ example_model)
    as [[vocabulary|e]|] eqn:Hcache; [|by vm_compute in Hcache..].
  exists vocabulary. split; [done|].
  destruct Hgroups as (rows & Hrows & _ & Hfiled). rewrite Hfiled.
  vm_compute in Hrows. by injection Hrows as <-.
Defined.


(** ** Helpers of the loaders *)

Lemma obj_set_fresh {V} (obj : list (jsstring * V)) key v :
  key ∉ obj_keys obj -> obj_set key v obj = obj ++ [(key, v)].
Proof.
  unfold obj_keys. induction obj as [|[k w] obj IH]; [done|].
  rewrite fmap_cons, not_elem_of_cons. cbn [fst]. intros [Hne Hnin].
  cbn [obj_set]. rewrite bool_decide_false by done. by rewrite IH.
Qed.

Lemma convertRowFields_Beyond row entries :
  foldl (convert_field row) Beyond entries = Beyond.
Proof. induction entries as [|[name col] rest IH]; [done|]. cbn [foldl]. apply IH. Qed.

Lemma convert_field_Within row result name col :
  convert_field row (Within result) (name, col)
  = if field_beyond row (name, col) then Beyond
    else if bool_decide (name = js "__proto__") then Within result
         else Within (obj_set name (default VUndefined (obj_get col row)) result).
Proof.
  unfold convert_field, field_beyond, member_at, inherited. cbn [fst snd].
  destruct (obj_get col row) as [value|]; cbn [default from_option id].
  - destruct (bool_decide (name = js "__proto__")); [|done].
    by destruct (is_primitive value).
  - destruct (includes Object_prototype_names col); [done|].
    by destruct (bool_decide (name = js "__proto__")).
Qed.

Lemma convertRowFields_fold row entries result :
  NoDup (obj_keys result ++ obj_keys entries) ->
  foldl (convert_field row) (Within result) entries
  = if bool_decide (Exists (fun entry => field_beyond row entry = true) entries) then Beyond
    else Within (result
                 ++ ((fun entry => (entry.1, default VUndefined (obj_get entry.2 row)))
                       <$> filter (fun entry => entry.1 <> js "__proto__") entries)).
Proof.
  revert result. induction entries as [|[name col] rest IH]; intros result Hnd.
  { cbn [foldl]. rewrite bool_decide_false by (by intros ?%Exists_nil).
    by rewrite filter_nil, app_nil_r. }
  cbn [foldl]. unfold obj_keys in Hnd. rewrite fmap_cons in Hnd. cbn [fst] in Hnd.
  assert (NoDup (obj_keys result ++ obj_keys rest)) as Hrest.
  { apply NoDup_app in Hnd as (? & Hdisjoint & Hrest%NoDup_cons_1_2).
    apply NoDup_app. split; [done|]. split; [|done].
    intros key Hkey Hin. apply (Hdisjoint key Hkey). by apply list_elem_of_further. }
  assert ((name ∉ obj_keys result) /\ (name ∉ obj_keys rest)) as [Hfresh Hlater].
  { apply NoDup_app in Hnd as (? & Hdisjoint & [? ?]%NoDup_cons). split; [|done].
    intros Hin. apply (Hdisjoint name Hin). apply list_elem_of_here. }
  rewrite convert_field_Within.
  destruct (field_beyond row (name, col)) eqn:Hbeyond.
  { rewrite convertRowFields_Beyond. rewrite bool_decide_true; [done|].
    by apply Exists_cons_hd. }
  assert (bool_decide (Exists (fun entry => field_beyond row entry = true)
                         ((name, col) :: rest))
          = bool_decide (Exists (fun entry => field_beyond row entry = true) rest)) as ->.
  { apply bool_decide_ext. rewrite Exists_cons. split; [intros [?|?]|]; auto; congruence. }
  rewrite filter_cons. cbn [fst].
  destruct (bool_decide_reflect (name = js "__proto__")) as [->|Hname].
  - rewrite decide_False by (intros Hne; by destruct Hne). by apply IH.
  - rewrite decide_True by done. rewrite IH.
    + rewrite obj_set_fresh by done. by rewrite fmap_cons, <- app_assoc.
    + rewrite obj_set_fresh by done. unfold obj_keys in *.
      rewrite fmap_app, <- app_assoc. cbn [fmap list_fmap app fst].
      apply NoDup_app in Hrest as (? & Hdisjoint & ?).
      apply NoDup_app. split; [done|]. split; [|by apply NoDup_cons].
      intros key Hkey [->|Hin]%elem_of_cons; [done|]. by apply (Hdisjoint key).
Qed.

(** X18: [convertRowFields] gives an object with the names of the
    header, in the order of [Object.entries] (the names that are array
    indices first), each with the value of the row at the column of the
    name: [undefined] when the row has no such column; the other columns of
    the row are dropped, and the name [__proto__] gets no field. That is so
    unless a column that the row has not is a name of [Object.prototype], or
    the name [__proto__] is given an object or [null]. *)
Theorem convertRowFields_fields header row :
  NoDup (obj_keys header) ->
  match convertRowFields header row with
  | Within result =>
      Forall (fun entry => field_beyond row entry = false) header
      /\ result
         = (fun entry => (entry.1, default VUndefined (obj_get entry.2 row)))
             <$> filter (fun entry => entry.1 <> js "__proto__") (Object_entries header)
  | Beyond => Exists (fun entry => field_beyond row entry = true) header
  end.
Proof.
  intros Hnd. unfold convertRowFields. rewrite convertRowFields_fold.
  - destruct (bool_decide_reflect
                (Exists (fun entry => field_beyond row entry = true)
                   (Object_entries header))) as [Hexists|Hnone].
    + by rewrite Object_entries_Permutation in Hexists.
    + split; [|done]. rewrite Object_entries_Permutation in Hnone.
      apply Forall_forall. intros entry Hin.
      destruct (field_beyond row entry) eqn:E; [|done].
      destruct Hnone. apply Exists_exists. eauto.
  - cbn [obj_keys fmap list_fmap app]. unfold obj_keys in *.
    by rewrite Object_entries_Permutation.
Qed.

Lemma convertRowFields_fields_witness :
  convertRowFields [(js "id", js "UNII"); (js "name", js "PT"); (js "1", js "extra")]
    [(js "PT", VString (js "aspirin")); (js "extra", VNumber 1)]
  = Within [(js "1", VNumber 1); (js "id", VUndefined); (js "name", VString (js "aspirin"))].
Proof.
  pose proof (convertRowFields_fields
                [(js "id", js "UNII"); (js "name", js "PT"); (js "1", js "extra")]
                [(js "PT", VString (js "aspirin")); (js "extra", VNumber 1)]) as Hfields.
  destruct (convertRowFields _ _) as [result|].
  - destruct Hfields as [_ ->]; [|reflexivity].
    apply (bool_decide_unpack _). vm_compute. reflexivity.
  - exfalso. apply Exists_exists in Hfields as (entry & Hin & Hbeyond).
    + repeat (apply elem_of_cons in Hin as [->|Hin]; [by vm_compute in Hbeyond|]).
      by apply elem_of_nil in Hin.
    + apply (bool_decide_unpack _). vm_compute. reflexivity.
Defined.

Section RetryFacts.
Context {World Response Failure : Type}.
Variable request : World -> (Response + Failure) * World.
Variable statusCode : Failure -> option Z.
Variable sleep : Z -> World -> World.

Lemma world_before_S waitSeconds n world :
  world_before request sleep waitSeconds (S n) world
  = world_before request sleep waitSeconds n (sleep waitSeconds (request world).2).
Proof. unfold world_before. by rewrite Nat.iter_succ_r. Qed.

(** X19: [requestWithRetry] makes at most [retries + 1] requests. Its
    outcome is the answer of the last request it makes; every request
    before that one was answered with the error of too many requests and
    followed by the wait, and the last one is answered otherwise unless the
    retries are used up. *)
Theorem requestWithRetry_attempts waitSeconds retries world :
  exists n,
    (n <= retries)%nat
    /\ requestWithRetry request statusCode sleep waitSeconds retries world
       = request (world_before request sleep waitSeconds n world)
    /\ (forall i, (i < n)%nat ->
          too_many statusCode (request (world_before request sleep waitSeconds i world)).1)
    /\ ((n < retries)%nat ->
        ~ too_many statusCode (request (world_before request sleep waitSeconds n world)).1).
Proof.
  revert world. induction retries as [|retries IH]; intros world.
  - exists 0%nat. split; [done|]. split; [|split; [lia|lia]].
    cbn. by destruct (request world) as [[result|err] world'].
  - cbn [requestWithRetry].
    destruct (request world) as [[result|err] world'] eqn:Hrequest.
    + exists 0%nat. split; [lia|]. cbn. rewrite Hrequest. split; [done|].
      split; [lia|]. intros _ (err & [=] & _).
    + destruct (bool_decide_reflect (statusCode err = Some TOO_MANY_REQUESTS))
        as [Hstatus|Hstatus].
      * destruct (IH (sleep waitSeconds world')) as (n & Hn & Heq & Hbefore & Hlast).
        exists (S n). split; [lia|]. rewrite !world_before_S, Hrequest. cbn [snd].
        split; [done|]. split.
        -- intros [|i] Hi.
           ++ cbn. rewrite Hrequest. by exists err.
           ++ rewrite world_before_S, Hrequest. apply Hbefore. lia.
        -- intros Hlt. apply Hlast. lia.
      * exists 0%nat. split; [lia|]. cbn. rewrite Hrequest. split; [done|].
        split; [lia|]. intros _ (err' & [= <-] & Hstatus'). done.
Qed.
End RetryFacts.

Section PreLoadCacheFacts.
Context {Entry : Type}.
Variable generateCacheKey : Entry -> jsstring.

Lemma load_records_cache records CACHE :
  (load_records generateCacheKey records CACHE).1
  = foldl (fun CACHE record => <[generateCacheKey record := record]> CACHE) CACHE records.
Proof.
  unfold load_records. generalize (∅ : gset jsstring). revert CACHE.
  induction records as [|record rest IH]; intros CACHE dups; [done|].
  cbn [foldl]. apply IH.
Qed.

End PreLoadCacheFacts.



(** ** The configuration *)

Lemma env_or_empty env name variable fallback :
  env_or (<[name := []]> env) variable fallback = env_or (delete name env) variable fallback.
Proof.
  unfold env_or. destruct (decide (name = variable)) as [->|Hne].
  - by rewrite lookup_insert_eq, lookup_delete_eq.
  - by rewrite lookup_insert_ne, lookup_delete_ne.
Qed.

Lemma env_is_1_empty env name variable :
  env_is_1 (<[name := []]> env) variable = env_is_1 (delete name env) variable.
Proof.
  unfold env_is_1. destruct (decide (name = variable)) as [->|Hne].
  - rewrite lookup_insert_eq, lookup_delete_eq. by rewrite !bool_decide_false.
  - by rewrite lookup_insert_ne, lookup_delete_ne.
Qed.

Lemma env_text_empty env name variable :
  name <> variable ->
  env_text (<[name := []]> env) variable = env_text (delete name env) variable.
Proof. intros Hne. unfold env_text. by rewrite lookup_insert_ne, lookup_delete_ne. Qed.

(** X21: for [create], a variable of the environment that is set to the
    empty text is like a variable that is not set: every variable but
    [ORIENTDB_HOME] and [npm_package_version], which are put into a text,
    gives way to its default value. *)
Theorem create_empty_variable loaded env name :
  name <> js "ORIENTDB_HOME" -> name <> js "npm_package_version" ->
  create (<[name := []]> loaded) (<[name := []]> env)
  = create (delete name loaded) (delete name env).
Proof.
  intros Hhome Hversion. unfold create, dbName.
  by rewrite !env_or_empty, !env_is_1_empty, !env_text_empty.
Qed.

Lemma create_empty_variable_witness :
  create (<[js "DB_HOST" := []]> ∅) (<[js "DB_HOST" := []]> ∅)
  = create (delete (js "DB_HOST") ∅) (delete (js "DB_HOST") ∅).
Proof.
  apply create_empty_variable; vm_compute; discriminate.
Defined.


(** ** The nested queries of a selection query *)

Section Nesting.
Import SelectionQuery.

Lemma nests_mk model conditions follow skip activeOnly properties returnProperties cast :
  nests (mk model conditions follow skip activeOnly properties returnProperties cast)
  <-> conditions_nest activeOnly conditions.
Proof.
  cbn [nests]. unfold conditions_nest.
  induction conditions as [|[attr [c|sub|v]] rest IH].
  - split; [|done]. intros _ ?? Hin. by apply elem_of_nil in Hin.
  - rewrite IH. split.
    + intros H a s Hin. apply elem_of_cons in Hin as [[=]|Hin]. by apply (H a).
    + intros H a s Hin. apply (H a). by apply list_elem_of_further.
  - rewrite IH. split.
    + intros [Hsub H] a s Hin. apply elem_of_cons in Hin as [[= -> ->]|Hin]; [done|].
      by apply (H a).
    + intros H. split; [apply (H attr); apply list_elem_of_here|].
      intros a s Hin. apply (H a). by apply list_elem_of_further.
  - rewrite IH. split.
    + intros H a s Hin. apply elem_of_cons in Hin as [[=]|Hin]. by apply (H a).
    + intros H a s Hin. apply (H a). by apply list_elem_of_further.
Qed.

Lemma conditions_nest_set activeOnly conditions key condition :
  conditions_nest activeOnly conditions ->
  (forall sub, condition = Subquery sub ->
     SelectionQuery.activeOnly sub = activeOnly /\ follow sub <> []
     /\ skip sub = None /\ nests sub) ->
  conditions_nest activeOnly (obj_set key condition conditions).
Proof.
  intros Hconditions Hcondition attr sub Hin.
  apply obj_set_elem in Hin as [[= -> <-]|Hin]; [by apply Hcondition|].
  by apply (Hconditions attr).
Qed.

Lemma split_entries_nest activeOnly propertyNames linked entries conditions subqueries
    conditions' subqueries' :
  (forall key linkedModel build,
     obj_get key linked = Some (Some (linkedModel, build)) -> builds_nested build) ->
  split_entries propertyNames linked entries conditions subqueries
    = Ok (conditions', subqueries') ->
  conditions_nest activeOnly conditions ->
  (forall key sub, (key, sub) ∈ subqueries -> builds_nested (sub_new sub)) ->
  conditions_nest activeOnly conditions'
  /\ (forall key sub, (key, sub) ∈ subqueries' -> builds_nested (sub_new sub)).
Proof.
  intros Hlinked. revert conditions subqueries.
  induction entries as [|[name value] rest IH]; intros conditions subqueries Hsplit
    Hconditions Hsubqueries.
  - simpl in Hsplit. by injection Hsplit as <- <-.
  - simpl in Hsplit.
    destruct (includes SPECIAL_QUERY_ARGS name); [by apply (IH _ _ Hsplit)|].
    destruct (getParameterPrefix name) as [prefix suffix].
    destruct (negb (includes propertyNames prefix) && negb (includes odbArgs prefix));
      [done|].
    assert (forall condition,
              (forall sub, condition <> Subquery sub) ->
              conditions_nest activeOnly (obj_set name condition conditions)) as Hset.
    { intros condition Hleaf. apply conditions_nest_set; [done|].
      intros sub ->. by destruct (Hleaf sub). }
    destruct suffix as [suffix|].
    + destruct (obj_get prefix linked) as [[[linkedModel build]|]|] eqn:Hget; [| |done].
      * apply (IH _ _ Hsplit Hconditions).
        intros key sub Hin. apply obj_set_elem in Hin as [[= -> ->]|Hin].
        -- cbn [sub_new].
           destruct (obj_get prefix subqueries) as [sub|] eqn:Hsub; cbn [default sub_new].
           ++ apply (Hsubqueries prefix). by apply obj_get_Some_elem.
           ++ by apply (Hlinked prefix linkedModel).
        -- by apply (Hsubqueries key).
      * apply (IH _ _ Hsplit); [|done]. apply Hset. intros sub.
        destruct value as [c|v]; [done|]. by destruct (negb _).
    + apply (IH _ _ Hsplit); [|done]. apply Hset. intros sub.
      by destruct value.
Qed.

Lemma inline_conditions_nest activeOnly name subquery state :
  nests subquery ->
  SelectionQuery.activeOnly subquery = activeOnly ->
  conditions_nest activeOnly state.1.1 ->
  conditions_nest activeOnly (inline_conditions name subquery state).1.1.
Proof.
  intros Hsubquery HactiveOnly. unfold inline_conditions.
  destruct subquery as [model conditions follow skip activeOnly' properties
                          returnProperties cast].
  apply nests_mk in Hsubquery. cbn [SelectionQuery.activeOnly] in HactiveOnly. subst.
  cbn [SelectionQuery.conditions SelectionQuery.model].
  generalize (obj_keys conditions). intros keys. revert state.
  induction keys as [|key keys IH]; intros [[conds props] casts] Hstate; [done|].
  cbn [foldl]. apply IH. cbn [fst snd] in *.
  destruct (obj_get key conditions) as [condition|] eqn:Hget; [|done].
  apply conditions_nest_set; [done|].
  intros sub ->. apply (Hsubquery key). by apply obj_get_Some_elem.
Qed.

Lemma resolve_subqueries_nest activeOnly entries state state' :
  (forall key sub, (key, sub) ∈ entries -> builds_nested (sub_new sub)) ->
  resolve_subqueries activeOnly entries state = Ok state' ->
  conditions_nest activeOnly state.1.1 ->
  conditions_nest activeOnly state'.1.1.
Proof.
  revert state.
  induction entries as [|[name value] rest IH]; intros state Hbuilds Hresolve Hstate.
  - simpl in Hresolve. by injection Hresolve as <-.
  - simpl in Hresolve.
    destruct (sub_new value _ _) as [subquery|] eqn:Hnew; [|done].
    cbn [mbind result_bind] in Hresolve.
    destruct (Hbuilds name value (list_elem_of_here _ _) _ _ _ Hnew)
      as (Hnests & HactiveOnly & Hskip).
    cbn in HactiveOnly. specialize (Hskip eq_refl).
    assert (forall key sub, (key, sub) ∈ rest -> builds_nested (sub_new sub)) as Hrest.
    { intros key sub Hin. apply (Hbuilds key). by apply list_elem_of_further. }
    destruct (bool_decide_reflect (length (follow subquery) = 0%nat)) as [Hhops|Hhops].
    + apply (IH _ Hrest Hresolve). by apply inline_conditions_nest.
    + destruct state as [[conds props] casts].
      apply (IH _ Hrest Hresolve). cbn [fst snd] in *.
      apply conditions_nest_set; [done|]. intros sub [= <-].
      split; [done|]. split; [|done]. intros Hnil. apply Hhops. by rewrite Hnil.
Qed.

Lemma cast_conditions_nest activeOnly cast entries entries' :
  cast_conditions cast entries = Ok entries' ->
  conditions_nest activeOnly entries -> conditions_nest activeOnly entries'.
Proof.
  intros Hcast.
  assert (forall attr sub, (attr, Subquery sub) ∈ entries' ->
                           (attr, Subquery sub) ∈ entries) as Hin.
  { revert entries' Hcast.
    induction entries as [|[name condition] rest IH]; intros entries' Hcast.
    - simpl in Hcast. by injection Hcast as <-.
    - simpl in Hcast.
      destruct (match condition with Leaf _ => _ | _ => _ end) as [condition'|] eqn:E;
        [|done].
      cbn [mbind result_bind] in Hcast.
      destruct (cast_conditions cast rest) as [rest'|]; [|done]. injection Hcast as <-.
      intros attr sub Hsub. apply elem_of_cons in Hsub as [Heq|Hsub].
      + injection Heq as -> <-.
        destruct condition as [c|sub'|v].
        * destruct (obj_get name cast); [|done].
          by destruct (applyCast _ c).
        * injection E as <-. apply list_elem_of_here.
        * by destruct (obj_get name cast).
      + apply list_elem_of_further. by apply (IH rest'). }
  intros Hnest attr sub Hsub. apply (Hnest attr). by apply Hin.
Qed.

Lemma new_builds_nested model : builds_nested (new model).
Proof.
  induction model as [model_name propertyNames model_properties model_cast inherits
                        isEdge formatRecord IH] using model_induction.
  intros inputQuery opt q Hnew.
  rewrite new_unfold in Hnew. cbn zeta in Hnew.
  destruct (check_returnProperties _ _ _); [|done]. cbn [mbind result_bind] in Hnew.
  destruct (split_entries _ _ _ _ _) as [[conditions subqueries]|] eqn:Hsplit; [|done].
  cbn [mbind result_bind] in Hnew.
  destruct (Follow.parse _); [|done]. cbn [mbind result_bind] in Hnew.
  destruct (resolve_subqueries _ _ _) as [[[conditions' properties'] cast']|] eqn:Hresolve;
    [|done].
  cbn [mbind result_bind] in Hnew.
  destruct (cast_conditions _ _) as [conditions''|] eqn:Hcast; [|done].
  injection Hnew as <-. cbn [SelectionQuery.activeOnly SelectionQuery.skip].
  split; [|split; [done|by intros ->]].
  apply nests_mk.
  apply (cast_conditions_nest _ _ _ _ Hcast).
  apply (split_entries_nest (default true (opt_activeOnly opt))) in Hsplit
    as [Hconditions Hsubqueries].
  - apply (resolve_subqueries_nest _ _ _ _ Hsubqueries Hresolve Hconditions).
  - intros key linkedModel build Hget.
    apply linked_constructors_elem in Hget as [-> [type Hin]].
    by apply (IH key type linkedModel Hin).
  - intros attr sub Hin. by apply elem_of_nil in Hin.
  - intros key sub Hin. by apply elem_of_nil in Hin.
Qed.

(** X22: in a query that the constructor builds, [activeOnly] is the option
    given (true by default), and every nested query, at every depth, has
    the [activeOnly] of the outer query, at least one sequence of hops and
    no [skip]. *)
Theorem new_nested_queries model inputQuery opt q :
  new model inputQuery opt = Ok q ->
  SelectionQuery.activeOnly q = default true (opt_activeOnly opt)
  /\ nests q
  /\ forall attr sub,
       (attr, Subquery sub) ∈ conditions q ->
       SelectionQuery.activeOnly sub = SelectionQuery.activeOnly q
       /\ follow sub <> [] /\ skip sub = None.
Proof.
  intros Hnew. destruct (new_builds_nested model _ _ _ Hnew) as (Hnests & HactiveOnly & _).
  split; [done|]. split; [done|].
  destruct q as [? conditions ? ? activeOnly ? ? ?]. apply nests_mk in Hnests.
  intros attr sub Hin. cbn [SelectionQuery.conditions SelectionQuery.activeOnly] in *.
  destruct (Hnests attr sub Hin) as (? & ? & ? & _). done.
Qed.
End Nesting.

Lemma new_nested_queries_witness :
  exists q,
    SelectionQuery.new example_linked_model example_inputQuery
      (SelectionQuery.mkOptions None None) = Ok q
    /\ SelectionQuery.activeOnly q = true
    /\ nests q
    /\ forall attr sub,
         (attr, SelectionQuery.Subquery sub) ∈ SelectionQuery.conditions q ->
         SelectionQuery.activeOnly sub = SelectionQuery.activeOnly q
         /\ SelectionQuery.follow sub <> [] /\ SelectionQuery.skip sub = None.
Proof.
  eexists. split; [vm_compute; reflexivity|].
  apply (new_nested_queries example_linked_model example_inputQuery
           (SelectionQuery.mkOptions None None)).
  vm_compute. reflexivity.
Defined.


(** ** The graph of an ontology *)

Section ConvertFacts.
Variable idParser : jsstring -> result jsstring.

Lemma collect_statements_cons statement rest initialRecords :
  collect_statements idParser (statement :: rest) initialRecords
  = match idParser (subject statement) with
    | Throw _ => collect_statements idParser rest initialRecords
    | Ok src =>
        let record := default (mkNode src ∅) (initialRecords !! src) in
        let items := default [] (predicates record !! predicate statement) in
        if bool_decide (initialRecords !! src = None) && inherited src then Beyond
        else if bool_decide (predicate statement = js "code")
                || bool_decide (predicates record !! predicate statement = None)
                   && inherited (predicate statement)
             then Within (Throw TypeError)
             else collect_statements idParser rest
                    (<[src := mkNode (code record)
                                (<[predicate statement := items ++ [object_value statement]]>
                                   (predicates record))]> initialRecords)
    end.
Proof.
  cbn [collect_statements]. destruct (idParser (subject statement)) as [src|]; [|done].
  cbn zeta. unfold member_at, inherited.
  destruct (initialRecords !! src) as [record|]; cbn [default from_option id].
  - rewrite (bool_decide_false (Some record = None)) by done. cbn [andb].
    destruct (bool_decide (predicate statement = js "code")); cbn [orb]; [done|].
    destruct (predicates record !! predicate statement) as [items|].
    + by rewrite (bool_decide_false (Some items = None)) by done.
    + rewrite (bool_decide_true (None = None)) by done. cbn [andb].
      by destruct (includes _ (predicate statement)).
  - rewrite (bool_decide_true (None = None)) by done. cbn [andb].
    destruct (includes _ src); [done|].
    destruct (bool_decide (predicate statement = js "code")); cbn [orb predicates]; [done|].
    rewrite lookup_empty, (bool_decide_true (None = None)) by done. cbn [andb].
    by destruct (includes _ (predicate statement)).
Qed.

Lemma recorded_insert initialRecords src predicate_ item s p :
  (forall src record, initialRecords !! src = Some record -> code record = src) ->
  let record := default (mkNode src ∅) (initialRecords !! src) in
  let items := default [] (predicates record !! predicate_) in
  recorded (<[src := mkNode (code record)
                       (<[predicate_ := items ++ [item]]> (predicates record))]>
              initialRecords) s p
  = recorded initialRecords s p
    ++ (if bool_decide (src = s) && bool_decide (predicate_ = p) then [item] else []).
Proof.
  intros Hcodes. cbn zeta. unfold recorded.
  destruct (decide (src = s)) as [<-|Hsrc].
  - rewrite lookup_insert_eq, (bool_decide_true (src = src)) by done.
    cbn [mbind option_bind predicates andb].
    destruct (decide (predicate_ = p)) as [<-|Hpredicate].
    + rewrite lookup_insert_eq, bool_decide_true by done. cbn [default from_option id].
      f_equal. by destruct (initialRecords !! src).
    + rewrite lookup_insert_ne, bool_decide_false, app_nil_r by done.
      by destruct (initialRecords !! src).
  - rewrite lookup_insert_ne, (bool_decide_false (src = s)), app_nil_r by done. done.
Qed.

Lemma plain_records_insert initialRecords src predicate_ items :
  let record := default (mkNode src ∅) (initialRecords !! src) in
  plain_records initialRecords ->
  inherited src = false -> inherited predicate_ = false ->
  plain_records (<[src := mkNode (code record) (<[predicate_ := items]> (predicates record))]>
                   initialRecords).
Proof.
  cbn zeta. intros Hplain Hsrc Hpredicate s record.
  destruct (decide (src = s)) as [<-|Hne].
  - rewrite lookup_insert_eq. intros [= <-]. cbn [code predicates].
    destruct (initialRecords !! src) as [found|] eqn:E; cbn [default from_option id].
    + destruct (Hplain _ _ E) as (? & ? & Hfound). split; [done|]. split; [done|].
      intros p. destruct (decide (predicate_ = p)) as [<-|Hnp]; [done|].
      rewrite lookup_insert_ne by done. apply Hfound.
    + split; [done|]. split; [done|].
      intros p. destruct (decide (predicate_ = p)) as [<-|Hnp]; [done|].
      rewrite lookup_insert_ne by done. cbn [predicates]. rewrite lookup_empty.
      by intros [? ?].
  - rewrite lookup_insert_ne by done. apply Hplain.
Qed.

Lemma collect_statements_spec statements initialRecords :
  plain_records initialRecords ->
  match collect_statements idParser statements initialRecords with
  | Within (Ok records) =>
      plain_records records
      /\ Forall (plain_statement idParser) statements
      /\ forall src predicate_,
           recorded records src predicate_
           = recorded initialRecords src predicate_
             ++ (object_value <$> filter (fun statement =>
                                            states idParser src predicate_ statement = true)
                                    statements)
  | Within (Throw e) =>
      e = TypeError
      /\ exists before statement after,
           statements = before ++ statement :: after
           /\ Forall (plain_statement idParser) before
           /\ no_list idParser statement
  | Beyond =>
      exists before statement after,
        statements = before ++ statement :: after
        /\ Forall (plain_statement idParser) before
        /\ inherited_code idParser statement
  end.
Proof.
  revert initialRecords.
  induction statements as [|statement rest IH]; intros initialRecords Hplain.
  { cbn. split; [done|]. split; [constructor|]. intros. by rewrite app_nil_r. }
  rewrite collect_statements_cons.
  assert (forall records,
            plain_statement idParser statement ->
            match collect_statements idParser rest records with
            | Within (Ok records') =>
                plain_records records'
                /\ Forall (plain_statement idParser) rest
                /\ forall src predicate_,
                     recorded records' src predicate_
                     = recorded initialRecords src predicate_
                       ++ (object_value
                             <$> filter (fun statement =>
                                           states idParser src predicate_ statement = true)
                                   (statement :: rest))
            | Within (Throw e) =>
                e = TypeError
                /\ exists before statement' after,
                     rest = before ++ statement' :: after
                     /\ Forall (plain_statement idParser) before
                     /\ no_list idParser statement'
            | Beyond =>
                exists before statement' after,
                  rest = before ++ statement' :: after
                  /\ Forall (plain_statement idParser) before
                  /\ inherited_code idParser statement'
            end ->
            match collect_statements idParser rest records with
            | Within (Ok records') =>
                plain_records records'
                /\ Forall (plain_statement idParser) (statement :: rest)
                /\ forall src predicate_,
                     recorded records' src predicate_
                     = recorded initialRecords src predicate_
                       ++ (object_value
                             <$> filter (fun statement =>
                                           states idParser src predicate_ statement = true)
                                   (statement :: rest))
            | Within (Throw e) =>
                e = TypeError
                /\ exists before statement' after,
                     statement :: rest = before ++ statement' :: after
                     /\ Forall (plain_statement idParser) before
                     /\ no_list idParser statement'
            | Beyond =>
                exists before statement' after,
                  statement :: rest = before ++ statement' :: after
                  /\ Forall (plain_statement idParser) before
                  /\ inherited_code idParser statement'
            end) as Hstep.
  { intros records Hstatement.
    destruct (collect_statements idParser rest records) as [[records'|e]|].
    - intros (? & ? & ?). split; [done|]. split; [by constructor|done].
    - intros [-> (before & statement' & after & -> & Hbefore & Hlast)].
      split; [done|]. exists (statement :: before), statement', after.
      split; [done|]. split; [by constructor|done].
    - intros (before & statement' & after & -> & Hbefore & Hlast).
      exists (statement :: before), statement', after.
      split; [done|]. split; [by constructor|done]. }
  destruct (idParser (subject statement)) as [src|failure] eqn:Hsubject.
  2: { apply Hstep; [unfold plain_statement; by rewrite Hsubject|].
       specialize (IH initialRecords Hplain).
       destruct (collect_statements idParser rest initialRecords) as [[records'|e]|];
         [|done..].
       destruct IH as (? & ? & Hrecorded). split; [done|]. split; [done|].
       intros s p. rewrite Hrecorded, filter_cons.
       assert (states idParser s p statement = false) as ->
         by (unfold states; by rewrite Hsubject).
       by rewrite decide_False by done. }
  cbn zeta.
  assert (inherited src = true -> initialRecords !! src = None) as Hown.
  { intros Hsrc. destruct (initialRecords !! src) as [found|] eqn:E; [|done].
    destruct (Hplain _ _ E) as (_ & ? & _). congruence. }
  destruct (inherited src) eqn:Hsrc.
  { rewrite bool_decide_true by auto. exists [], statement, rest.
    split; [done|]. split; [constructor|]. by exists src. }
  rewrite andb_false_r.
  destruct (bool_decide_reflect (predicate statement = js "code")) as [Hcode|Hcode].
  { split; [done|]. exists [], statement, rest. split; [done|]. split; [constructor|].
    exists src. auto. }
  cbn [orb].
  assert (inherited (predicate statement) = true ->
          predicates (default (mkNode src ∅) (initialRecords !! src)) !! predicate statement
          = None) as Hlist.
  { intros Hp. destruct (initialRecords !! src) as [found|] eqn:E; [|done].
    cbn. destruct (predicates found !! predicate statement) eqn:E'; [|done].
    destruct (Hplain _ _ E) as (_ & _ & Hfound).
    rewrite Hfound in Hp by (by rewrite E'). done. }
  destruct (inherited (predicate statement)) eqn:Hpredicate.
  { rewrite bool_decide_true by auto. split; [done|]. exists [], statement, rest.
    split; [done|]. split; [constructor|]. exists src. auto. }
  rewrite andb_false_r.
  apply Hstep; [unfold plain_statement; by rewrite Hsubject|].
  match goal with
  | |- context [collect_statements idParser _ ?next] =>
      specialize (IH next); set (records1 := next) in *
  end.
  assert (plain_records records1) as Hplain1 by (by apply plain_records_insert).
  specialize (IH Hplain1).
  destruct (collect_statements idParser rest records1) as [[records'|e]|]; [|done..].
  destruct IH as (? & ? & Hrecorded). split; [done|]. split; [done|].
  intros s p. unfold records1 in Hrecorded. rewrite Hrecorded, recorded_insert.
  2: { intros ? ? Hget. by destruct (Hplain _ _ Hget). }
  rewrite <- app_assoc. f_equal. rewrite filter_cons.
  assert (states idParser s p statement
          = bool_decide (src = s) && bool_decide (predicate statement = p)) as Hstates
    by (unfold states; by rewrite Hsubject).
  rewrite Hstates.
  by destruct (bool_decide (src = s) && bool_decide (predicate statement = p)).
Qed.

Lemma foldl_insert_list_to_map {A B : Type} (key : A -> jsstring) (item : A -> B)
    (entries : list A) :
  NoDup (key <$> entries) ->
  foldl (fun (store : gmap jsstring B) entry => <[key entry := item entry]> store) ∅ entries
  = list_to_map ((fun entry => (key entry, item entry)) <$> entries).
Proof.
  induction entries as [|entry entries IH] using rev_ind; [done|].
  rewrite fmap_app, NoDup_app. intros (Hentries & Hfresh & _).
  rewrite foldl_app, fmap_app. cbn [foldl fmap list_fmap].
  rewrite list_to_map_snoc, IH; [done..|].
  rewrite <- list_fmap_compose. intros Hin. apply (Hfresh _ Hin). cbn. apply list_elem_of_here.
Qed.

Lemma nodes_by_code_fold (entries : list (jsstring * node))
    (nodesByCode : gmap jsstring node) :
  Forall (fun entry : jsstring * node => code entry.2 <> js "__proto__") entries ->
  foldl
    (fun (nodesByCode : within (gmap jsstring node)) (entry : jsstring * node) =>
       match nodesByCode with
       | Within nodesByCode =>
           if bool_decide (code entry.2 = js "__proto__") then Beyond
           else
             Within
               (<[code entry.2 :=
                    mkNode (code entry.2)
                      ((fun items : list jsstring => format_item idParser <$> items)
                         <$> predicates entry.2)]> nodesByCode)
       | Beyond => Beyond
       end)
    (Within nodesByCode) entries
  = Within
      (foldl
         (fun (nodesByCode : gmap jsstring node) (entry : jsstring * node) =>
            <[code entry.2 :=
                mkNode (code entry.2)
                  ((fun items : list jsstring => format_item idParser <$> items)
                     <$> predicates entry.2)]> nodesByCode)
         nodesByCode entries).
Proof.
  intros Hentries. revert nodesByCode.
  induction Hentries as [|entry rest Hentry _ IH]; intros nodesByCode; [done|].
  cbn [foldl]. rewrite bool_decide_false by done. apply IH.
Qed.

Lemma nodes_by_code_fmap initialRecords :
  plain_records initialRecords ->
  nodes_by_code idParser initialRecords
  = Within
      ((fun record =>
          mkNode (code record)
            ((fun items : list jsstring => format_item idParser <$> items)
               <$> predicates record))
         <$> initialRecords).
Proof.
  intros Hplain. unfold nodes_by_code.
  assert (forall entry : jsstring * node,
            entry ∈ map_to_list initialRecords ->
            code entry.2 = entry.1 /\ inherited entry.1 = false) as Hkeys.
  { intros [src record] Hin%elem_of_map_to_list. by destruct (Hplain _ _ Hin) as (? & ? & _). }
  rewrite nodes_by_code_fold.
  2: { apply Forall_forall. intros entry Hin. destruct (Hkeys _ Hin) as [-> Hplain'].
       intros Heq. rewrite Heq in Hplain'. by vm_compute in Hplain'. }
  f_equal.
  rewrite (foldl_insert_list_to_map (fun entry : jsstring * node => code entry.2)
             (fun entry : jsstring * node =>
                mkNode (code entry.2)
                  ((fun items : list jsstring => format_item idParser <$> items)
                     <$> predicates entry.2))).
  - rewrite <- (list_to_map_to_list (_ <$> initialRecords)).
    rewrite map_to_list_fmap. f_equal.
    apply list_fmap_ext. intros i [src record] Hlookup. cbn.
    f_equal. apply (Hkeys (src, record)). by eapply list_elem_of_lookup_2.
  - replace ((fun entry : jsstring * node => code entry.2) <$> map_to_list initialRecords)
      with ((map_to_list initialRecords).*1); [apply NoDup_fst_map_to_list|].
    apply list_fmap_ext. intros i entry Hlookup. symmetry. apply Hkeys.
    by eapply list_elem_of_lookup_2.
Qed.

(** X23: [convertOwlGraphToJson] on statements whose codes and predicates
    are no names of [Object.prototype], and whose predicate is not [code],
    gives the records under their own codes, and under a code and a
    predicate exactly the objects of the statements about them, in the
    order of the statements and formatted by the parser where it accepts
    them; a statement whose subject the parser rejects adds nothing. The
    first other statement ends it: with a [TypeError] when its code is no
    such name (the predicate is [code] or such a name, which have no list),
    and beyond the records, on an object that all objects share, when its
    code is one. *)
Theorem convertOwlGraphToJson_records statements :
  match convertOwlGraphToJson idParser statements with
  | Within (Ok nodesByCode) =>
      Forall (plain_statement idParser) statements
      /\ (forall src record, nodesByCode !! src = Some record -> code record = src)
      /\ forall src predicate_,
           recorded nodesByCode src predicate_
           = format_item idParser
               <$> (object_value
                      <$> filter (fun statement =>
                                    states idParser src predicate_ statement = true)
                            statements)
  | Within (Throw e) =>
      e = TypeError
      /\ exists before statement after,
           statements = before ++ statement :: after
           /\ Forall (plain_statement idParser) before
           /\ no_list idParser statement
  | Beyond =>
      exists before statement after,
        statements = before ++ statement :: after
        /\ Forall (plain_statement idParser) before
        /\ inherited_code idParser statement
  end.
Proof.
  unfold convertOwlGraphToJson.
  pose proof (collect_statements_spec statements ∅) as Hcollect.
  destruct (collect_statements idParser statements ∅) as [[records|e]|];
    [|apply Hcollect; by intros ? ?; rewrite lookup_empty..].
  destruct Hcollect as (Hplain & Hstatements & Hrecorded);
    [by intros ? ?; rewrite lookup_empty|].
  rewrite nodes_by_code_fmap by done. split; [done|]. split.
  - intros src record. rewrite lookup_fmap.
    destruct (records !! src) as [record'|] eqn:E; [|done]. cbn. intros [= <-]. cbn.
    by destruct (Hplain _ _ E).
  - intros src predicate_. specialize (Hrecorded src predicate_).
    unfold recorded in *. rewrite lookup_empty in Hrecorded. cbn in Hrecorded.
    rewrite <- Hrecorded. rewrite lookup_fmap.
    destruct (records !! src) as [record|]; [|done]. cbn. rewrite lookup_fmap.
    by destruct (predicates record !! predicate_).
Qed.
End ConvertFacts.
